(** * The builtin command and expression parser (src/Builtins/Parser.cpp)

    A shallow embedding of the recursive-descent, precedence-climbing parser
    of the builtin command language, and the properties of it that the
    specification states.

    The three operator tables are [std::map]s and are embedded as [gmap]s;
    the parser object (current token, scanner, error context) is an explicit
    state threaded through every parsing function; a [NULL] result is [None].
    The parsing functions are mutually recursive and not structurally so:
    they recurse on a call-depth budget, and the termination theorems show
    that a budget linear in the number of tokens is never exhausted. *)

From Stdlib Require Import ZArith String Ascii List Lia.
From stdpp Require Import base decidable countable gmap.
Import ListNotations.

Local Open Scope string_scope.
Local Open Scope Z_scope.

(** ** Token kinds and opcodes *)

(** Modelled from the spec: the enumerations [TokenType], [UnaryOpcode] and
    [BinaryOpcode] are declared in headers outside the sources verified
    here.  The opcodes are the ones section 3 of the specification lists;
    the token kinds are the ones Parser.cpp names. *)
Module TokenType.
Inductive t : Set :=
| EOFT | UNKNOWN
| IDENTIFIER | INTEGER | FLOAT | STRING | VARIABLE
| OPEN_PAREN | CLOSE_PAREN
| PLUS | MINUS | EXCLAMATION | TILDE
| STAR | SLASH | PERCENT
| DOUBLE_EQUAL | EXCLAMATION_EQUAL
| GREATER | LESS | GREATER_EQUAL | LESS_EQUAL
| DOUBLE_AMPERSAND | DOUBLE_PIPE
| AMPERSAND | PIPE | CARET
| DOUBLE_LESS | DOUBLE_GREATER.

Definition all : list t :=
  [EOFT; UNKNOWN; IDENTIFIER; INTEGER; FLOAT; STRING; VARIABLE;
   OPEN_PAREN; CLOSE_PAREN; PLUS; MINUS; EXCLAMATION; TILDE;
   STAR; SLASH; PERCENT; DOUBLE_EQUAL; EXCLAMATION_EQUAL;
   GREATER; LESS; GREATER_EQUAL; LESS_EQUAL;
   DOUBLE_AMPERSAND; DOUBLE_PIPE; AMPERSAND; PIPE; CARET;
   DOUBLE_LESS; DOUBLE_GREATER].

Definition to_nat (k : t) : nat :=
  match k with
  | EOFT => 0 | UNKNOWN => 1
  | IDENTIFIER => 2 | INTEGER => 3 | FLOAT => 4 | STRING => 5
  | VARIABLE => 6 | OPEN_PAREN => 7 | CLOSE_PAREN => 8
  | PLUS => 9 | MINUS => 10 | EXCLAMATION => 11 | TILDE => 12
  | STAR => 13 | SLASH => 14 | PERCENT => 15
  | DOUBLE_EQUAL => 16 | EXCLAMATION_EQUAL => 17
  | GREATER => 18 | LESS => 19 | GREATER_EQUAL => 20 | LESS_EQUAL => 21
  | DOUBLE_AMPERSAND => 22 | DOUBLE_PIPE => 23
  | AMPERSAND => 24 | PIPE => 25 | CARET => 26
  | DOUBLE_LESS => 27 | DOUBLE_GREATER => 28
  end%nat.

Definition of_nat (n : nat) : t := nth n all EOFT.

#[global] Instance eq_dec : EqDecision t.
Proof. solve_decision. Defined.

#[global] Instance countable : Countable t.
Proof.
  refine (inj_countable' to_nat of_nat _). intros k; destruct k; reflexivity.
Defined.
End TokenType.

Module UnaryOpcode.
Inductive t : Set := PLUS | MINUS | LOGIC_NEGATE | BIT_NEGATE | NONE.

#[global] Instance eq_dec : EqDecision t.
Proof. solve_decision. Defined.
End UnaryOpcode.

Module BinaryOpcode.
Inductive t : Set :=
| ADD | SUBTRACT | MULTIPLY | DIVIDE | MOD
| EQUALS | NOT_EQUALS
| GREATER_THAN | LESS_THAN | GREATER_THAN_OR_EQUALS | LESS_THAN_OR_EQUALS
| LOGIC_AND | LOGIC_OR
| BIT_AND | BIT_OR | BIT_XOR
| LEFT_SHIFT | RIGHT_SHIFT
| NONE.

Definition all : list t :=
  [ADD; SUBTRACT; MULTIPLY; DIVIDE; MOD; EQUALS; NOT_EQUALS;
   GREATER_THAN; LESS_THAN; GREATER_THAN_OR_EQUALS; LESS_THAN_OR_EQUALS;
   LOGIC_AND; LOGIC_OR; BIT_AND; BIT_OR; BIT_XOR;
   LEFT_SHIFT; RIGHT_SHIFT; NONE].

Definition to_nat (o : t) : nat :=
  match o with
  | ADD => 0 | SUBTRACT => 1 | MULTIPLY => 2 | DIVIDE => 3 | MOD => 4
  | EQUALS => 5 | NOT_EQUALS => 6
  | GREATER_THAN => 7 | LESS_THAN => 8
  | GREATER_THAN_OR_EQUALS => 9 | LESS_THAN_OR_EQUALS => 10
  | LOGIC_AND => 11 | LOGIC_OR => 12
  | BIT_AND => 13 | BIT_OR => 14 | BIT_XOR => 15
  | LEFT_SHIFT => 16 | RIGHT_SHIFT => 17
  | NONE => 18
  end%nat.

Definition of_nat (n : nat) : t := nth n all NONE.

#[global] Instance eq_dec : EqDecision t.
Proof. solve_decision. Defined.

#[global] Instance countable : Countable t.
Proof.
  refine (inj_countable' to_nat of_nat _). intros o; destruct o; reflexivity.
Defined.
End BinaryOpcode.

(** ** The operator tables *)

(** A [std::map] built from an initializer list keeps, for a key given
    twice, the first pair; so does [list_to_map]. *)
Definition unaryTokenMap : gmap TokenType.t UnaryOpcode.t :=
  list_to_map
    [(TokenType.PLUS, UnaryOpcode.PLUS);
     (TokenType.MINUS, UnaryOpcode.MINUS);
     (TokenType.EXCLAMATION, UnaryOpcode.LOGIC_NEGATE);
     (TokenType.TILDE, UnaryOpcode.BIT_NEGATE)].

Definition binaryTokenMap : gmap TokenType.t BinaryOpcode.t :=
  list_to_map
    [(TokenType.PLUS, BinaryOpcode.ADD);
     (TokenType.MINUS, BinaryOpcode.SUBTRACT);
     (TokenType.STAR, BinaryOpcode.MULTIPLY);
     (TokenType.SLASH, BinaryOpcode.DIVIDE);
     (TokenType.PERCENT, BinaryOpcode.MOD);
     (TokenType.DOUBLE_EQUAL, BinaryOpcode.EQUALS);
     (TokenType.EXCLAMATION_EQUAL, BinaryOpcode.NOT_EQUALS);
     (TokenType.GREATER, BinaryOpcode.GREATER_THAN);
     (TokenType.LESS, BinaryOpcode.LESS_THAN);
     (TokenType.GREATER_EQUAL, BinaryOpcode.GREATER_THAN_OR_EQUALS);
     (TokenType.LESS_EQUAL, BinaryOpcode.LESS_THAN_OR_EQUALS);
     (TokenType.DOUBLE_AMPERSAND, BinaryOpcode.LOGIC_AND);
     (TokenType.DOUBLE_PIPE, BinaryOpcode.LOGIC_OR);
     (TokenType.AMPERSAND, BinaryOpcode.BIT_AND);
     (TokenType.PIPE, BinaryOpcode.BIT_OR);
     (TokenType.CARET, BinaryOpcode.BIT_XOR);
     (TokenType.DOUBLE_LESS, BinaryOpcode.LEFT_SHIFT);
     (TokenType.DOUBLE_GREATER, BinaryOpcode.RIGHT_SHIFT)].

Definition binaryPrecedences : gmap BinaryOpcode.t Z :=
  list_to_map
    [(BinaryOpcode.MULTIPLY, 700);
     (BinaryOpcode.DIVIDE, 700);
     (BinaryOpcode.MOD, 700);
     (BinaryOpcode.ADD, 600);
     (BinaryOpcode.SUBTRACT, 600);
     (BinaryOpcode.LEFT_SHIFT, 500);
     (BinaryOpcode.RIGHT_SHIFT, 500);
     (BinaryOpcode.GREATER_THAN, 400);
     (BinaryOpcode.LESS_THAN, 400);
     (BinaryOpcode.GREATER_THAN_OR_EQUALS, 400);
     (BinaryOpcode.LESS_THAN_OR_EQUALS, 400);
     (BinaryOpcode.EQUALS, 300);
     (BinaryOpcode.NOT_EQUALS, 300);
     (BinaryOpcode.BIT_AND, 266);
     (BinaryOpcode.BIT_XOR, 233);
     (BinaryOpcode.BIT_OR, 200);
     (BinaryOpcode.LOGIC_AND, 150);
     (BinaryOpcode.LOGIC_OR, 100);
     (BinaryOpcode.NONE, -1)].

(** Modelled from the spec: [findWithDefault] is declared in
    Builtins/Support.h, outside the sources verified here; it looks the key
    up and yields the given default for an unmapped key. *)
Definition findWithDefault {K V : Type} `{Countable K}
    (m : gmap K V) (key : K) (default : V) : V :=
  match m !! key with
  | Some v => v
  | None => default
  end.

Definition tokenTypeToUnaryOpcode (type : TokenType.t) : UnaryOpcode.t :=
  findWithDefault unaryTokenMap type UnaryOpcode.NONE.

Definition tokenTypeToBinaryOpcode (type : TokenType.t) : BinaryOpcode.t :=
  findWithDefault binaryTokenMap type BinaryOpcode.NONE.

(** [std::map::operator[]]: the value stored under the key; a key that is
    absent is first inserted with a value-initialised ([0]) entry, so the
    subscript also yields the table as it is afterwards. *)
Definition map_subscript (m : gmap BinaryOpcode.t Z) (op : BinaryOpcode.t)
  : Z * gmap BinaryOpcode.t Z :=
  match m !! op with
  | Some v => (v, m)
  | None => (0, <[op := 0]> m)
  end.

(** [binaryPrecedences[op]].  The table holds every opcode, so a subscript
    never changes it; that is why the parser state does not carry it. *)
Definition binaryOpPrecedence (op : BinaryOpcode.t) : Z :=
  fst (map_subscript binaryPrecedences op).

(** ** Tokens, the token cursor and the diagnostic sink *)

(** Modelled from the spec: [Token] is declared in the scanner's header,
    outside the sources verified here.  A token has a kind, its raw
    text and the source columns where it starts and ends. *)
Record Token : Set := mkToken {
  type : TokenType.t;
  text : string;
  columnStart : Z;
  columnEnd : Z;
}.

(** Modelled from the spec: the parser object of Builtins/Parser.h, which is
    outside the sources verified here.  It holds the current token, the
    scanner it pulls tokens from (here: the tokens still to be delivered)
    and the error context, to which [printMessage] adds a message and its
    column (here: the list of diagnostics reported so far, oldest first). *)
Record Parser : Type := mkParser {
  currentToken : Token;
  scanner : list Token;
  errorContext : list (string * Z);
}.

Definition currentType (p : Parser) : TokenType.t := type (currentToken p).
Definition currentStart (p : Parser) : Z := columnStart (currentToken p).
Definition currentEnd (p : Parser) : Z := columnEnd (currentToken p).
Definition currentStr (p : Parser) : string := text (currentToken p).

(** Modelled from the spec: [consumeToken] replaces the current token by the
    scanner's next one.  End-of-input is itself a token, the last one of the
    line; a scanner that has delivered its last token keeps delivering it. *)
Definition consumeToken (p : Parser) : Parser :=
  match scanner p with
  | [] => p
  | t :: ts => mkParser t ts (errorContext p)
  end.

(** Modelled from the spec: the diagnostic sink receives a message and a
    source column and returns nothing. *)
Definition printMessage (p : Parser) (msg : string) (column : Z) : Parser :=
  mkParser (currentToken p) (scanner p) (errorContext p ++ [(msg, column)]).

(** The tokens the parser can still see: the current one and those the
    scanner has yet to deliver. *)
Definition pending (p : Parser) : list Token := currentToken p :: scanner p.

(** ** The syntax tree *)

(** Modelled from the spec: the node classes of Builtins/AST.h, which is
    outside the sources verified here.  Every node stores the two columns its
    constructor is given, then its own payload.  A [FloatExpr] holds
    [atof] of the token's text; the floating-point value is not interpreted
    here and the node keeps the text it is computed from. *)
Inductive ExprAST : Type :=
| IdentifierExpr (start end_ : Z) (name : string)
| IntegerExpr (start end_ : Z) (value : Z)
| FloatExpr (start end_ : Z) (lexeme : string)
| StringExpr (start end_ : Z) (str : string)
| VariableExpr (start end_ : Z) (name : string)
| UnaryOp (start end_ : Z) (op : UnaryOpcode.t) (operand : ExprAST)
| BinaryOp (start end_ : Z) (op : BinaryOpcode.t) (lhs rhs : ExprAST).

Record CommandAST : Type := mkCommandAST {
  command : string;
  commandStart : Z;
  commandEnd : Z;
  args : list ExprAST;
}.

Definition getStart (e : ExprAST) : Z :=
  match e with
  | IdentifierExpr s _ _ | IntegerExpr s _ _ | FloatExpr s _ _
  | StringExpr s _ _ | VariableExpr s _ _
  | UnaryOp s _ _ _ | BinaryOp s _ _ _ _ => s
  end.

Definition getEnd (e : ExprAST) : Z :=
  match e with
  | IdentifierExpr _ e _ | IntegerExpr _ e _ | FloatExpr _ e _
  | StringExpr _ e _ | VariableExpr _ e _
  | UnaryOp _ e _ _ | BinaryOp _ e _ _ _ => e
  end.

(** ** [atoll] *)

(** The C library's [atoll], as [strtoll] in base ten: leading white space
    is skipped, one sign is accepted, the digits that follow are read, and
    the value saturates at the bounds of a 64-bit signed integer. *)
Definition is_space (c : ascii) : bool :=
  let n := nat_of_ascii c in
  (Nat.eqb n 32 || (Nat.leb 9 n && Nat.leb n 13))%bool.

Definition digit_of (c : ascii) : option Z :=
  let n := Z.of_nat (nat_of_ascii c) in
  if (48 <=? n) && (n <=? 57) then Some (n - 48) else None.

Fixpoint skip_spaces (s : string) : string :=
  match s with
  | String c s' => if is_space c then skip_spaces s' else s
  | EmptyString => s
  end.

Fixpoint read_digits (acc : Z) (s : string) : Z :=
  match s with
  | String c s' =>
      match digit_of c with
      | Some d => read_digits (10 * acc + d) s'
      | None => acc
      end
  | EmptyString => acc
  end.

Definition LLONG_MAX : Z := 9223372036854775807.
Definition LLONG_MIN : Z := -9223372036854775808.

Definition saturate (z : Z) : Z := Z.max LLONG_MIN (Z.min LLONG_MAX z).

Definition atoll (s : string) : Z :=
  match skip_spaces s with
  | String "-"%char r => saturate (- read_digits 0 r)
  | String "+"%char r => saturate (read_digits 0 r)
  | r => saturate (read_digits 0 r)
  end.

(** ** The parser *)

(** What a parsing function yields on a given call-depth budget: either the
    budget was exhausted, or the function returned [r] ([None] for [NULL])
    and left the parser in state [p]. *)
Inductive outcome (A : Type) : Type :=
| OutOfFuel
| Ret (r : option A) (p : Parser).
Arguments OutOfFuel {A}.
Arguments Ret {A} r p.

(** [Parser::error]: report at the erring token's column, yield [NULL]. *)
Definition error (p : Parser) (erringToken : Token) (msg : string)
  : outcome ExprAST :=
  Ret None (printMessage p msg (columnStart erringToken)).

Definition parseIdentifierExpr (p : Parser) : outcome ExprAST :=
  let result := IdentifierExpr (currentStart p) (currentEnd p) (currentStr p) in
  Ret (Some result) (consumeToken p).

Definition parseIntegerExpr (p : Parser) : outcome ExprAST :=
  let result :=
    IntegerExpr (currentStart p) (currentEnd p) (atoll (currentStr p)) in
  Ret (Some result) (consumeToken p).

Definition parseFloatExpr (p : Parser) : outcome ExprAST :=
  let result := FloatExpr (currentStart p) (currentEnd p) (currentStr p) in
  Ret (Some result) (consumeToken p).

Definition parseStringExpr (p : Parser) : outcome ExprAST :=
  let result := StringExpr (currentStart p) (currentEnd p) (currentStr p) in
  Ret (Some result) (consumeToken p).

Definition parseVariableExpr (p : Parser) : outcome ExprAST :=
  let result := VariableExpr (currentStart p) (currentEnd p) (currentStr p) in
  Ret (Some result) (consumeToken p).

(** The five mutually recursive parsing functions.  Each call, and each turn
    of the loop of [parseBinaryOpRHS], takes one unit of the budget. *)
Fixpoint parseExpression (fuel : nat) (p : Parser) {struct fuel}
  : outcome ExprAST :=
  match fuel with
  | O => OutOfFuel
  | S fuel =>
      match parseUnaryOpExpr fuel p with
      | OutOfFuel => OutOfFuel
      | Ret None p1 => Ret None p1
      | Ret (Some lhs) p1 => parseBinaryOpRHS fuel 0 lhs p1
      end
  end

with parsePrimaryExpr (fuel : nat) (p : Parser) {struct fuel}
  : outcome ExprAST :=
  match fuel with
  | O => OutOfFuel
  | S fuel =>
      match currentType p with
      | TokenType.IDENTIFIER => parseIdentifierExpr p
      | TokenType.INTEGER => parseIntegerExpr p
      | TokenType.FLOAT => parseFloatExpr p
      | TokenType.STRING => parseStringExpr p
      | TokenType.VARIABLE => parseVariableExpr p
      | TokenType.OPEN_PAREN => parseParenExpr fuel p
      | TokenType.CLOSE_PAREN =>
          error p (currentToken p) "unmatched parentheses"
      | TokenType.UNKNOWN =>
          error p (currentToken p) "invalid character in input"
      | _ => error p (currentToken p) "expected primary expression"
      end
  end

with parseParenExpr (fuel : nat) (p : Parser) {struct fuel}
  : outcome ExprAST :=
  match fuel with
  | O => OutOfFuel
  | S fuel =>
      let openParen := currentToken p in
      let p := consumeToken p in
      match parseExpression fuel p with
      | OutOfFuel => OutOfFuel
      | Ret None p1 => Ret None p1
      | Ret (Some expr) p1 =>
          if decide (currentType p1 = TokenType.CLOSE_PAREN)
          then Ret (Some expr) (consumeToken p1)
          else error p1 openParen "unmatched parentheses"
      end
  end

with parseUnaryOpExpr (fuel : nat) (p : Parser) {struct fuel}
  : outcome ExprAST :=
  match fuel with
  | O => OutOfFuel
  | S fuel =>
      let op := tokenTypeToUnaryOpcode (currentType p) in
      let opStart := currentStart p in
      let opEnd := currentEnd p in
      if decide (op = UnaryOpcode.NONE) then parsePrimaryExpr fuel p
      else
        let p := consumeToken p in
        match parseUnaryOpExpr fuel p with
        | OutOfFuel => OutOfFuel
        | Ret None p1 => Ret None p1
        | Ret (Some operand) p1 =>
            Ret (Some (UnaryOp opStart opEnd op operand)) p1
        end
  end

with parseBinaryOpRHS (fuel : nat) (exprPrecedence : Z) (lhs : ExprAST)
    (p : Parser) {struct fuel} : outcome ExprAST :=
  match fuel with
  | O => OutOfFuel
  | S fuel =>
      let op := tokenTypeToBinaryOpcode (currentType p) in
      let opStart := currentStart p in
      let opEnd := currentEnd p in
      let tokenPrecedence := binaryOpPrecedence op in
      if tokenPrecedence <? exprPrecedence then Ret (Some lhs) p
      else
        let p := consumeToken p in
        match parseUnaryOpExpr fuel p with
        | OutOfFuel => OutOfFuel
        | Ret None p1 => Ret None p1
        | Ret (Some rhs) p1 =>
            let nextOp := tokenTypeToBinaryOpcode (currentType p1) in
            let nextPrecedence := binaryOpPrecedence nextOp in
            if tokenPrecedence <? nextPrecedence then
              match parseBinaryOpRHS fuel (tokenPrecedence + 1) rhs p1 with
              | OutOfFuel => OutOfFuel
              | Ret None p2 => Ret None p2
              | Ret (Some rhs) p2 =>
                  parseBinaryOpRHS fuel exprPrecedence
                    (BinaryOp opStart opEnd op lhs rhs) p2
              end
            else
              parseBinaryOpRHS fuel exprPrecedence
                (BinaryOp opStart opEnd op lhs rhs) p1
        end
  end.

(** The argument loop of [parseCommand]: [args] is the vector built so far. *)
Fixpoint parseCommand_args (fuel : nat) (args : list ExprAST) (p : Parser)
  {struct fuel} : outcome (list ExprAST) :=
  match fuel with
  | O => OutOfFuel
  | S fuel =>
      if decide (currentType p = TokenType.EOFT) then Ret (Some args) p
      else
        match parseUnaryOpExpr fuel p with
        | OutOfFuel => OutOfFuel
        | Ret (Some arg) p1 => parseCommand_args fuel (args ++ [arg]) p1
        | Ret None p1 => parseCommand_args fuel args (consumeToken p1)
        end
  end.

Definition parseCommand (fuel : nat) (p : Parser) : outcome CommandAST :=
  let p := consumeToken p in
  if decide (currentType p = TokenType.IDENTIFIER) then
    let command := currentStr p in
    let commandStart := currentStart p in
    let commandEnd := currentEnd p in
    let p := consumeToken p in
    match parseCommand_args fuel [] p with
    | OutOfFuel => OutOfFuel
    | Ret None p1 => Ret None p1
    | Ret (Some args) p1 =>
        Ret (Some (mkCommandAST command commandStart commandEnd args)) p1
    end
  else
    Ret None (printMessage p "expected command" (currentStart p)).

(** A budget that always suffices on a token sequence that ends in an
    end-of-input token. *)
Definition budget (p : Parser) : nat := (4 * length (scanner p) + 8)%nat.

(** * The vocabulary of the properties *)

(** ** Budgets, token sequences and what a call leaves behind *)

(** A result obtained on the budget [n] is obtained on every larger one. *)
Definition stable {A} (f : nat -> Parser -> outcome A) (n : nat) : Prop :=
  forall m p r p', f n p = Ret r p' -> (n <= m)%nat -> f m p = Ret r p'.

(** The token sequence is not empty and its last token is end-of-input. *)
Fixpoint ends_in_EOFT (ts : list Token) : bool :=
  match ts with
  | [] => false
  | [t] => bool_decide (type t = TokenType.EOFT)
  | _ :: ts' => ends_in_EOFT ts'
  end.

(** How many tokens the scanner has yet to deliver. *)
Definition remaining (p : Parser) : nat := length (scanner p).

(** What a returning call leaves behind: the stream still ends in
    end-of-input, nothing was put back, and a call that yields a tree has
    consumed at least one token. *)
Definition advances (p : Parser) (r : option ExprAST) (p' : Parser) : Prop :=
  ends_in_EOFT (pending p') = true /\
  (remaining p' <= remaining p)%nat /\
  (r <> None -> (remaining p' < remaining p)%nat).

(** On a stream that ends in end-of-input, [f] returns, and advances, on
    every budget of at least four units per remaining token and [c] more. *)
Definition returns_within (c : nat) (f : nat -> Parser -> outcome ExprAST)
    (n : nat) : Prop :=
  forall p, ends_in_EOFT (pending p) = true ->
    (4 * remaining p + c <= n)%nat ->
    exists r p', f n p = Ret r p' /\ advances p r p'.

(** A call that yields a tree reports nothing; a call that fails reports
    exactly one message. *)
Definition reports {A} (p : Parser) (r : option A) (p' : Parser) : Prop :=
  match r with
  | Some _ => errorContext p' = errorContext p
  | None =>
      exists msg col, errorContext p' = (errorContext p ++ [(msg, col)])%list
  end.

(** ** The stated precedence groups *)

(** The grouping as the specification words it (section 4.1), to be compared
    with the table of the source: the groups from the tightest to the
    loosest, the opcodes of each, and the precedence stated for each. *)
Inductive Group : Set :=
| Multiplicative | Additive | Shift | Relational | Equality
| BitwiseAnd | BitwiseXor | BitwiseOr | LogicalAnd | LogicalOr.

Definition group_of (op : BinaryOpcode.t) : option Group :=
  match op with
  | BinaryOpcode.MULTIPLY | BinaryOpcode.DIVIDE | BinaryOpcode.MOD =>
      Some Multiplicative
  | BinaryOpcode.ADD | BinaryOpcode.SUBTRACT => Some Additive
  | BinaryOpcode.LEFT_SHIFT | BinaryOpcode.RIGHT_SHIFT => Some Shift
  | BinaryOpcode.GREATER_THAN | BinaryOpcode.LESS_THAN
  | BinaryOpcode.GREATER_THAN_OR_EQUALS | BinaryOpcode.LESS_THAN_OR_EQUALS =>
      Some Relational
  | BinaryOpcode.EQUALS | BinaryOpcode.NOT_EQUALS => Some Equality
  | BinaryOpcode.BIT_AND => Some BitwiseAnd
  | BinaryOpcode.BIT_XOR => Some BitwiseXor
  | BinaryOpcode.BIT_OR => Some BitwiseOr
  | BinaryOpcode.LOGIC_AND => Some LogicalAnd
  | BinaryOpcode.LOGIC_OR => Some LogicalOr
  | BinaryOpcode.NONE => None
  end.

Definition group_precedence (g : Group) : Z :=
  match g with
  | Multiplicative => 700 | Additive => 600 | Shift => 500
  | Relational => 400 | Equality => 300
  | BitwiseAnd => 266 | BitwiseXor => 233 | BitwiseOr => 200
  | LogicalAnd => 150 | LogicalOr => 100
  end.

(** Position in the listed order, the loosest group first; [NONE], which is
    in no group, comes below them all. *)
Definition group_rank (op : BinaryOpcode.t) : nat :=
  match group_of op with
  | Some Multiplicative => 10 | Some Additive => 9 | Some Shift => 8
  | Some Relational => 7 | Some Equality => 6
  | Some BitwiseAnd => 5 | Some BitwiseXor => 4 | Some BitwiseOr => 3
  | Some LogicalAnd => 2 | Some LogicalOr => 1
  | None => 0
  end%nat.

(** ** Sample input lines *)

(** The tokens of a line, as the scanner delivers them: each with its kind,
    its text and the inclusive columns it occupies, the end-of-input token
    last. *)
Module Samples.
Import TokenType.

(** [2 + 3 * 4] *)
Definition two_plus_three_times_four : list Token :=
  [mkToken INTEGER "2" 0 0; mkToken PLUS "+" 2 2; mkToken INTEGER "3" 4 4;
   mkToken STAR "*" 6 6; mkToken INTEGER "4" 8 8; mkToken EOFT "" 9 9].

(** [1 - 2 - 3] *)
Definition one_minus_two_minus_three : list Token :=
  [mkToken INTEGER "1" 0 0; mkToken MINUS "-" 2 2; mkToken INTEGER "2" 4 4;
   mkToken MINUS "-" 6 6; mkToken INTEGER "3" 8 8; mkToken EOFT "" 9 9].

(** [1 + 2] *)
Definition one_plus_two : list Token :=
  [mkToken INTEGER "1" 0 0; mkToken PLUS "+" 2 2; mkToken INTEGER "2" 4 4;
   mkToken EOFT "" 5 5].

(** [-(1 + 2)] *)
Definition minus_paren_one_plus_two : list Token :=
  [mkToken MINUS "-" 0 0; mkToken OPEN_PAREN "(" 1 1;
   mkToken INTEGER "1" 2 2; mkToken PLUS "+" 4 4; mkToken INTEGER "2" 6 6;
   mkToken CLOSE_PAREN ")" 7 7; mkToken EOFT "" 8 8].

(** [- ! 7] *)
Definition minus_not_seven : list Token :=
  [mkToken MINUS "-" 0 0; mkToken EXCLAMATION "!" 2 2;
   mkToken INTEGER "7" 4 4; mkToken EOFT "" 5 5].

(** [  (1 + 2], the opening delimiter in column 2, no closing one *)
Definition open_one_plus_two : list Token :=
  [mkToken OPEN_PAREN "(" 2 2; mkToken INTEGER "1" 3 3;
   mkToken PLUS "+" 5 5; mkToken INTEGER "2" 7 7; mkToken EOFT "" 8 8].

(** [(1 + 2)] *)
Definition paren_one_plus_two : list Token :=
  [mkToken OPEN_PAREN "(" 0 0; mkToken INTEGER "1" 1 1;
   mkToken PLUS "+" 3 3; mkToken INTEGER "2" 5 5;
   mkToken CLOSE_PAREN ")" 6 6; mkToken EOFT "" 7 7].

(** [cmd 1 @ 2], where the scanner has no token kind for [@] *)
Definition cmd_one_at_two : list Token :=
  [mkToken IDENTIFIER "cmd" 0 2; mkToken INTEGER "1" 4 4;
   mkToken UNKNOWN "@" 6 6; mkToken INTEGER "2" 8 8; mkToken EOFT "" 9 9].

(** [cmd 1 + 2] *)
Definition cmd_one_plus_two : list Token :=
  [mkToken IDENTIFIER "cmd" 0 2; mkToken INTEGER "1" 4 4;
   mkToken PLUS "+" 6 6; mkToken INTEGER "2" 8 8; mkToken EOFT "" 9 9].

(** [cmd 1 * 2] *)
Definition cmd_one_times_two : list Token :=
  [mkToken IDENTIFIER "cmd" 0 2; mkToken INTEGER "1" 4 4;
   mkToken STAR "*" 6 6; mkToken INTEGER "2" 8 8; mkToken EOFT "" 9 9].

(** [cmd -], an operator with nothing after it *)
Definition cmd_minus : list Token :=
  [mkToken IDENTIFIER "cmd" 0 2; mkToken MINUS "-" 4 4;
   mkToken EOFT "" 5 5].
(** Single tokens, each one column wide, and parsers in front of them. *)
Definition token_at (k : TokenType.t) (s : string) (c : Z) : Token :=
  mkToken k s c c.

Definition eof_at (c : Z) : Token := token_at EOFT "" c.

(** A parser whose current token is [t], the end-of-input token after it. *)
Definition facing (t : Token) : Parser :=
  mkParser t [eof_at (columnEnd t + 1)] [].

(** A parser at the end-of-input token in column [c]. *)
Definition at_end (c : Z) : Parser := mkParser (eof_at c) [] [].

(** [(5] and [(5)] *)
Definition open_five : Parser :=
  mkParser (token_at OPEN_PAREN "(" 0) [token_at INTEGER "5" 1; eof_at 2] [].

Definition open_five_close : Parser :=
  mkParser (token_at OPEN_PAREN "(" 0)
    [token_at INTEGER "5" 1; token_at CLOSE_PAREN ")" 2; eof_at 3] [].

(** [@ 2], before and after the unrecognized token has been reported *)
Definition at_two : Parser :=
  mkParser (token_at UNKNOWN "@" 0) [token_at INTEGER "2" 2; eof_at 3] [].

Definition at_two_reported : Parser :=
  mkParser (token_at UNKNOWN "@" 0) [token_at INTEGER "2" 2; eof_at 3]
    [("invalid character in input", 0)].

(** [2 * 3 + 4] and [2 + 3 + 4], token by token *)
Definition first_2 : Token := token_at INTEGER "2" 0.
Definition times_at_2 : Token := token_at STAR "*" 2.
Definition plus_at_2 : Token := token_at PLUS "+" 2.
Definition then_3 : Token := token_at INTEGER "3" 4.
Definition plus_at_6 : Token := token_at PLUS "+" 6.
Definition then_4 : Token := token_at INTEGER "4" 8.
End Samples.

(** A parser that has not been primed: its scanner holds the whole line and
    its current token [t0] is whatever it was before. *)
Definition unprimed (t0 : Token) (ts : list Token) : Parser :=
  mkParser t0 ts [].

(** The same parser once primed, its current token the first of the line:
    where [parseExpression] starts.  ([parseCommand] primes by itself.) *)
Definition primed (t0 : Token) (ts : list Token) : Parser :=
  consumeToken (unprimed t0 ts).

(** ** Shapes of input and of trees *)

(** The token kinds that the [switch] of [parsePrimaryExpr] leaves to its
    [default] label. *)
Definition unexpected_kind (k : TokenType.t) : bool :=
  match k with
  | TokenType.IDENTIFIER | TokenType.INTEGER | TokenType.FLOAT
  | TokenType.STRING | TokenType.VARIABLE
  | TokenType.OPEN_PAREN | TokenType.CLOSE_PAREN | TokenType.UNKNOWN => false
  | _ => true
  end.

(** The parser [p] with the tokens [ts] still to come before what [p]
    sees. *)
Definition put_before (ts : list Token) (p : Parser) : Parser :=
  match ts with
  | [] => p
  | t :: ts' => mkParser t (ts' ++ pending p) (errorContext p)
  end.

(** The unary nodes of the operator tokens [ops], the first outermost,
    around the operand [e]. *)
Definition unary_nest (ops : list Token) (e : ExprAST) : ExprAST :=
  fold_right
    (fun t operand =>
       UnaryOp (columnStart t) (columnEnd t)
         (tokenTypeToUnaryOpcode (type t)) operand)
    e ops.

(** The token maps to a unary opcode. *)
Definition is_unary_operator (t : Token) : Prop :=
  tokenTypeToUnaryOpcode (type t) <> UnaryOpcode.NONE.

(** The node [parseIntegerExpr] builds from an integer token. *)
Definition integer_of (t : Token) : ExprAST :=
  IntegerExpr (columnStart t) (columnEnd t) (atoll (text t)).
#[global] Arguments atoll : simpl never.
#[global] Arguments integer_of : simpl never.

(** [every_node P e]: [P] holds of [e] and of every node below it. *)
Fixpoint every_node (P : ExprAST -> Prop) (e : ExprAST) : Prop :=
  P e /\
  match e with
  | UnaryOp _ _ _ operand => every_node P operand
  | BinaryOp _ _ _ lhs rhs => every_node P lhs /\ every_node P rhs
  | _ => True
  end.

(** The columns of the text a tree was parsed from reach at least from the
    leftmost to the rightmost column of any node in it. *)
Fixpoint text_start (e : ExprAST) : Z :=
  match e with
  | UnaryOp s _ _ operand => Z.min s (text_start operand)
  | BinaryOp s _ _ lhs rhs => Z.min s (Z.min (text_start lhs) (text_start rhs))
  | _ => getStart e
  end.

Fixpoint text_end (e : ExprAST) : Z :=
  match e with
  | UnaryOp _ e' _ operand => Z.max e' (text_end operand)
  | BinaryOp _ e' _ lhs rhs => Z.max e' (Z.max (text_end lhs) (text_end rhs))
  | _ => getEnd e
  end.

(** The span of the node covers the text the node was parsed from. *)
Definition covers_text (e : ExprAST) : Prop :=
  getStart e <= text_start e /\ text_end e <= getEnd e.

(** The node [e] was built from the token [tok]: it has the token's columns
    and, for a leaf, the token's kind and text, for an operator node, the
    opcode the token maps to. *)
Definition built_from (tok : Token) (e : ExprAST) : Prop :=
  getStart e = columnStart tok /\ getEnd e = columnEnd tok /\
  match e with
  | IdentifierExpr _ _ name =>
      type tok = TokenType.IDENTIFIER /\ name = text tok
  | IntegerExpr _ _ value =>
      type tok = TokenType.INTEGER /\ value = atoll (text tok)
  | FloatExpr _ _ lexeme => type tok = TokenType.FLOAT /\ lexeme = text tok
  | StringExpr _ _ str => type tok = TokenType.STRING /\ str = text tok
  | VariableExpr _ _ name => type tok = TokenType.VARIABLE /\ name = text tok
  | UnaryOp _ _ op _ =>
      op <> UnaryOpcode.NONE /\ tokenTypeToUnaryOpcode (type tok) = op
  | BinaryOp _ _ op _ _ =>
      op <> BinaryOpcode.NONE /\ tokenTypeToBinaryOpcode (type tok) = op
  end.

(** Every node of [e] has the span of one of the tokens [ts]. *)
Definition spans_tokens (ts : list Token) (e : ExprAST) : Prop :=
  every_node (fun node => exists tok, In tok ts /\ built_from tok node) e.

(** A call in front of tokens among [ts] leaves the parser in front of
    tokens among [ts], and a tree it yields has its spans from [ts]. *)
Definition keeps_spans (ts : list Token) (p : Parser) (r : option ExprAST)
    (p' : Parser) : Prop :=
  incl (pending p') ts /\ forall e, r = Some e -> spans_tokens ts e.

(** A line of integer literals joined by binary operators: after the first
    literal, pairs of an operator token and an integer token. *)
Fixpoint tail_tokens (tl : list (Token * Token)) : list Token :=
  match tl with
  | [] => []
  | (o, a) :: tl' => o :: a :: tail_tokens tl'
  end.

(** Each pair is a binary operator token and an integer token. *)
Definition well_formed_tail (tl : list (Token * Token)) : Prop :=
  Forall (fun oa =>
            tokenTypeToBinaryOpcode (type (fst oa)) <> BinaryOpcode.NONE /\
            type (snd oa) = TokenType.INTEGER) tl.

(** What a tree of binary nodes reads as from left to right: its operands
    (the subtrees that are not binary nodes) and the operators between
    them. *)
Inductive atom : Type :=
| Operand (e : ExprAST)
| Operator (start end_ : Z) (op : BinaryOpcode.t).

Fixpoint inorder (e : ExprAST) : list atom :=
  match e with
  | BinaryOp s e' op lhs rhs => inorder lhs ++ Operator s e' op :: inorder rhs
  | _ => [Operand e]
  end.

(** What an operator token and a chain read as. *)
Definition operator_of (o : Token) : atom :=
  Operator (columnStart o) (columnEnd o) (tokenTypeToBinaryOpcode (type o)).

Fixpoint tail_atoms (tl : list (Token * Token)) : list atom :=
  match tl with
  | [] => []
  | (o, a) :: tl' => operator_of o :: Operand (integer_of a) :: tail_atoms tl'
  end.

(** [e] is not a binary node of a precedence below [q]. *)
Definition binds_at_least (q : Z) (e : ExprAST) : bool :=
  match e with
  | BinaryOp _ _ op _ _ => q <=? binaryOpPrecedence op
  | _ => true
  end.

(** The grouping of a tree follows precedence and left associativity: under
    a binary node, a binary node on the left binds at least as tightly and a
    binary node on the right binds strictly tighter. *)
Fixpoint well_grouped (e : ExprAST) : bool :=
  match e with
  | BinaryOp _ _ op lhs rhs =>
      binds_at_least (binaryOpPrecedence op) lhs &&
      binds_at_least (binaryOpPrecedence op + 1) rhs &&
      well_grouped lhs && well_grouped rhs
  | _ => true
  end.

(** The left-nested tree of a chain of operators. *)
Definition left_nested (lhs : ExprAST) (tl : list (Token * Token)) : ExprAST :=
  fold_left
    (fun acc oa =>
       BinaryOp (columnStart (fst oa)) (columnEnd (fst oa))
         (tokenTypeToBinaryOpcode (type (fst oa))) acc (integer_of (snd oa)))
    tl lhs.

(** A chain whose operators all have the precedence [q]. *)
Definition same_precedence (q : Z) (tl : list (Token * Token)) : Prop :=
  Forall (fun oa =>
            binaryOpPrecedence (tokenTypeToBinaryOpcode (type (fst oa))) = q /\
            type (snd oa) = TokenType.INTEGER) tl.

(** Every operator of the sequence has at least the precedence [q]. *)
Definition operators_at_least (q : Z) (l : list atom) : Prop :=
  Forall (fun x =>
            match x with
            | Operator _ _ op => q <= binaryOpPrecedence op
            | Operand _ => True
            end) l.

(** The binary node of the operator token [o] over two operands. *)
Definition binary_of (o : Token) (lhs rhs : ExprAST) : ExprAST :=
  BinaryOp (columnStart o) (columnEnd o) (tokenTypeToBinaryOpcode (type o))
    lhs rhs.

(** ** Consumption, order and shape of what is parsed *)

(** The tokens in front of the parser after a call are a suffix of those in
    front of it before. *)
Definition moves_forward (p p' : Parser) : Prop :=
  exists consumed, pending p = (consumed ++ pending p')%list.

(** The columns of a token. *)
Definition token_span (t : Token) : Z * Z := (columnStart t, columnEnd t).

(** The spans of the nodes of a tree in the order of the source: a unary
    node before its operand, a binary node between its operands. *)
Fixpoint yield (e : ExprAST) : list (Z * Z) :=
  match e with
  | UnaryOp s e' _ operand => (s, e') :: yield operand
  | BinaryOp s e' _ lhs rhs => yield lhs ++ (s, e') :: yield rhs
  | _ => [(getStart e, getEnd e)]
  end.

Fixpoint node_count (e : ExprAST) : nat :=
  match e with
  | UnaryOp _ _ _ operand => S (node_count operand)
  | BinaryOp _ _ _ lhs rhs => S (node_count lhs + node_count rhs)
  | _ => 1
  end.

(** A grouping delimiter: consumed by the parser, absent from the tree. *)
Definition is_paren (t : Token) : bool :=
  match type t with
  | TokenType.OPEN_PAREN | TokenType.CLOSE_PAREN => true
  | _ => false
  end.

(** The tokens that leave a node in the tree. *)
Definition node_tokens (ts : list Token) : list Token :=
  List.filter (fun t => negb (is_paren t)) ts.

(** The call consumed the tokens [consumed] and its tree reads as [before]
    followed by the spans of those of them that are no delimiters. *)
Definition reads_in_order (p : Parser) (before : list (Z * Z)) (t : ExprAST)
    (p' : Parser) : Prop :=
  exists consumed,
    pending p = (consumed ++ pending p')%list /\
    yield t = (before ++ map token_span (node_tokens consumed))%list.

(** No opening delimiter among the tokens. *)
Definition paren_free (ts : list Token) : Prop :=
  Forall (fun t => type t <> TokenType.OPEN_PAREN) ts.

(** No binary node anywhere in the tree. *)
Fixpoint binary_free (e : ExprAST) : bool :=
  match e with
  | BinaryOp _ _ _ _ _ => false
  | UnaryOp _ _ _ operand => binary_free operand
  | _ => true
  end.

(** No binary node anywhere under a unary node. *)
Fixpoint unary_binds_tighter (e : ExprAST) : bool :=
  match e with
  | UnaryOp _ _ _ operand => binary_free operand
  | BinaryOp _ _ _ lhs rhs => unary_binds_tighter lhs && unary_binds_tighter rhs
  | _ => true
  end.

(** The root of the tree is a binary node of precedence [q] at least. *)
Definition root_at_least (q : Z) (e : ExprAST) : Prop :=
  match e with
  | BinaryOp _ _ op _ _ =>
      op <> BinaryOpcode.NONE /\ q <= binaryOpPrecedence op
  | _ => False
  end.

(** [-1 + 2], as the scanner delivers it *)
Definition sample_minus_one_plus_two : list Token :=
  [Samples.token_at TokenType.MINUS "-" 0;
   Samples.token_at TokenType.INTEGER "1" 1;
   Samples.token_at TokenType.PLUS "+" 3;
   Samples.token_at TokenType.INTEGER "2" 5;
   Samples.eof_at 6].

(** * The input stack (src/input.c)

    Lines are read from the terminal or, after [redirect_input], from the
    file opened last; a file that is exhausted is closed and reading goes on
    below it.  The C library is embedded with it: an open [FILE] is the
    text not yet read from it, [fopen] is a partial function from paths,
    [realloc] an oracle that may refuse a size, [readline] delivers the lines
    still to be typed. *)

Definition MAX_INPUT_STACK_SIZE : nat := 128.

(** [size_t] arithmetic is modulo [2^64], and a pointer takes eight bytes. *)
Definition SIZE_MODULUS : Z := 2 ^ 64.
Definition sizeof_pointer : Z := 8.

(** An open [FILE]: the characters that remain to be read from it. *)
Record FILE : Set := mkFILE { unread : string }.

(** What is written to [stderr]: a formatted message or a [perror] line. *)
Inductive report : Set :=
| Message (s : string)
| Perror (tag : string).

(** The static variables of input.c and the world they act on.  The list
    [input_stack] holds the [input_stack_size] files of the array, its head
    being [input_stack[input_stack_size - 1]], the file read from. *)
Record Input : Set := mkInput {
  input_stack : list FILE;
  input_stack_capacity : Z;
  terminal : list string;
  history : list string;
  stderr : list report;
}.

Definition input_stack_size (st : Input) : nat := length (input_stack st).

(** The static initialisers: no array, size and capacity zero. *)
Definition startup (typed : list string) : Input :=
  mkInput [] 0 typed [] [].

(** [init_input].  The array it allocates has indeterminate contents: the
    embedding is of a call made while the stack is empty, as at startup. *)
Definition init_input (st : Input) : Input :=
  mkInput (input_stack st) 4 (terminal st) (history st) (stderr st).

Definition newline : ascii := "010"%char.
Definition NUL : ascii := "000"%char.

(** [getline]: the characters up to and including the first newline, or up
    to the end of the file, and the text that remains; [None] (for -1) when
    nothing is left. *)
Fixpoint getline (s : string) : option (string * string) :=
  match s with
  | EmptyString => None
  | String c s' =>
      if Ascii.eqb c newline then Some (String c EmptyString, s')
      else
        match getline s' with
        | Some (line, rest) => Some (String c line, rest)
        | None => Some (String c EmptyString, EmptyString)
        end
  end.

(** The C string that [line] is once its first newline, found by [strchr],
    has been overwritten with a terminator: it ends before the first newline
    or NUL. *)
Fixpoint chop (line : string) : string :=
  match line with
  | EmptyString => EmptyString
  | String c line' =>
      if Ascii.eqb c newline || Ascii.eqb c NUL then EmptyString
      else String c (chop line')
  end.

Definition with_stack (stack : list FILE) (st : Input) : Input :=
  mkInput stack (input_stack_capacity st) (terminal st) (history st)
    (stderr st).

(** The [retry] loop of [read_input_line], on the files [stack] still on the
    stack: at the bottom [readline] is asked and a line that is not empty is
    added to the history; a file at its end is closed and popped. *)
Fixpoint read_input_line_retry (stack : list FILE) (st : Input)
  : option string * Input :=
  match stack with
  | [] =>
      match terminal st with
      | [] => (None, with_stack [] st)
      | line :: typed =>
          (Some line,
           mkInput [] (input_stack_capacity st) typed
             (match line with
              | EmptyString => history st
              | _ => history st ++ [line]
              end)
             (stderr st))
      end
  | top_file :: below =>
      match getline (unread top_file) with
      | None => read_input_line_retry below st
      | Some (line, rest) =>
          (Some (chop line), with_stack (mkFILE rest :: below) st)
      end
  end.

Definition read_input_line (prompt : string) (st : Input)
  : option string * Input :=
  read_input_line_retry (input_stack st) st.

(** The loop of [redirect_input] that doubles the capacity until the new
    file fits: [None] when it has not ended within [fuel] turns,
    [Some None] when [realloc] failed, else the capacity reached. *)
Fixpoint grow (fuel : nat) (realloc_ok : Z -> bool) (size : nat)
    (capacity : Z) : option (option Z) :=
  match fuel with
  | O => None
  | S fuel =>
      if Z.of_nat size >=? capacity then
        let capacity := (capacity * 2) mod SIZE_MODULUS in
        if realloc_ok ((capacity * sizeof_pointer) mod SIZE_MODULUS)
        then grow fuel realloc_ok size capacity
        else Some None
      else Some (Some capacity)
  end.

(** How a call of [redirect_input] ends: it returns a code, or it leaves
    the program through [exit], or its loop is still turning. *)
Inductive redirected : Set :=
| Returned (code : Z) (st : Input)
| Exited (status : Z) (st : Input)
| Turning.

Definition complain (r : report) (st : Input) : Input :=
  mkInput (input_stack st) (input_stack_capacity st) (terminal st)
    (history st) (stderr st ++ [r]).

Definition redirect_input (fuel : nat) (fopen : string -> option FILE)
    (realloc_ok : Z -> bool) (path : string) (st : Input) : redirected :=
  if Nat.eqb (input_stack_size st) MAX_INPUT_STACK_SIZE then
    Returned 1
      (complain
         (Message ("Input redirection stack too deep"
                   ++ String newline EmptyString)) st)
  else
    match fopen path with
    | None =>
        Returned 1
          (complain
             (Message ("Could not open file `" ++ path ++ "'"
                       ++ String newline EmptyString)) st)
    | Some file =>
        match grow fuel realloc_ok (input_stack_size st)
                (input_stack_capacity st) with
        | None => Turning
        | Some None => Exited 1 (complain (Perror "realloc") st)
        | Some (Some capacity) =>
            Returned 0
              (mkInput (file :: input_stack st) capacity (terminal st)
                 (history st) (stderr st))
        end
    end.

(** ** Vocabulary for the input stack *)

(** The states the program can be in: [init_input] at startup, then any
    calls of [redirect_input] that return and of [read_input_line]. *)
Inductive reachable : Input -> Prop :=
| reach_init typed : reachable (init_input (startup typed))
| reach_redirect st fuel fopen realloc_ok path code st' :
    reachable st ->
    redirect_input fuel fopen realloc_ok path st = Returned code st' ->
    reachable st'
| reach_read st prompt r st' :
    reachable st ->
    read_input_line prompt st = (r, st') ->
    reachable st'.

(** The capacities the array can have: 4, 8, ..., 128. *)
Definition capacities : list Z := [4; 8; 16; 32; 64; 128].

(** The bounds of the stack: at most 128 files, a capacity of the series
    and not below the number of files. *)
Definition within_bounds (st : Input) : Prop :=
  (input_stack_size st <= MAX_INPUT_STACK_SIZE)%nat /\
  Z.of_nat (input_stack_size st) <= input_stack_capacity st /\
  In (input_stack_capacity st) capacities.

(** A file of whole lines: each line followed by a newline. *)
Definition file_of_lines (lines : list string) : FILE :=
  mkFILE (fold_right (fun l s => (l ++ String newline s)%string)
            EmptyString lines).

(** The line has no newline and no NUL in it. *)
Fixpoint plain (line : string) : bool :=
  match line with
  | EmptyString => true
  | String c line' =>
      negb (Ascii.eqb c newline || Ascii.eqb c NUL) && plain line'
  end.

(** [read_input_line] called once for each of [prompts], the lines it
    returned and the state at the end. *)
Fixpoint read_lines (prompts : list string) (st : Input)
  : list (option string) * Input :=
  match prompts with
  | [] => ([], st)
  | prompt :: prompts' =>
      let '(r, st1) := read_input_line prompt st in
      let '(rs, st2) := read_lines prompts' st1 in
      (r :: rs, st2)
  end.

(** A file with nothing left to read. *)
Definition exhausted (f : FILE) : Prop := unread f = EmptyString.

(** A file system with the one file [script], of two lines. *)
Definition sample_fopen (path : string) : option FILE :=
  if String.eqb path "script" then
    Some (file_of_lines ["first"%string; "second"%string])
  else None.

(** The state after [init_input] and [redirect_input "script"]. *)
Definition sample_redirected : Input :=
  mkInput [file_of_lines ["first"%string; "second"%string]] 4
    ["typed"%string] [] [].

(** * The machine code of an instruction (src/llvm_assembler.cpp)

    [assemble_instruction] hands the text to LLVM and copies the text
    section of the object file LLVM emits into the caller's buffer.  LLVM is
    not embedded: the status of its parser run and the sections of the
    object file it emits are given, each section with what its methods
    return. *)

(** A section of the object file, as [getTextSection] sees it: the
    [error_code] (zero for success) and the value of [isText] and of
    [getContents], and the [error_code] of moving the iterator past it. *)
Record Section : Set := mkSection {
  isText_error : Z;
  isText_value : bool;
  getContents_error : Z;
  getContents_value : list Byte.byte;
  increment_error : Z;
}.

(** [getTextSection]: the error code it returns and what [result] holds
    afterwards ([getContents] is taken to leave it alone when it fails). *)
Fixpoint getTextSection (sections : list Section) (result : list Byte.byte)
  : Z * list Byte.byte :=
  match sections with
  | [] => (0, result)
  | it :: rest =>
      if negb (isText_error it =? 0) then (isText_error it, result)
      else if isText_value it then
        (getContents_error it,
         if getContents_error it =? 0 then getContents_value it else result)
      else if negb (increment_error it =? 0) then (increment_error it, result)
      else getTextSection rest result
  end.

(** A [size_t] returned as [ssize_t]. *)
Definition to_ssize_t (z : Z) : Z := if z <? 2 ^ 63 then z else z - 2 ^ 64.

(** How the part of [assemble_instruction] after the parser run ends: it
    returns a count with the buffer and its recorded size as they are then,
    or the assertion on [realloc] fails. *)
Inductive assembled : Set :=
| Assembled (count : Z) (out : list Byte.byte) (out_size : Z)
| AssertionFailed.

(** [assemble_instruction] from [parser->Run] on: [run] is what the run
    returned, [sections] the sections of the object file, [out] the bytes
    of the caller's buffer and [out_size] the size the caller recorded for
    it. *)
Definition assemble_instruction (run : Z) (sections : list Section)
    (realloc_ok : Z -> bool) (out : list Byte.byte) (out_size : Z)
  : assembled :=
  if run =? 0 then
    let '(err, textSection) := getTextSection sections [] in
    if err =? 0 then
      let size := Z.of_nat (length textSection) in
      if size >? out_size then
        if realloc_ok size then Assembled (to_ssize_t size) textSection size
        else AssertionFailed
      else
        Assembled (to_ssize_t size)
          (textSection ++ skipn (length textSection) out) out_size
    else Assembled (-1) out out_size
  else Assembled (-1) out out_size.

(** A section that is not text and raises no error. *)
Definition passed_over (s : Section) : Prop :=
  isText_error s = 0 /\ isText_value s = false /\ increment_error s = 0.

(** An object file of three sections, the second its text. *)
Definition sample_sections : list Section :=
  [mkSection 0 false 0 [] 0;
   mkSection 0 true 0 [Byte.x90; Byte.xc3] 0;
   mkSection 0 true 0 [Byte.x00] 0].

(** ** Nodes and the tokens they were built from *)

(** The nodes of a tree in the order of the source: a unary node before its
    operand, a binary node between its operands. *)
Fixpoint nodes (e : ExprAST) : list ExprAST :=
  match e with
  | UnaryOp _ _ _ operand => e :: nodes operand
  | BinaryOp _ _ _ lhs rhs => (nodes lhs ++ e :: nodes rhs)%list
  | _ => [e]
  end.

(** The tree [e] was built from the tokens [consumed], node for token: its
    nodes, in the order of the source, are built one each from the tokens
    of [consumed] that are no delimiters, in their order. *)
Definition built_from_tokens (consumed : list Token) (e : ExprAST) : Prop :=
  Forall2 built_from (node_tokens consumed) (nodes e).

(** The call consumed the tokens [consumed], and the nodes of its tree are
    the nodes [before] followed by one node for each token of [consumed]
    that is no delimiter, built from that token. *)
Definition built_in_order (p : Parser) (before : list ExprAST) (t : ExprAST)
    (p' : Parser) : Prop :=
  exists consumed built,
    pending p = (consumed ++ pending p')%list /\
    nodes t = (before ++ built)%list /\
    Forall2 built_from (node_tokens consumed) built.

(** The blocks of tokens lie in [ts] one after the other, without
    overlapping. *)
Fixpoint blocks_in (ts : list Token) (blocks : list (list Token)) : Prop :=
  match blocks with
  | [] => True
  | block :: blocks' =>
      exists skipped rest,
        ts = (skipped ++ block ++ rest)%list /\ blocks_in rest blocks'
  end.

(** Each argument was built from its own block of tokens. *)
Definition arguments_built_from (blocks : list (list Token))
    (args : list ExprAST) : Prop :=
  Forall2 built_from_tokens blocks args.

(** The spans ascend: each one ends before every later one starts. *)
Fixpoint ascending (spans : list (Z * Z)) : bool :=
  match spans with
  | [] => true
  | a :: rest => forallb (fun b => snd a <? fst b) rest && ascending rest
  end.

(** The tokens stand in the line from left to right, none overlapping
    another. *)
Definition columns_ascend (ts : list Token) : bool :=
  ascending (map token_span ts).

(** The span of every operator node lies apart from its operands: after
    every node of a left operand and before every node of a right operand
    or of a unary operand. *)
Fixpoint operators_apart (e : ExprAST) : Prop :=
  match e with
  | UnaryOp _ e' _ operand =>
      Forall (fun span => e' < fst span) (yield operand) /\
      operators_apart operand
  | BinaryOp s e' _ lhs rhs =>
      Forall (fun span => snd span < s) (yield lhs) /\
      Forall (fun span => e' < fst span) (yield rhs) /\
      operators_apart lhs /\ operators_apart rhs
  | _ => True
  end.

(** * Properties *)

(** ** The operator tables in closed form *)

Lemma BinaryOpcode_all_complete (o : BinaryOpcode.t) : In o BinaryOpcode.all.
Proof. destruct o; simpl; tauto. Qed.

Lemma tokenTypeToUnaryOpcode_eq (k : TokenType.t) :
  tokenTypeToUnaryOpcode k =
  match k with
  | TokenType.PLUS => UnaryOpcode.PLUS
  | TokenType.MINUS => UnaryOpcode.MINUS
  | TokenType.EXCLAMATION => UnaryOpcode.LOGIC_NEGATE
  | TokenType.TILDE => UnaryOpcode.BIT_NEGATE
  | _ => UnaryOpcode.NONE
  end.
Proof. destruct k; vm_compute; reflexivity. Qed.

Lemma tokenTypeToBinaryOpcode_eq (k : TokenType.t) :
  tokenTypeToBinaryOpcode k =
  match k with
  | TokenType.PLUS => BinaryOpcode.ADD
  | TokenType.MINUS => BinaryOpcode.SUBTRACT
  | TokenType.STAR => BinaryOpcode.MULTIPLY
  | TokenType.SLASH => BinaryOpcode.DIVIDE
  | TokenType.PERCENT => BinaryOpcode.MOD
  | TokenType.DOUBLE_EQUAL => BinaryOpcode.EQUALS
  | TokenType.EXCLAMATION_EQUAL => BinaryOpcode.NOT_EQUALS
  | TokenType.GREATER => BinaryOpcode.GREATER_THAN
  | TokenType.LESS => BinaryOpcode.LESS_THAN
  | TokenType.GREATER_EQUAL => BinaryOpcode.GREATER_THAN_OR_EQUALS
  | TokenType.LESS_EQUAL => BinaryOpcode.LESS_THAN_OR_EQUALS
  | TokenType.DOUBLE_AMPERSAND => BinaryOpcode.LOGIC_AND
  | TokenType.DOUBLE_PIPE => BinaryOpcode.LOGIC_OR
  | TokenType.AMPERSAND => BinaryOpcode.BIT_AND
  | TokenType.PIPE => BinaryOpcode.BIT_OR
  | TokenType.CARET => BinaryOpcode.BIT_XOR
  | TokenType.DOUBLE_LESS => BinaryOpcode.LEFT_SHIFT
  | TokenType.DOUBLE_GREATER => BinaryOpcode.RIGHT_SHIFT
  | _ => BinaryOpcode.NONE
  end.
Proof. destruct k; vm_compute; reflexivity. Qed.

Lemma binaryPrecedences_lookup (op : BinaryOpcode.t) :
  binaryPrecedences !! op =
  Some match group_of op with
       | Some g => group_precedence g
       | None => -1
       end.
Proof. destruct op; vm_compute; reflexivity. Qed.

Lemma binaryOpPrecedence_eq (op : BinaryOpcode.t) :
  binaryOpPrecedence op =
  match group_of op with
  | Some g => group_precedence g
  | None => -1
  end.
Proof.
  unfold binaryOpPrecedence, map_subscript.
  rewrite binaryPrecedences_lookup. reflexivity.
Qed.

Lemma binaryOpPrecedence_NONE : binaryOpPrecedence BinaryOpcode.NONE = -1.
Proof. rewrite binaryOpPrecedence_eq. reflexivity. Qed.

Lemma binaryOpPrecedence_real (op : BinaryOpcode.t) :
  op <> BinaryOpcode.NONE -> 100 <= binaryOpPrecedence op <= 700.
Proof.
  intros Hop. rewrite binaryOpPrecedence_eq.
  destruct op; simpl; try lia; congruence.
Qed.

Lemma binaryOpPrecedence_bounds (op : BinaryOpcode.t) :
  -1 <= binaryOpPrecedence op <= 700.
Proof. rewrite binaryOpPrecedence_eq. destruct op; simpl; lia. Qed.

Lemma binaryOpPrecedence_nonneg (op : BinaryOpcode.t) :
  0 <= binaryOpPrecedence op -> op <> BinaryOpcode.NONE.
Proof. intros H ->. rewrite binaryOpPrecedence_NONE in H. lia. Qed.

#[global] Opaque unaryTokenMap binaryTokenMap binaryPrecedences.
#[global] Arguments tokenTypeToUnaryOpcode : simpl never.
#[global] Arguments tokenTypeToBinaryOpcode : simpl never.
#[global] Arguments binaryOpPrecedence : simpl never.

(** ** One step of each parsing function *)

Lemma parseExpression_S n p :
  parseExpression (S n) p =
  match parseUnaryOpExpr n p with
  | OutOfFuel => OutOfFuel
  | Ret None p1 => Ret None p1
  | Ret (Some lhs) p1 => parseBinaryOpRHS n 0 lhs p1
  end.
Proof. reflexivity. Qed.

Lemma parsePrimaryExpr_S n p :
  parsePrimaryExpr (S n) p =
  match currentType p with
  | TokenType.IDENTIFIER => parseIdentifierExpr p
  | TokenType.INTEGER => parseIntegerExpr p
  | TokenType.FLOAT => parseFloatExpr p
  | TokenType.STRING => parseStringExpr p
  | TokenType.VARIABLE => parseVariableExpr p
  | TokenType.OPEN_PAREN => parseParenExpr n p
  | TokenType.CLOSE_PAREN => error p (currentToken p) "unmatched parentheses"
  | TokenType.UNKNOWN => error p (currentToken p) "invalid character in input"
  | _ => error p (currentToken p) "expected primary expression"
  end.
Proof. reflexivity. Qed.

Lemma parseParenExpr_S n p :
  parseParenExpr (S n) p =
  match parseExpression n (consumeToken p) with
  | OutOfFuel => OutOfFuel
  | Ret None p1 => Ret None p1
  | Ret (Some expr) p1 =>
      if decide (currentType p1 = TokenType.CLOSE_PAREN)
      then Ret (Some expr) (consumeToken p1)
      else error p1 (currentToken p) "unmatched parentheses"
  end.
Proof. reflexivity. Qed.

Lemma parseUnaryOpExpr_S n p :
  parseUnaryOpExpr (S n) p =
  if decide (tokenTypeToUnaryOpcode (currentType p) = UnaryOpcode.NONE)
  then parsePrimaryExpr n p
  else
    match parseUnaryOpExpr n (consumeToken p) with
    | OutOfFuel => OutOfFuel
    | Ret None p1 => Ret None p1
    | Ret (Some operand) p1 =>
        Ret (Some (UnaryOp (currentStart p) (currentEnd p)
                     (tokenTypeToUnaryOpcode (currentType p)) operand)) p1
    end.
Proof. reflexivity. Qed.

Lemma parseBinaryOpRHS_S n floor lhs p :
  parseBinaryOpRHS (S n) floor lhs p =
  let op := tokenTypeToBinaryOpcode (currentType p) in
  if binaryOpPrecedence op <? floor then Ret (Some lhs) p
  else
    match parseUnaryOpExpr n (consumeToken p) with
    | OutOfFuel => OutOfFuel
    | Ret None p1 => Ret None p1
    | Ret (Some rhs) p1 =>
        if binaryOpPrecedence op
           <? binaryOpPrecedence (tokenTypeToBinaryOpcode (currentType p1))
        then
          match parseBinaryOpRHS n (binaryOpPrecedence op + 1) rhs p1 with
          | OutOfFuel => OutOfFuel
          | Ret None p2 => Ret None p2
          | Ret (Some rhs) p2 =>
              parseBinaryOpRHS n floor
                (BinaryOp (currentStart p) (currentEnd p) op lhs rhs) p2
          end
        else
          parseBinaryOpRHS n floor
            (BinaryOp (currentStart p) (currentEnd p) op lhs rhs) p1
    end.
Proof. reflexivity. Qed.

Lemma parseCommand_args_S n args p :
  parseCommand_args (S n) args p =
  if decide (currentType p = TokenType.EOFT) then Ret (Some args) p
  else
    match parseUnaryOpExpr n p with
    | OutOfFuel => OutOfFuel
    | Ret (Some arg) p1 => parseCommand_args n (args ++ [arg]) p1
    | Ret None p1 => parseCommand_args n args (consumeToken p1)
    end.
Proof. reflexivity. Qed.

#[global] Arguments parseExpression : simpl never.
#[global] Arguments parsePrimaryExpr : simpl never.
#[global] Arguments parseParenExpr : simpl never.
#[global] Arguments parseUnaryOpExpr : simpl never.
#[global] Arguments parseBinaryOpRHS : simpl never.
#[global] Arguments parseCommand_args : simpl never.

(** Splits on the outcome of the sub-call a hypothesis or the goal is
    stuck on. *)
Ltac split_call :=
  match goal with
  | H : context [match ?c with OutOfFuel => _ | Ret _ _ => _ end] |- _ =>
      let E := fresh "E" in
      destruct c as [|[?|] ?] eqn:E; try discriminate H
  end.

(** ** A larger budget changes nothing *)

Lemma fuel_mono_all (n : nat) :
  stable parseExpression n /\ stable parsePrimaryExpr n /\
  stable parseParenExpr n /\ stable parseUnaryOpExpr n /\
  (forall floor lhs, stable (fun k => parseBinaryOpRHS k floor lhs) n).
Proof.
  induction n as [|n (IHe & IHp & IHpa & IHu & IHb)].
  - repeat split; intros; intros ? ? ? ? H; discriminate H.
  - repeat split; [| | | |intros floor lhs];
      intros [|m] p r p' H Hle; try lia;
      assert (Hle' : (n <= m)%nat) by lia.
    + rewrite parseExpression_S in *. split_call.
      * rewrite (IHu _ _ _ _ E Hle'). eapply IHb; eauto.
      * rewrite (IHu _ _ _ _ E Hle'). exact H.
    + rewrite parsePrimaryExpr_S in *.
      destruct (currentType p); try exact H. eapply IHpa; eauto.
    + rewrite parseParenExpr_S in *. split_call;
        rewrite (IHe _ _ _ _ E Hle'); exact H.
    + rewrite parseUnaryOpExpr_S in *.
      destruct (decide _); [eapply IHp; eauto|].
      split_call; rewrite (IHu _ _ _ _ E Hle'); exact H.
    + cbv beta in *. rewrite parseBinaryOpRHS_S in *. cbv zeta in *.
      destruct (_ <? floor); [exact H|].
      split_call; rewrite (IHu _ _ _ _ E Hle'); [|exact H].
      destruct (_ <? _).
      * split_call; rewrite (IHb _ _ _ _ _ _ E0 Hle'); [|exact H].
        eapply (IHb floor); eauto.
      * eapply (IHb floor); eauto.
Qed.

Lemma parseExpression_mono n m p r p' :
  parseExpression n p = Ret r p' -> (n <= m)%nat ->
  parseExpression m p = Ret r p'.
Proof. apply fuel_mono_all. Qed.

Lemma parseUnaryOpExpr_mono n m p r p' :
  parseUnaryOpExpr n p = Ret r p' -> (n <= m)%nat ->
  parseUnaryOpExpr m p = Ret r p'.
Proof. apply fuel_mono_all. Qed.

Lemma parsePrimaryExpr_mono n m p r p' :
  parsePrimaryExpr n p = Ret r p' -> (n <= m)%nat ->
  parsePrimaryExpr m p = Ret r p'.
Proof. apply fuel_mono_all. Qed.

Lemma parseParenExpr_mono n m p r p' :
  parseParenExpr n p = Ret r p' -> (n <= m)%nat ->
  parseParenExpr m p = Ret r p'.
Proof. apply fuel_mono_all. Qed.

Lemma parseBinaryOpRHS_mono n m floor lhs p r p' :
  parseBinaryOpRHS n floor lhs p = Ret r p' -> (n <= m)%nat ->
  parseBinaryOpRHS m floor lhs p = Ret r p'.
Proof.
  intros H Hle.
  destruct (fuel_mono_all n) as (_ & _ & _ & _ & Hb).
  exact (Hb floor lhs m p r p' H Hle).
Qed.

Lemma parseCommand_args_mono n :
  forall m args p r p',
    parseCommand_args n args p = Ret r p' -> (n <= m)%nat ->
    parseCommand_args m args p = Ret r p'.
Proof.
  induction n as [|n IH]; intros [|m] args p r p' H Hle;
    try discriminate H; try lia.
  rewrite parseCommand_args_S in *.
  destruct (decide _); [exact H|].
  split_call;
    rewrite (parseUnaryOpExpr_mono _ m _ _ _ E ltac:(lia));
    apply IH; [exact H|lia|exact H|lia].
Qed.

(** ** Token sequences that end in end-of-input *)

Lemma ends_in_EOFT_cons t ts :
  ts <> [] -> ends_in_EOFT (t :: ts) = ends_in_EOFT ts.
Proof. destruct ts; [congruence|reflexivity]. Qed.

Lemma consumeToken_ends p :
  ends_in_EOFT (pending p) = true ->
  ends_in_EOFT (pending (consumeToken p)) = true.
Proof.
  unfold pending, consumeToken. destruct p as [c [|t ts] d]; simpl; auto.
Qed.

Lemma consumeToken_remaining_le p :
  (remaining (consumeToken p) <= remaining p)%nat.
Proof.
  unfold remaining, consumeToken. destruct p as [c [|t ts] d]; simpl; lia.
Qed.

(** Away from end-of-input, consuming a token shortens what remains. *)
Lemma consumeToken_remaining p :
  ends_in_EOFT (pending p) = true -> currentType p <> TokenType.EOFT ->
  S (remaining (consumeToken p)) = remaining p.
Proof.
  unfold pending, consumeToken, remaining, currentType.
  destruct p as [c [|t ts] d]; simpl; intros He Hc; [|reflexivity].
  apply bool_decide_eq_true in He. contradiction.
Qed.

Lemma printMessage_pending p msg col :
  pending (printMessage p msg col) = pending p.
Proof. reflexivity. Qed.

Lemma printMessage_remaining p msg col :
  remaining (printMessage p msg col) = remaining p.
Proof. reflexivity. Qed.

Lemma unary_operator_not_EOFT k :
  tokenTypeToUnaryOpcode k <> UnaryOpcode.NONE -> k <> TokenType.EOFT.
Proof. intros H ->. apply H. rewrite tokenTypeToUnaryOpcode_eq. reflexivity. Qed.

Lemma binary_operator_not_EOFT k :
  tokenTypeToBinaryOpcode k <> BinaryOpcode.NONE -> k <> TokenType.EOFT.
Proof. intros H ->. apply H. rewrite tokenTypeToBinaryOpcode_eq. reflexivity. Qed.

(** ** Termination *)

Lemma leaf_advances p e :
  ends_in_EOFT (pending p) = true -> currentType p <> TokenType.EOFT ->
  advances p (Some e) (consumeToken p).
Proof.
  intros He Hc. pose proof (consumeToken_remaining p He Hc).
  repeat split; [apply consumeToken_ends; exact He|lia|lia].
Qed.

Lemma error_advances p tok msg :
  ends_in_EOFT (pending p) = true ->
  advances p None (printMessage p msg (columnStart tok)).
Proof.
  intros He. repeat split; [exact He|rewrite printMessage_remaining; lia|].
  congruence.
Qed.

Lemma termination_all (n : nat) :
  returns_within 4 parseExpression n /\
  returns_within 2 parsePrimaryExpr n /\
  (forall p, currentType p <> TokenType.EOFT ->
     ends_in_EOFT (pending p) = true -> (4 * remaining p + 1 <= n)%nat ->
     exists r p', parseParenExpr n p = Ret r p' /\ advances p r p') /\
  returns_within 3 parseUnaryOpExpr n /\
  (forall floor lhs p, 0 <= floor ->
     ends_in_EOFT (pending p) = true -> (4 * remaining p + 1 <= n)%nat ->
     exists r p', parseBinaryOpRHS n floor lhs p = Ret r p' /\
       ends_in_EOFT (pending p') = true /\
       (remaining p' <= remaining p)%nat).
Proof.
  unfold returns_within.
  induction n as [|n (IHe & IHp & IHpa & IHu & IHb)].
  - repeat split; intros; lia.
  - repeat split; [intros p He Hn|intros p He Hn|intros p Hc He Hn
                  |intros p He Hn|intros floor lhs p Hfl He Hn].
    + (* parseExpression *)
      rewrite parseExpression_S.
      destruct (IHu p He ltac:(lia)) as (r & p1 & -> & He1 & Hle & Hlt).
      destruct r as [lhs|].
      * specialize (Hlt ltac:(congruence)).
        destruct (IHb 0 lhs p1 ltac:(lia) He1 ltac:(lia))
          as (r & p' & -> & He' & Hle').
        exists r, p'. repeat split; auto; lia.
      * exists None, p1. repeat split; auto.
    + (* parsePrimaryExpr *)
      rewrite parsePrimaryExpr_S.
      destruct (currentType p) eqn:Hc;
        try (eexists _, _; split;
             [reflexivity|apply error_advances; exact He]);
        try (eexists _, _; split;
             [reflexivity|apply leaf_advances; [exact He|congruence]]).
      apply IHpa; [congruence|exact He|lia].
    + (* parseParenExpr *)
      rewrite parseParenExpr_S.
      pose proof (consumeToken_remaining p He Hc) as Hrem.
      destruct (IHe (consumeToken p) (consumeToken_ends p He) ltac:(lia))
        as (r & p1 & -> & He1 & Hle & Hlt).
      destruct r as [e|]; [|exists None, p1; repeat split; auto; lia].
      destruct (decide _).
      * exists (Some e), (consumeToken p1).
        pose proof (consumeToken_remaining_le p1).
        repeat split; [apply consumeToken_ends; exact He1|lia|lia].
      * eexists _, _. split; [reflexivity|].
        repeat split; [exact He1|rewrite printMessage_remaining; lia|].
        congruence.
    + (* parseUnaryOpExpr *)
      rewrite parseUnaryOpExpr_S.
      destruct (decide _) as [Hop|Hop]; [apply IHp; [exact He|lia]|].
      apply unary_operator_not_EOFT in Hop.
      pose proof (consumeToken_remaining p He Hop) as Hrem.
      destruct (IHu (consumeToken p) (consumeToken_ends p He) ltac:(lia))
        as (r & p1 & -> & He1 & Hle & Hlt).
      destruct r as [e|]; eexists _, _; (split; [reflexivity|]);
        repeat split; auto; lia.
    + (* parseBinaryOpRHS *)
      rewrite parseBinaryOpRHS_S. cbv zeta.
      destruct (_ <? floor) eqn:Hprec.
      { exists (Some lhs), p. repeat split; auto. }
      apply Z.ltb_ge in Hprec.
      assert (Hc : currentType p <> TokenType.EOFT).
      { apply binary_operator_not_EOFT, binaryOpPrecedence_nonneg. lia. }
      pose proof (consumeToken_remaining p He Hc) as Hrem.
      destruct (IHu (consumeToken p) (consumeToken_ends p He) ltac:(lia))
        as (r & p1 & -> & He1 & Hle & Hlt).
      destruct r as [rhs|]; [|exists None, p1; repeat split; auto; lia].
      specialize (Hlt ltac:(congruence)).
      destruct (_ <? _).
      * destruct (IHb (binaryOpPrecedence
                         (tokenTypeToBinaryOpcode (currentType p)) + 1)
                    rhs p1 ltac:(lia) He1 ltac:(lia))
          as (r & p2 & -> & He2 & Hle2).
        destruct r as [rhs'|]; [|exists None, p2; repeat split; auto; lia].
        destruct (IHb floor
                    (BinaryOp (currentStart p) (currentEnd p)
                       (tokenTypeToBinaryOpcode (currentType p)) lhs rhs')
                    p2 Hfl He2 ltac:(lia))
          as (r & p3 & -> & He3 & Hle3).
        exists r, p3. repeat split; auto; lia.
      * destruct (IHb floor
                    (BinaryOp (currentStart p) (currentEnd p)
                       (tokenTypeToBinaryOpcode (currentType p)) lhs rhs)
                    p1 Hfl He1 ltac:(lia))
          as (r & p3 & -> & He3 & Hle3).
        exists r, p3. repeat split; auto; lia.
Qed.

Lemma parseUnaryOpExpr_returns n p :
  ends_in_EOFT (pending p) = true -> (4 * remaining p + 3 <= n)%nat ->
  exists r p', parseUnaryOpExpr n p = Ret r p' /\ advances p r p'.
Proof. apply termination_all. Qed.

Lemma parseExpression_returns n p :
  ends_in_EOFT (pending p) = true -> (4 * remaining p + 4 <= n)%nat ->
  exists r p', parseExpression n p = Ret r p' /\ advances p r p'.
Proof. apply termination_all. Qed.

(** The argument loop stops, and it stops at end-of-input. *)
Lemma parseCommand_args_returns n :
  forall args p,
    ends_in_EOFT (pending p) = true -> (4 * remaining p + 4 <= n)%nat ->
    exists args' p', parseCommand_args n args p = Ret (Some args') p' /\
      currentType p' = TokenType.EOFT.
Proof.
  induction n as [|n IH]; intros args p He Hn; [lia|].
  rewrite parseCommand_args_S.
  destruct (decide _) as [Hc|Hc]; [exists args, p; auto|].
  pose proof (consumeToken_remaining p He Hc) as Hrem.
  destruct (parseUnaryOpExpr_returns n p He ltac:(lia))
    as (r & p1 & -> & He1 & Hle & Hlt).
  destruct r as [arg|].
  - specialize (Hlt ltac:(congruence)). apply IH; [exact He1|lia].
  - apply IH; [apply consumeToken_ends; exact He1|].
    destruct (decide (currentType p1 = TokenType.EOFT)) as [Hc1|Hc1].
    + destruct p1 as [c [|t ts] d]; unfold remaining in *; simpl in *; lia.
    + pose proof (consumeToken_remaining p1 He1 Hc1). lia.
Qed.

(** ** Diagnostics *)

Lemma consumeToken_errorContext p :
  errorContext (consumeToken p) = errorContext p.
Proof. unfold consumeToken. destruct (scanner p); reflexivity. Qed.

Lemma reports_error {A} p tok msg :
  @reports A p None (printMessage p msg (columnStart tok)).
Proof. simpl. eauto. Qed.

Lemma reports_consume {A} p (r : option A) p' :
  reports (consumeToken p) r p' -> reports p r p'.
Proof.
  unfold reports. rewrite consumeToken_errorContext. auto.
Qed.

Lemma reports_all (n : nat) :
  (forall p r p', parseExpression n p = Ret r p' -> reports p r p') /\
  (forall p r p', parsePrimaryExpr n p = Ret r p' -> reports p r p') /\
  (forall p r p', parseParenExpr n p = Ret r p' -> reports p r p') /\
  (forall p r p', parseUnaryOpExpr n p = Ret r p' -> reports p r p') /\
  (forall floor lhs p r p',
     parseBinaryOpRHS n floor lhs p = Ret r p' -> reports p r p').
Proof.
  induction n as [|n (IHe & IHp & IHpa & IHu & IHb)].
  - repeat split; intros; discriminate.
  - repeat split; [intros p r p' H|intros p r p' H|intros p r p' H
                  |intros p r p' H|intros floor lhs p r p' H].
    + rewrite parseExpression_S in H. split_call.
      * apply IHu in E. apply IHb in H. simpl in E.
        unfold reports in *. rewrite <- E. exact H.
      * injection H as <- <-. eapply IHu; eauto.
    + rewrite parsePrimaryExpr_S in H.
      destruct (currentType p);
        try (injection H as <- <-; solve
               [apply reports_error
               |simpl; apply consumeToken_errorContext]).
      eapply IHpa; eauto.
    + rewrite parseParenExpr_S in H. split_call.
      * apply IHe in E. apply reports_consume in E. simpl in E.
        destruct (decide _); injection H as <- <-; simpl.
        -- rewrite consumeToken_errorContext. exact E.
        -- rewrite E. eauto.
      * injection H as <- <-. apply reports_consume. eapply IHe; eauto.
    + rewrite parseUnaryOpExpr_S in H.
      destruct (decide _); [eapply IHp; eauto|].
      split_call; injection H as <- <-; apply IHu in E;
        apply reports_consume in E; exact E.
    + rewrite parseBinaryOpRHS_S in H. cbv zeta in H.
      destruct (_ <? floor); [injection H as <- <-; reflexivity|].
      split_call.
      2:{ injection H as <- <-. apply reports_consume. eapply IHu; eauto. }
      apply IHu in E. apply reports_consume in E. simpl in E.
      destruct (_ <? _).
      * split_call.
        -- apply IHb in E0. apply IHb in H. simpl in E0.
           unfold reports in *. rewrite <- E, <- E0. exact H.
        -- injection H as <- <-. apply IHb in E0.
           unfold reports in *. rewrite <- E. exact E0.
      * apply IHb in H. unfold reports in *. rewrite <- E. exact H.
Qed.

Lemma parseExpression_reports n p r p' :
  parseExpression n p = Ret r p' -> reports p r p'.
Proof. apply reports_all. Qed.

Lemma parseUnaryOpExpr_reports n p r p' :
  parseUnaryOpExpr n p = Ret r p' -> reports p r p'.
Proof. apply reports_all. Qed.

(** ** The precedence table *)

Lemma precedence_of_group op g :
  group_of op = Some g -> binaryOpPrecedence op = group_precedence g.
Proof. intros Hg. rewrite binaryOpPrecedence_eq, Hg. reflexivity. Qed.

Lemma precedence_lt_rank a b :
  binaryOpPrecedence a < binaryOpPrecedence b <->
  (group_rank a < group_rank b)%nat.
Proof.
  rewrite !binaryOpPrecedence_eq. unfold group_rank.
  destruct a, b; simpl; split; lia.
Qed.

Lemma precedence_eq_group a b :
  binaryOpPrecedence a = binaryOpPrecedence b <-> group_of a = group_of b.
Proof.
  rewrite !binaryOpPrecedence_eq.
  destruct a, b; simpl; split; intros H; solve [reflexivity|discriminate H].
Qed.

Lemma NONE_below_floor floor :
  0 <= floor -> (binaryOpPrecedence BinaryOpcode.NONE <? floor) = true.
Proof. intros H. rewrite binaryOpPrecedence_NONE. apply Z.ltb_lt. lia. Qed.

(** C3.  The precedence table puts every binary opcode of a group at that
    group's precedence, the groups at multiplicative 700 > additive 600 >
    shift 500 > relational 400 > equality 300 > bitwise-AND 266 >
    bitwise-XOR 233 > bitwise-OR 200 > logical-AND 150 > logical-OR 100; for
    every pair of opcodes the comparison of their precedences is the
    comparison of their groups in that order, hence total and consistent;
    NONE is at -1, strictly below every operator, so it fails the test
    "precedence at least the floor" for every floor from 0 up, and the
    climbing loop returns its left operand there. *)
Theorem precedence_order :
  (forall op g, group_of op = Some g ->
     binaryOpPrecedence op = group_precedence g) /\
  map group_precedence
    [Multiplicative; Additive; Shift; Relational; Equality;
     BitwiseAnd; BitwiseXor; BitwiseOr; LogicalAnd; LogicalOr]
  = [700; 600; 500; 400; 300; 266; 233; 200; 150; 100] /\
  (forall a b, binaryOpPrecedence a < binaryOpPrecedence b <->
               (group_rank a < group_rank b)%nat) /\
  (forall a b, binaryOpPrecedence a = binaryOpPrecedence b <->
               group_of a = group_of b) /\
  (forall a b, binaryOpPrecedence a < binaryOpPrecedence b \/
               binaryOpPrecedence a = binaryOpPrecedence b \/
               binaryOpPrecedence b < binaryOpPrecedence a) /\
  binaryOpPrecedence BinaryOpcode.NONE = -1 /\
  (forall op, op <> BinaryOpcode.NONE ->
     binaryOpPrecedence BinaryOpcode.NONE < binaryOpPrecedence op) /\
  (forall floor, 0 <= floor ->
     (binaryOpPrecedence BinaryOpcode.NONE <? floor) = true) /\
  (forall n floor lhs p, 0 <= floor ->
     tokenTypeToBinaryOpcode (currentType p) = BinaryOpcode.NONE ->
     parseBinaryOpRHS (S n) floor lhs p = Ret (Some lhs) p).
Proof.
  split; [exact precedence_of_group|].
  split; [reflexivity|].
  split; [exact precedence_lt_rank|].
  split; [exact precedence_eq_group|].
  split; [intros a b; lia|].
  split; [exact binaryOpPrecedence_NONE|].
  split.
  { intros op Hop. rewrite binaryOpPrecedence_NONE.
    pose proof (binaryOpPrecedence_real op Hop). lia. }
  split; [exact NONE_below_floor|].
  intros n floor lhs p Hfl Hop. rewrite parseBinaryOpRHS_S. cbv zeta.
  rewrite Hop, (NONE_below_floor floor Hfl). reflexivity.
Qed.

Lemma precedence_order_witness :
  binaryOpPrecedence BinaryOpcode.MULTIPLY = 700 /\
  binaryOpPrecedence BinaryOpcode.NONE
    < binaryOpPrecedence BinaryOpcode.LOGIC_OR /\
  (binaryOpPrecedence BinaryOpcode.NONE <? 0) = true /\
  parseBinaryOpRHS 1 0 (IntegerExpr 0 0 1) (Samples.at_end 1)
    = Ret (Some (IntegerExpr 0 0 1)) (Samples.at_end 1).
Proof.
  destruct precedence_order as (Hg & _ & _ & _ & _ & _ & Hn & Hf & Hl).
  split; [|split; [|split]].
  - apply (Hg BinaryOpcode.MULTIPLY Multiplicative). reflexivity.
  - apply (Hn BinaryOpcode.LOGIC_OR). discriminate.
  - apply (Hf 0). lia.
  - apply (Hl 0%nat 0 (IntegerExpr 0 0 1) (Samples.at_end 1)).
    + lia.
    + vm_compute. reflexivity.
Defined.

(** C10.  The precedence table has an entry for each of the nineteen
    [BinaryOpcode] values: the subscript the climbing loop performs finds the
    entry, yields its value and leaves the table as it was, never inserting
    a value-initialised [0]; for NONE it yields -1. *)
Theorem binaryPrecedences_total :
  (forall op, exists v,
     binaryPrecedences !! op = Some v /\
     map_subscript binaryPrecedences op = (v, binaryPrecedences) /\
     binaryOpPrecedence op = v) /\
  size binaryPrecedences = length BinaryOpcode.all /\
  length BinaryOpcode.all = 19%nat /\
  (forall op, In op BinaryOpcode.all) /\
  map_subscript binaryPrecedences BinaryOpcode.NONE = (-1, binaryPrecedences) /\
  binaryOpPrecedence BinaryOpcode.NONE <> 0.
Proof.
  split; [|split; [|split; [|split; [|split]]]].
  - intros op. eexists. unfold binaryOpPrecedence, map_subscript.
    rewrite binaryPrecedences_lookup. repeat split.
  - vm_compute. reflexivity.
  - reflexivity.
  - apply BinaryOpcode_all_complete.
  - unfold map_subscript. rewrite binaryPrecedences_lookup. reflexivity.
  - rewrite binaryOpPrecedence_NONE. discriminate.
Qed.

(** ** The primary parser's error paths *)

Lemma parsePrimaryExpr_unexpected n p :
  unexpected_kind (currentType p) = true ->
  parsePrimaryExpr (S n) p =
  Ret None (printMessage p "expected primary expression" (currentStart p)).
Proof.
  intros H. rewrite parsePrimaryExpr_S. unfold error, currentStart.
  destruct (currentType p); try discriminate H; reflexivity.
Qed.

Lemma binary_operator_unexpected k :
  tokenTypeToBinaryOpcode k <> BinaryOpcode.NONE -> unexpected_kind k = true.
Proof.
  rewrite tokenTypeToBinaryOpcode_eq.
  destruct k; simpl; intros H; solve [reflexivity|exfalso; apply H; reflexivity].
Qed.

(** C6.  In [parsePrimaryExpr], a close delimiter reports "unmatched
    parentheses" at the current token's column, an unrecognized token
    reports "invalid character in input", any other unexpected kind reports
    "expected primary expression"; each of these paths returns normally with
    an absent result, the current token and the scanner untouched (nothing
    is consumed) and the one message added to the error context. *)
Theorem parsePrimaryExpr_errors (n : nat) (p : Parser) :
  (currentType p = TokenType.CLOSE_PAREN ->
   parsePrimaryExpr (S n) p =
   Ret None (printMessage p "unmatched parentheses" (currentStart p))) /\
  (currentType p = TokenType.UNKNOWN ->
   parsePrimaryExpr (S n) p =
   Ret None (printMessage p "invalid character in input" (currentStart p))) /\
  (unexpected_kind (currentType p) = true ->
   parsePrimaryExpr (S n) p =
   Ret None (printMessage p "expected primary expression" (currentStart p))) /\
  (forall msg,
     currentToken (printMessage p msg (currentStart p)) = currentToken p /\
     scanner (printMessage p msg (currentStart p)) = scanner p /\
     errorContext (printMessage p msg (currentStart p)) =
     (errorContext p ++ [(msg, columnStart (currentToken p))])%list).
Proof.
  split; [|split; [|split]].
  - intros H. rewrite parsePrimaryExpr_S, H. reflexivity.
  - intros H. rewrite parsePrimaryExpr_S, H. reflexivity.
  - apply parsePrimaryExpr_unexpected.
  - intros msg. repeat split.
Qed.

Lemma parsePrimaryExpr_errors_witness :
  parsePrimaryExpr 1
    (Samples.facing (Samples.token_at TokenType.CLOSE_PAREN ")" 3))
  = Ret None
      (printMessage
         (Samples.facing (Samples.token_at TokenType.CLOSE_PAREN ")" 3))
         "unmatched parentheses" 3) /\
  parsePrimaryExpr 1 (Samples.facing (Samples.token_at TokenType.UNKNOWN "@" 5))
  = Ret None
      (printMessage (Samples.facing (Samples.token_at TokenType.UNKNOWN "@" 5))
         "invalid character in input" 5) /\
  parsePrimaryExpr 1 (Samples.facing (Samples.token_at TokenType.STAR "*" 7))
  = Ret None
      (printMessage (Samples.facing (Samples.token_at TokenType.STAR "*" 7))
         "expected primary expression" 7).
Proof.
  split; [|split].
  - apply (parsePrimaryExpr_errors 0
             (Samples.facing (Samples.token_at TokenType.CLOSE_PAREN ")" 3))).
    reflexivity.
  - apply (parsePrimaryExpr_errors 0
             (Samples.facing (Samples.token_at TokenType.UNKNOWN "@" 5))).
    reflexivity.
  - apply (parsePrimaryExpr_errors 0
             (Samples.facing (Samples.token_at TokenType.STAR "*" 7))).
    reflexivity.
Defined.

(** ** Parenthesized expressions *)

Lemma budget_le_plus p k : (budget p <= budget p + k)%nat.
Proof. lia. Qed.

(** C5.  When the expression after an open delimiter parses but the token
    that follows is not the closing delimiter, [parseParenExpr] returns
    absent and the error context gains exactly one message, "unmatched
    parentheses", at the column of the opening delimiter (for [  (1 + 2] that
    is column 2, whereas the current token is in column 8); when the closing
    delimiter follows, it is consumed and the inner expression is returned as
    it is, with nothing reported. *)
Theorem parseParenExpr_unmatched :
  (forall n p expr p1,
     parseExpression n (consumeToken p) = Ret (Some expr) p1 ->
     currentType p1 <> TokenType.CLOSE_PAREN ->
     parseParenExpr (S n) p =
       Ret None (printMessage p1 "unmatched parentheses"
                   (columnStart (currentToken p))) /\
     currentToken (printMessage p1 "unmatched parentheses"
                     (columnStart (currentToken p))) = currentToken p1 /\
     errorContext (printMessage p1 "unmatched parentheses"
                     (columnStart (currentToken p))) =
       (errorContext p ++
        [("unmatched parentheses", columnStart (currentToken p))])%list) /\
  (forall n p expr p1,
     parseExpression n (consumeToken p) = Ret (Some expr) p1 ->
     currentType p1 = TokenType.CLOSE_PAREN ->
     parseParenExpr (S n) p = Ret (Some expr) (consumeToken p1) /\
     errorContext (consumeToken p1) = errorContext p) /\
  (forall t0 k,
     let p := primed t0 Samples.open_one_plus_two in
     parseExpression (budget p + k) p =
       Ret None (mkParser (mkToken TokenType.EOFT "" 8 8) []
                   [("unmatched parentheses", 2)])) /\
  (forall t0 k,
     let p := primed t0 Samples.paren_one_plus_two in
     parseExpression (budget p + k) p =
       Ret (Some (BinaryOp 3 3 BinaryOpcode.ADD
                    (IntegerExpr 1 1 1) (IntegerExpr 5 5 2)))
           (mkParser (mkToken TokenType.EOFT "" 7 7) [] [])).
Proof.
  split; [|split; [|split]].
  - intros n p expr p1 Hin Hc. rewrite parseParenExpr_S, Hin.
    destruct (decide _); [contradiction|].
    split; [reflexivity|split; [reflexivity|]].
    apply parseExpression_reports in Hin. simpl in Hin.
    rewrite consumeToken_errorContext in Hin. simpl. rewrite Hin. reflexivity.
  - intros n p expr p1 Hin Hc. rewrite parseParenExpr_S, Hin.
    destruct (decide _); [|contradiction].
    split; [reflexivity|].
    apply parseExpression_reports in Hin. simpl in Hin.
    rewrite !consumeToken_errorContext in *. exact Hin.
  - intros t0 k p. apply (parseExpression_mono (budget p));
      [vm_compute; reflexivity|apply budget_le_plus].
  - intros t0 k p. apply (parseExpression_mono (budget p));
      [vm_compute; reflexivity|apply budget_le_plus].
Qed.

Lemma parseParenExpr_unmatched_witness :
  parseParenExpr 5 Samples.open_five
  = Ret None (printMessage (Samples.at_end 2) "unmatched parentheses" 0) /\
  parseParenExpr 5 Samples.open_five_close
  = Ret (Some (IntegerExpr 1 1 5)) (Samples.at_end 3).
Proof.
  destruct parseParenExpr_unmatched as (Hfail & Hok & _).
  split.
  - apply (Hfail 4%nat Samples.open_five (IntegerExpr 1 1 5)
             (Samples.at_end 2)).
    + vm_compute. reflexivity.
    + discriminate.
  - apply (Hok 4%nat Samples.open_five_close (IntegerExpr 1 1 5)
             (Samples.facing (Samples.token_at TokenType.CLOSE_PAREN ")" 2))).
    + vm_compute. reflexivity.
    + reflexivity.
Defined.

(** ** Unary operators *)

Lemma consumeToken_put_before t ts p :
  consumeToken (put_before (t :: ts) p) = put_before ts p.
Proof. destruct ts, p; reflexivity. Qed.

Lemma parseUnaryOpExpr_chain (ops : list Token) :
  forall n p r p',
    Forall is_unary_operator ops ->
    parseUnaryOpExpr n p = Ret r p' ->
    parseUnaryOpExpr (length ops + n) (put_before ops p) =
      Ret (option_map (unary_nest ops) r) p'.
Proof.
  induction ops as [|t ops IH]; intros n p r p' Hops H.
  - simpl. rewrite H. destruct r; reflexivity.
  - inversion Hops as [|? ? Ht Hops']; subst.
    change (length (t :: ops) + n)%nat with (S (length ops + n)).
    rewrite parseUnaryOpExpr_S.
    replace (currentType (put_before (t :: ops) p)) with (type t)
      by reflexivity.
    destruct (decide _) as [Hn|_]; [contradiction|].
    rewrite consumeToken_put_before, (IH n p r p' Hops' H).
    destruct r; reflexivity.
Qed.

(** C4.  On a token that maps to a unary opcode, [parseUnaryOpExpr] consumes
    it and calls itself for the operand; hence a chain of unary operator
    tokens in front of an operand yields the unary nodes nested to the
    right, the first operator outermost (and an operand that fails makes the
    chain fail); the tokens of [-(1 + 2)] yield
    UnaryOp(MINUS, ADD(Integer(1), Integer(2))) and those of [- ! 7] yield
    UnaryOp(MINUS, UnaryOp(LOGIC_NEGATE, Integer(7))). *)
Theorem parseUnaryOpExpr_right_nested :
  (forall n p,
     tokenTypeToUnaryOpcode (currentType p) <> UnaryOpcode.NONE ->
     parseUnaryOpExpr (S n) p =
     match parseUnaryOpExpr n (consumeToken p) with
     | OutOfFuel => OutOfFuel
     | Ret None p1 => Ret None p1
     | Ret (Some operand) p1 =>
         Ret (Some (UnaryOp (currentStart p) (currentEnd p)
                      (tokenTypeToUnaryOpcode (currentType p)) operand)) p1
     end) /\
  (forall ops n p r p',
     Forall is_unary_operator ops ->
     parseUnaryOpExpr n p = Ret r p' ->
     parseUnaryOpExpr (length ops + n) (put_before ops p) =
       Ret (option_map (unary_nest ops) r) p') /\
  (forall t0 k,
     let p := primed t0 Samples.minus_paren_one_plus_two in
     parseExpression (budget p + k) p =
       Ret (Some (UnaryOp 0 0 UnaryOpcode.MINUS
                    (BinaryOp 4 4 BinaryOpcode.ADD
                       (IntegerExpr 2 2 1) (IntegerExpr 6 6 2))))
           (mkParser (mkToken TokenType.EOFT "" 8 8) [] [])) /\
  (forall t0 k,
     let p := primed t0 Samples.minus_not_seven in
     parseExpression (budget p + k) p =
       Ret (Some (UnaryOp 0 0 UnaryOpcode.MINUS
                    (UnaryOp 2 2 UnaryOpcode.LOGIC_NEGATE
                       (IntegerExpr 4 4 7))))
           (mkParser (mkToken TokenType.EOFT "" 5 5) [] [])).
Proof.
  split; [|split; [|split]].
  - intros n p Hop. rewrite parseUnaryOpExpr_S.
    destruct (decide _); [contradiction|reflexivity].
  - exact parseUnaryOpExpr_chain.
  - intros t0 k p. apply (parseExpression_mono (budget p));
      [vm_compute; reflexivity|apply budget_le_plus].
  - intros t0 k p. apply (parseExpression_mono (budget p));
      [vm_compute; reflexivity|apply budget_le_plus].
Qed.

Lemma parseUnaryOpExpr_right_nested_witness :
  parseUnaryOpExpr 4
    (put_before [Samples.token_at TokenType.MINUS "-" 0;
                 Samples.token_at TokenType.TILDE "~" 1]
       (Samples.facing (Samples.token_at TokenType.INTEGER "9" 2)))
  = Ret (Some (UnaryOp 0 0 UnaryOpcode.MINUS
                 (UnaryOp 1 1 UnaryOpcode.BIT_NEGATE (IntegerExpr 2 2 9))))
      (Samples.at_end 3) /\
  parseUnaryOpExpr 1 (Samples.facing (Samples.token_at TokenType.MINUS "-" 0))
  = match
      parseUnaryOpExpr 0
        (consumeToken
           (Samples.facing (Samples.token_at TokenType.MINUS "-" 0)))
    with
    | OutOfFuel => OutOfFuel
    | Ret None p1 => Ret None p1
    | Ret (Some operand) p1 =>
        Ret (Some (UnaryOp 0 0 UnaryOpcode.MINUS operand)) p1
    end.
Proof.
  destruct parseUnaryOpExpr_right_nested as (Hstep & Hchain & _).
  split.
  - apply (Hchain [Samples.token_at TokenType.MINUS "-" 0;
                   Samples.token_at TokenType.TILDE "~" 1] 2%nat
             (Samples.facing (Samples.token_at TokenType.INTEGER "9" 2))
             (Some (IntegerExpr 2 2 9)) (Samples.at_end 3)).
    + repeat constructor; vm_compute; discriminate.
    + vm_compute. reflexivity.
  - apply (Hstep 0%nat
             (Samples.facing (Samples.token_at TokenType.MINUS "-" 0))).
    vm_compute. discriminate.
Defined.

(** ** The command parser *)

Lemma parseCommand_mono n m p r p' :
  parseCommand n p = Ret r p' -> (n <= m)%nat -> parseCommand m p = Ret r p'.
Proof.
  unfold parseCommand. intros H Hle.
  destruct (decide _); [|exact H].
  destruct (parseCommand_args n _ _) as [|[a|] p1] eqn:E; try discriminate H;
    rewrite (parseCommand_args_mono _ _ _ _ _ _ E Hle); exact H.
Qed.

(** The argument loop returns only at end-of-input, and what it returns
    extends the arguments it started from. *)
Lemma parseCommand_args_stops n :
  forall args p r p',
    parseCommand_args n args p = Ret r p' ->
    currentType p' = TokenType.EOFT /\
    exists more, r = Some (args ++ more)%list.
Proof.
  induction n as [|n IH]; intros args p r p' H; [discriminate H|].
  rewrite parseCommand_args_S in H.
  destruct (decide _) as [Hc|Hc].
  - injection H as <- <-. split; [exact Hc|].
    exists []. rewrite app_nil_r. reflexivity.
  - split_call.
    + apply IH in H as (Hc' & more & ->). split; [exact Hc'|].
      exists (e :: more). rewrite <- app_assoc. reflexivity.
    + apply IH in H. exact H.
Qed.

Lemma parseUnaryOpExpr_integer n p :
  currentType p = TokenType.INTEGER ->
  parseUnaryOpExpr (S (S n)) p =
  Ret (Some (integer_of (currentToken p))) (consumeToken p).
Proof.
  intros H. rewrite parseUnaryOpExpr_S, tokenTypeToUnaryOpcode_eq, H.
  destruct (decide _); [|contradiction].
  rewrite parsePrimaryExpr_S, H. reflexivity.
Qed.

Lemma parseUnaryOpExpr_operator n p :
  tokenTypeToUnaryOpcode (currentType p) <> UnaryOpcode.NONE ->
  parseUnaryOpExpr (S n) p =
  match parseUnaryOpExpr n (consumeToken p) with
  | OutOfFuel => OutOfFuel
  | Ret None p1 => Ret None p1
  | Ret (Some operand) p1 =>
      Ret (Some (UnaryOp (currentStart p) (currentEnd p)
                   (tokenTypeToUnaryOpcode (currentType p)) operand)) p1
  end.
Proof.
  intros Hop. rewrite parseUnaryOpExpr_S.
  destruct (decide _); [contradiction|reflexivity].
Qed.

Lemma parseCommand_args_EOFT n args p :
  currentType p = TokenType.EOFT ->
  parseCommand_args (S n) args p = Ret (Some args) p.
Proof.
  intros H. rewrite parseCommand_args_S.
  destruct (decide _); [reflexivity|contradiction].
Qed.

Lemma parseCommand_args_next n args p :
  currentType p <> TokenType.EOFT ->
  parseCommand_args (S n) args p =
  match parseUnaryOpExpr n p with
  | OutOfFuel => OutOfFuel
  | Ret (Some arg) p1 => parseCommand_args n (args ++ [arg]) p1
  | Ret None p1 => parseCommand_args n args (consumeToken p1)
  end.
Proof.
  intros H. rewrite parseCommand_args_S.
  destruct (decide _); [contradiction|reflexivity].
Qed.

(** A binary operator token between two integer tokens, in the argument
    loop. *)
Lemma parseCommand_args_operator_between a o b z args :
  type a = TokenType.INTEGER ->
  tokenTypeToBinaryOpcode (type o) <> BinaryOpcode.NONE ->
  type b = TokenType.INTEGER ->
  type z = TokenType.EOFT ->
  parseCommand_args 5 args (mkParser a [o; b; z] []) =
  if decide (tokenTypeToUnaryOpcode (type o) = UnaryOpcode.NONE)
  then Ret (Some (args ++ [integer_of a] ++ [integer_of b])%list)
         (mkParser z [] [("expected primary expression", columnStart o)])
  else Ret (Some (args ++ [integer_of a] ++
                  [UnaryOp (columnStart o) (columnEnd o)
                     (tokenTypeToUnaryOpcode (type o)) (integer_of b)])%list)
         (mkParser z [] []).
Proof.
  intros Ha Ho Hb Hz.
  rewrite parseCommand_args_next by (unfold currentType; simpl; congruence).
  rewrite parseUnaryOpExpr_integer by exact Ha.
  change (consumeToken (mkParser a [o; b; z] [])) with (mkParser o [b; z] []).
  rewrite parseCommand_args_next
    by (apply binary_operator_not_EOFT; exact Ho).
  destruct (decide _) as [Hu|Hu].
  - rewrite parseUnaryOpExpr_S.
    destruct (decide _) as [_|Hu']; [|contradiction].
    rewrite parsePrimaryExpr_unexpected
      by (apply binary_operator_unexpected; exact Ho).
    change (consumeToken _) with
      (mkParser b [z] [("expected primary expression", columnStart o)]).
    rewrite parseCommand_args_next by (unfold currentType; simpl; congruence).
    rewrite parseUnaryOpExpr_integer by exact Hb.
    rewrite parseCommand_args_EOFT by exact Hz.
    rewrite <- app_assoc. reflexivity.
  - rewrite parseUnaryOpExpr_operator by exact Hu.
    rewrite parseUnaryOpExpr_integer by exact Hb.
    rewrite parseCommand_args_EOFT by exact Hz.
    rewrite <- app_assoc. reflexivity.
Qed.

(** C2.  The tokens of [cmd 1 @ 2], with [@] an unrecognized token, give
    the command "cmd" with the arguments [Integer(1); Integer(2)] and exactly
    one diagnostic, the parser left at end-of-input.  In general, when an
    argument fails in the loop (with its one diagnostic), the loop calls
    [consumeToken] exactly once, which drops exactly the current token
    (unless that is already the last one of the line), and goes on from
    there with the arguments collected so far; the loop returns
    only at end-of-input, with the earlier arguments kept, and on a line that
    ends in end-of-input it does return. *)
Theorem parseCommand_recovers :
  (forall t0 k,
     let p := unprimed t0 Samples.cmd_one_at_two in
     parseCommand (budget p + k) p =
       Ret (Some (mkCommandAST "cmd" 0 2
                    [IntegerExpr 4 4 1; IntegerExpr 8 8 2]))
           (mkParser (mkToken TokenType.EOFT "" 9 9) []
              [("invalid character in input", 6)])) /\
  (forall n args p p1,
     currentType p <> TokenType.EOFT ->
     parseUnaryOpExpr n p = Ret None p1 ->
     parseCommand_args (S n) args p =
       parseCommand_args n args (consumeToken p1) /\
     (exists msg col,
        errorContext (consumeToken p1) =
        (errorContext p ++ [(msg, col)])%list) /\
     (scanner p1 <> [] ->
      pending p1 = currentToken p1 :: pending (consumeToken p1))) /\
  (forall n args p r p',
     parseCommand_args n args p = Ret r p' ->
     currentType p' = TokenType.EOFT /\
     exists more, r = Some (args ++ more)%list) /\
  (forall n args p,
     ends_in_EOFT (pending p) = true -> (4 * remaining p + 4 <= n)%nat ->
     exists args' p', parseCommand_args n args p = Ret (Some args') p').
Proof.
  split; [|split; [|split]].
  - intros t0 k p. apply (parseCommand_mono (budget p));
      [vm_compute; reflexivity|apply budget_le_plus].
  - intros n args p p1 Hc H. rewrite parseCommand_args_S, H.
    destruct (decide _); [contradiction|].
    split; [reflexivity|split].
    + rewrite consumeToken_errorContext.
      exact (parseUnaryOpExpr_reports _ _ _ _ H).
    + destruct p1 as [c [|t ts] d]; simpl; intros Hs; [congruence|reflexivity].
  - exact parseCommand_args_stops.
  - intros n args p He Hn.
    destruct (parseCommand_args_returns n args p He Hn) as (a & p' & H & _).
    eauto.
Qed.

Lemma parseCommand_recovers_witness :
  parseCommand_args 3 [] Samples.at_two
    = parseCommand_args 2 [] (consumeToken Samples.at_two_reported) /\
  pending Samples.at_two_reported
    = Samples.token_at TokenType.UNKNOWN "@" 0
      :: pending (consumeToken Samples.at_two_reported) /\
  (exists args' p',
     parseCommand_args 12 [] Samples.at_two = Ret (Some args') p') /\
  currentType (Samples.at_end 3) = TokenType.EOFT.
Proof.
  destruct parseCommand_recovers as (_ & Hstep & Hstop & Hret).
  assert (Hc : currentType Samples.at_two <> TokenType.EOFT) by discriminate.
  assert (Hfail : parseUnaryOpExpr 2 Samples.at_two
                  = Ret None Samples.at_two_reported)
    by (vm_compute; reflexivity).
  destruct (Hstep 2%nat [] Samples.at_two Samples.at_two_reported Hc Hfail)
    as (H1 & _ & H3).
  split; [exact H1|split; [apply H3; discriminate|split]].
  - apply (Hret 12%nat [] Samples.at_two); [reflexivity|vm_compute; lia].
  - apply (Hstop 1%nat [] (Samples.at_end 3) (Some []) (Samples.at_end 3)).
    vm_compute. reflexivity.
Defined.

(** C9.  The argument loop parses each argument with [parseUnaryOpExpr];
    the tokens of [cmd 1 + 2] give the command "cmd" with the two arguments
    [Integer(1); UnaryOp(PLUS, Integer(2))].  In general a binary operator
    token between two integer tokens ends the first argument and never
    combines the two: the command has exactly two arguments, the first
    integer and then either the unary node of the operator around the second
    integer, when the token is a unary operator as well, or, when it is not,
    the second integer alone, the operator being reported as "expected
    primary expression" and skipped. *)
Theorem parseCommand_arguments_unary :
  (forall t0 k,
     let p := unprimed t0 Samples.cmd_one_plus_two in
     parseCommand (budget p + k) p =
       Ret (Some (mkCommandAST "cmd" 0 2
                    [IntegerExpr 4 4 1;
                     UnaryOp 6 6 UnaryOpcode.PLUS (IntegerExpr 8 8 2)]))
           (mkParser (mkToken TokenType.EOFT "" 9 9) [] [])) /\
  (forall n args p,
     currentType p <> TokenType.EOFT ->
     parseCommand_args (S n) args p =
     match parseUnaryOpExpr n p with
     | OutOfFuel => OutOfFuel
     | Ret (Some arg) p1 => parseCommand_args n (args ++ [arg]) p1
     | Ret None p1 => parseCommand_args n args (consumeToken p1)
     end) /\
  (forall t0 name a o b z k,
     type name = TokenType.IDENTIFIER ->
     type a = TokenType.INTEGER ->
     tokenTypeToBinaryOpcode (type o) <> BinaryOpcode.NONE ->
     type b = TokenType.INTEGER ->
     type z = TokenType.EOFT ->
     let p := unprimed t0 [name; a; o; b; z] in
     exists second diagnostics,
       parseCommand (budget p + k) p =
         Ret (Some (mkCommandAST (text name) (columnStart name)
                      (columnEnd name) [integer_of a; second]))
             (mkParser z [] diagnostics) /\
       ((tokenTypeToUnaryOpcode (type o) <> UnaryOpcode.NONE /\
         second = UnaryOp (columnStart o) (columnEnd o)
                    (tokenTypeToUnaryOpcode (type o)) (integer_of b) /\
         diagnostics = []) \/
        (tokenTypeToUnaryOpcode (type o) = UnaryOpcode.NONE /\
         second = integer_of b /\
         diagnostics = [("expected primary expression", columnStart o)]))).
Proof.
  split; [|split].
  - intros t0 k p. apply (parseCommand_mono (budget p));
      [vm_compute; reflexivity|apply budget_le_plus].
  - intros n args p Hc. rewrite parseCommand_args_S.
    destruct (decide _); [contradiction|reflexivity].
  - intros t0 name a o b z k Hn Ha Ho Hb Hz p.
    assert (Hrun := parseCommand_args_operator_between a o b z [] Ha Ho Hb Hz).
    destruct (decide _) as [Hu|Hu] in Hrun.
    + exists (integer_of b),
        [("expected primary expression", columnStart o)].
      split; [|right; auto].
      apply (parseCommand_mono 5); [|unfold budget; lia].
      unfold parseCommand. change (consumeToken p) with (mkParser name [a; o; b; z] []).
      destruct (decide _) as [_|Hn']; [|contradiction].
      change (consumeToken _) with (mkParser a [o; b; z] []).
      rewrite Hrun. reflexivity.
    + exists (UnaryOp (columnStart o) (columnEnd o)
                (tokenTypeToUnaryOpcode (type o)) (integer_of b)), [].
      split; [|left; auto].
      apply (parseCommand_mono 5); [|unfold budget; lia].
      unfold parseCommand. change (consumeToken p) with (mkParser name [a; o; b; z] []).
      destruct (decide _) as [_|Hn']; [|contradiction].
      change (consumeToken _) with (mkParser a [o; b; z] []).
      rewrite Hrun. reflexivity.
Qed.

Lemma parseCommand_arguments_unary_witness :
  (exists second diagnostics,
     parseCommand
       (budget (unprimed (Samples.eof_at 0) Samples.cmd_one_times_two) + 0)
       (unprimed (Samples.eof_at 0) Samples.cmd_one_times_two)
     = Ret (Some (mkCommandAST "cmd" 0 2
                    [integer_of (mkToken TokenType.INTEGER "1" 4 4); second]))
         (mkParser (mkToken TokenType.EOFT "" 9 9) [] diagnostics) /\
     ((tokenTypeToUnaryOpcode TokenType.STAR <> UnaryOpcode.NONE /\
       second = UnaryOp 6 6 (tokenTypeToUnaryOpcode TokenType.STAR)
                  (integer_of (mkToken TokenType.INTEGER "2" 8 8)) /\
       diagnostics = []) \/
      (tokenTypeToUnaryOpcode TokenType.STAR = UnaryOpcode.NONE /\
       second = integer_of (mkToken TokenType.INTEGER "2" 8 8) /\
       diagnostics = [("expected primary expression", 6)]))) /\
  parseCommand_args 1 []
    (Samples.facing (Samples.token_at TokenType.STAR "*" 6))
  = match
      parseUnaryOpExpr 0
        (Samples.facing (Samples.token_at TokenType.STAR "*" 6))
    with
    | OutOfFuel => OutOfFuel
    | Ret (Some arg) p1 => parseCommand_args 0 ([] ++ [arg]) p1
    | Ret None p1 => parseCommand_args 0 [] (consumeToken p1)
    end.
Proof.
  destruct parseCommand_arguments_unary as (_ & Hstep & Hgen).
  split.
  - apply (Hgen (Samples.eof_at 0)
             (mkToken TokenType.IDENTIFIER "cmd" 0 2)
             (mkToken TokenType.INTEGER "1" 4 4)
             (mkToken TokenType.STAR "*" 6 6)
             (mkToken TokenType.INTEGER "2" 8 8)
             (mkToken TokenType.EOFT "" 9 9) 0%nat);
      try reflexivity.
    vm_compute. discriminate.
  - apply (Hstep 0%nat []). discriminate.
Defined.

(** ** Every parse returns *)

(** A call that returns has advanced, whatever budget it was given. *)
Lemma parseUnaryOpExpr_advances n p r p' :
  ends_in_EOFT (pending p) = true ->
  parseUnaryOpExpr n p = Ret r p' -> advances p r p'.
Proof.
  intros He H.
  destruct (parseUnaryOpExpr_returns (Nat.max n (4 * remaining p + 3)) p He
              ltac:(lia)) as (r2 & p2 & H2 & Hadv).
  rewrite (parseUnaryOpExpr_mono n (Nat.max n (4 * remaining p + 3)) _ _ _ H
             ltac:(lia)) in H2.
  injection H2 as <- <-. exact Hadv.
Qed.

Lemma parseExpression_advances n p r p' :
  ends_in_EOFT (pending p) = true ->
  parseExpression n p = Ret r p' -> advances p r p'.
Proof.
  intros He H.
  destruct (parseExpression_returns (Nat.max n (4 * remaining p + 4)) p He
              ltac:(lia)) as (r2 & p2 & H2 & Hadv).
  rewrite (parseExpression_mono n (Nat.max n (4 * remaining p + 4)) _ _ _ H
             ltac:(lia)) in H2.
  injection H2 as <- <-. exact Hadv.
Qed.

Lemma parseBinaryOpRHS_advances n floor lhs p r p' :
  0 <= floor -> ends_in_EOFT (pending p) = true ->
  parseBinaryOpRHS n floor lhs p = Ret r p' ->
  ends_in_EOFT (pending p') = true /\ (remaining p' <= remaining p)%nat.
Proof.
  intros Hfl He H.
  destruct (termination_all (Nat.max n (4 * remaining p + 1)))
    as (_ & _ & _ & _ & Hb).
  destruct (Hb floor lhs p Hfl He ltac:(lia)) as (r2 & p2 & H2 & Hadv).
  rewrite (parseBinaryOpRHS_mono n (Nat.max n (4 * remaining p + 1))
             _ _ _ _ _ H ltac:(lia)) in H2.
  injection H2 as <- <-. exact Hadv.
Qed.

Lemma ends_in_EOFT_tail t ts :
  ends_in_EOFT (t :: ts) = true -> type t <> TokenType.EOFT ->
  ends_in_EOFT ts = true.
Proof.
  destruct ts as [|t' ts]; [|auto].
  simpl. intros H Hc. apply bool_decide_eq_true in H. contradiction.
Qed.

Lemma parseCommand_returns p :
  ends_in_EOFT (scanner p) = true ->
  exists r p', forall n, (budget p <= n)%nat -> parseCommand n p = Ret r p'.
Proof.
  destruct p as [t0 [|name ts] d]; [discriminate|]. simpl. intros He.
  unfold parseCommand, budget. simpl scanner.
  change (consumeToken (mkParser t0 (name :: ts) d))
    with (mkParser name ts d).
  destruct (decide _) as [Hn|Hn]; [|eauto].
  assert (Hne : type name <> TokenType.EOFT) by (unfold currentType in Hn;
    simpl in Hn; congruence).
  pose proof (ends_in_EOFT_tail _ _ He Hne) as He'.
  destruct ts as [|a ts]; [discriminate|].
  change (consumeToken (mkParser name (a :: ts) d)) with (mkParser a ts d).
  destruct (parseCommand_args_returns (4 * length ts + 4) []
              (mkParser a ts d) He' ltac:(unfold remaining; simpl; lia))
    as (args' & p' & H & _).
  eexists _, p'. intros n Hn'.
  rewrite (parseCommand_args_mono _ n _ _ _ _ H); [reflexivity|].
  simpl in Hn'. lia.
Qed.

(** C8.  On a token sequence that ends in an end-of-input token,
    [parseExpression] and [parseCommand] return, with a tree or absent, on
    every budget from [budget] up; every call of the expression parser that
    yields a tree has consumed at least one token, the climbing loop never
    gives tokens back, and the argument loop returns at end-of-input. *)
Theorem parse_terminates :
  (forall p, ends_in_EOFT (pending p) = true ->
     exists r p',
       (forall n, (budget p <= n)%nat -> parseExpression n p = Ret r p') /\
       (r <> None -> (remaining p' < remaining p)%nat)) /\
  (forall p, ends_in_EOFT (scanner p) = true ->
     exists r p',
       forall n, (budget p <= n)%nat -> parseCommand n p = Ret r p') /\
  (forall n p r p', ends_in_EOFT (pending p) = true ->
     parseUnaryOpExpr n p = Ret r p' ->
     r = None \/ (remaining p' < remaining p)%nat) /\
  (forall n floor lhs p r p', 0 <= floor ->
     ends_in_EOFT (pending p) = true ->
     parseBinaryOpRHS n floor lhs p = Ret r p' ->
     (remaining p' <= remaining p)%nat) /\
  (forall n args p, ends_in_EOFT (pending p) = true ->
     (budget p <= n)%nat ->
     exists args' p', parseCommand_args n args p = Ret (Some args') p' /\
       currentType p' = TokenType.EOFT).
Proof.
  split; [|split; [|split; [|split]]].
  - intros p He.
    destruct (parseExpression_returns (budget p) p He
                ltac:(unfold budget, remaining; lia))
      as (r & p' & H & _ & _ & Hlt).
    exists r, p'. split; [|exact Hlt].
    intros n Hn. exact (parseExpression_mono _ _ _ _ _ H Hn).
  - exact parseCommand_returns.
  - intros n p r p' He H.
    destruct (parseUnaryOpExpr_advances n p r p' He H) as (_ & _ & Hlt).
    destruct r; [right; apply Hlt; discriminate|left; reflexivity].
  - intros n floor lhs p r p' Hfl He H.
    exact (proj2 (parseBinaryOpRHS_advances _ _ _ _ _ _ Hfl He H)).
  - intros n args p He Hn. apply parseCommand_args_returns; [exact He|].
    unfold budget, remaining in *. lia.
Qed.

Lemma parse_terminates_witness :
  (exists r p', forall n,
     (budget (primed (Samples.eof_at 0) Samples.minus_not_seven) <= n)%nat ->
     parseExpression n (primed (Samples.eof_at 0) Samples.minus_not_seven)
     = Ret r p') /\
  (exists r p', forall n,
     (budget (unprimed (Samples.eof_at 0) Samples.cmd_minus) <= n)%nat ->
     parseCommand n (unprimed (Samples.eof_at 0) Samples.cmd_minus)
     = Ret r p') /\
  (Some (IntegerExpr 4 4 7) = None \/
   (remaining (Samples.at_end 5) <
    remaining (Samples.facing (Samples.token_at TokenType.INTEGER "7" 4)))%nat)
  /\
  (remaining (Samples.at_end 5) <= remaining (Samples.at_end 5))%nat /\
  (exists args' p',
     parseCommand_args 12 []
       (Samples.facing (Samples.token_at TokenType.INTEGER "7" 4))
     = Ret (Some args') p' /\
     currentType p' = TokenType.EOFT).
Proof.
  destruct parse_terminates as (He & Hc & Hu & Hb & Ha).
  split; [|split; [|split; [|split]]].
  - destruct (He (primed (Samples.eof_at 0) Samples.minus_not_seven))
      as (r & p' & H & _); [reflexivity|eauto].
  - apply (Hc (unprimed (Samples.eof_at 0) Samples.cmd_minus)). reflexivity.
  - apply (Hu 2%nat); [reflexivity|vm_compute; reflexivity].
  - apply (Hb 1%nat 0 (IntegerExpr 4 4 7) (Samples.at_end 5)
             (Some (IntegerExpr 4 4 7)));
      [lia|reflexivity|vm_compute; reflexivity].
  - apply (Ha 12%nat []
             (Samples.facing (Samples.token_at TokenType.INTEGER "7" 4)));
      [reflexivity|vm_compute; lia].
Defined.

(** ** Source spans *)

Lemma consumeToken_incl p : incl (pending (consumeToken p)) (pending p).
Proof.
  unfold consumeToken, pending. destruct p as [c [|t ts] d]; simpl.
  - apply incl_refl.
  - apply incl_tl, incl_refl.
Qed.

Lemma currentToken_pending p ts :
  incl (pending p) ts -> In (currentToken p) ts.
Proof. intros H. apply H. left. reflexivity. Qed.

Lemma keeps_spans_leaf ts p e :
  incl (pending p) ts -> built_from (currentToken p) e ->
  match e with UnaryOp _ _ _ _ | BinaryOp _ _ _ _ _ => False | _ => True end ->
  keeps_spans ts p (Some e) (consumeToken p).
Proof.
  intros Hin Hb Hleaf. split.
  - eapply incl_tran; [apply consumeToken_incl|exact Hin].
  - intros e' [= <-]. unfold spans_tokens.
    destruct e; try contradiction; simpl; (split; [|exact I]);
      exists (currentToken p); (split; [apply currentToken_pending; exact Hin|]);
      exact Hb.
Qed.

Lemma keeps_spans_error ts p tok msg :
  incl (pending p) ts ->
  keeps_spans ts p None (printMessage p msg (columnStart tok)).
Proof. intros Hin. split; [exact Hin|discriminate]. Qed.

Lemma spans_all (ts : list Token) (n : nat) :
  (forall p r p', incl (pending p) ts ->
     parseExpression n p = Ret r p' -> keeps_spans ts p r p') /\
  (forall p r p', incl (pending p) ts ->
     parsePrimaryExpr n p = Ret r p' -> keeps_spans ts p r p') /\
  (forall p r p', incl (pending p) ts ->
     parseParenExpr n p = Ret r p' -> keeps_spans ts p r p') /\
  (forall p r p', incl (pending p) ts ->
     parseUnaryOpExpr n p = Ret r p' -> keeps_spans ts p r p') /\
  (forall floor lhs p r p', 0 <= floor -> incl (pending p) ts ->
     spans_tokens ts lhs ->
     parseBinaryOpRHS n floor lhs p = Ret r p' -> keeps_spans ts p r p').
Proof.
  induction n as [|n (IHe & IHp & IHpa & IHu & IHb)].
  - repeat split; intros; discriminate.
  - split; [|split; [|split; [|split]]].
    + intros p r p' Hin H. rewrite parseExpression_S in H. split_call.
      * destruct (IHu _ _ _ Hin E) as (Hin1 & Hs).
        exact (IHb 0 e p0 r p' ltac:(lia) Hin1 (Hs e eq_refl) H).
      * injection H as <- <-. exact (IHu _ _ _ Hin E).
    + intros p r p' Hin H. rewrite parsePrimaryExpr_S in H.
      destruct (currentType p) eqn:Hc;
        try (injection H as <- <-; apply keeps_spans_error; exact Hin);
        try (injection H as <- <-; apply keeps_spans_leaf;
             [exact Hin|repeat split; exact Hc|exact I]).
      exact (IHpa _ _ _ Hin H).
    + intros p r p' Hin H. rewrite parseParenExpr_S in H.
      assert (Hin0 : incl (pending (consumeToken p)) ts)
        by (eapply incl_tran; [apply consumeToken_incl|exact Hin]).
      split_call.
      * destruct (IHe _ _ _ Hin0 E) as (Hin1 & Hs).
        destruct (decide _); injection H as <- <-.
        -- split; [|intros e' [= <-]; apply Hs; reflexivity].
           eapply incl_tran; [apply consumeToken_incl|exact Hin1].
        -- split; [exact Hin1|discriminate].
      * injection H as <- <-. exact (IHe _ _ _ Hin0 E).
    + intros p r p' Hin H. rewrite parseUnaryOpExpr_S in H.
      destruct (decide _) as [Hop|Hop]; [exact (IHp _ _ _ Hin H)|].
      assert (Hin0 : incl (pending (consumeToken p)) ts)
        by (eapply incl_tran; [apply consumeToken_incl|exact Hin]).
      split_call; injection H as <- <-;
        destruct (IHu _ _ _ Hin0 E) as (Hin1 & Hs);
        (split; [exact Hin1|]); [|discriminate].
      intros e' [= <-]. split; [|apply Hs; reflexivity].
      exists (currentToken p).
      split; [apply currentToken_pending; exact Hin|].
      repeat split. exact Hop.
    + intros floor lhs p r p' Hfl Hin Hlhs H.
      rewrite parseBinaryOpRHS_S in H. cbv zeta in H.
      destruct (_ <? floor) eqn:Hprec.
      { injection H as <- <-. split; [exact Hin|].
        intros e' [= <-]. exact Hlhs. }
      apply Z.ltb_ge in Hprec.
      assert (Hop : tokenTypeToBinaryOpcode (currentType p)
                    <> BinaryOpcode.NONE)
        by (apply binaryOpPrecedence_nonneg; lia).
      assert (Hin0 : incl (pending (consumeToken p)) ts)
        by (eapply incl_tran; [apply consumeToken_incl|exact Hin]).
      assert (Hnode : forall rhs, spans_tokens ts rhs ->
                spans_tokens ts
                  (BinaryOp (currentStart p) (currentEnd p)
                     (tokenTypeToBinaryOpcode (currentType p)) lhs rhs)).
      { intros rhs Hrhs. split; [|split; [exact Hlhs|exact Hrhs]].
        exists (currentToken p).
        split; [apply currentToken_pending; exact Hin|].
        repeat split. exact Hop. }
      split_call.
      2:{ injection H as <- <-. exact (IHu _ _ _ Hin0 E). }
      destruct (IHu _ _ _ Hin0 E) as (Hin1 & Hs).
      specialize (Hs e eq_refl).
      assert (Hfl1 : 0 <= binaryOpPrecedence
                           (tokenTypeToBinaryOpcode (currentType p)) + 1)
        by lia.
      destruct (_ <? _).
      * split_call.
        -- destruct (IHb _ _ _ _ _ Hfl1 Hin1 Hs E0) as (Hin2 & Hs2).
           exact (IHb _ _ _ _ _ Hfl Hin2 (Hnode _ (Hs2 _ eq_refl)) H).
        -- injection H as <- <-.
           exact (IHb _ _ _ _ _ Hfl1 Hin1 Hs E0).
      * exact (IHb _ _ _ _ _ Hfl Hin1 (Hnode _ Hs) H).
Qed.

Lemma parseCommand_args_spans ts n :
  forall args p r p',
    incl (pending p) ts -> Forall (spans_tokens ts) args ->
    parseCommand_args n args p = Ret r p' ->
    forall args', r = Some args' -> Forall (spans_tokens ts) args'.
Proof.
  induction n as [|n IH]; intros args p r p' Hin Hargs H args' Hr;
    [discriminate H|].
  rewrite parseCommand_args_S in H.
  destruct (decide _).
  - injection H as <- <-. injection Hr as <-. exact Hargs.
  - destruct (spans_all ts n) as (_ & _ & _ & Hu & _).
    split_call; destruct (Hu _ _ _ Hin E) as (Hin1 & Hs).
    + refine (IH _ _ _ _ Hin1 _ H args' Hr).
      apply Forall_app. split; [exact Hargs|].
      constructor; [apply Hs; reflexivity|constructor].
    + refine (IH _ _ _ _ _ Hargs H args' Hr).
      eapply incl_tran; [apply consumeToken_incl|exact Hin1].
Qed.

(** C7 as stated does not hold: the tokens of [1 + 2] parse to a binary
    node whose span is the column of [+] alone; it does not reach the
    operands it was parsed from, in columns 0 and 4. *)
Lemma span_misses_operands :
  parseExpression
    (budget (primed (mkToken TokenType.EOFT "" 0 0) Samples.one_plus_two))
    (primed (mkToken TokenType.EOFT "" 0 0) Samples.one_plus_two)
  = Ret (Some (BinaryOp 2 2 BinaryOpcode.ADD
                 (IntegerExpr 0 0 1) (IntegerExpr 4 4 2)))
        (mkParser (mkToken TokenType.EOFT "" 5 5) [] []) /\
  ~ every_node covers_text
      (BinaryOp 2 2 BinaryOpcode.ADD (IntegerExpr 0 0 1) (IntegerExpr 4 4 2)).
Proof.
  split; [vm_compute; reflexivity|].
  intros ((Hstart & _) & _). simpl in Hstart. lia.
Qed.

(** ** Precedence and associativity *)

Lemma tail_atoms_app tl1 tl2 :
  tail_atoms (tl1 ++ tl2) = (tail_atoms tl1 ++ tail_atoms tl2)%list.
Proof.
  induction tl1 as [|[o a] tl1 IH]; simpl; [reflexivity|].
  rewrite IH. reflexivity.
Qed.

Lemma consumeToken_onto t t' ts d :
  consumeToken (mkParser t (t' :: ts) d) = mkParser t' ts d.
Proof. reflexivity. Qed.

Lemma pending_inv p t ts :
  pending p = t :: ts -> p = mkParser t ts (errorContext p).
Proof. destruct p; simpl. intros [= -> ->]. reflexivity. Qed.

Lemma tail_then_nonempty tl (z : Token) rest :
  exists t ts, (tail_tokens tl ++ z :: rest)%list = t :: ts.
Proof. destruct tl as [|[o a] tl]; simpl; eauto. Qed.

(** The climbing loop on a chain of operators and integer literals that a
    token [z], not a binary operator, ends: it takes a prefix of the chain,
    stops in front of an operator below its floor, keeps the operands and
    operators in their order and groups them by precedence. *)
Lemma parseBinaryOpRHS_chain (z : Token) (rest : list Token) :
  tokenTypeToBinaryOpcode (type z) = BinaryOpcode.NONE ->
  forall n tl floor lhs p,
    well_formed_tail tl -> 0 <= floor ->
    pending p = (tail_tokens tl ++ z :: rest)%list ->
    well_grouped lhs = true ->
    binds_at_least
      (binaryOpPrecedence (tokenTypeToBinaryOpcode (currentType p))) lhs
      = true ->
    (length tl + 2 <= n)%nat ->
    exists tl1 tl2 t p',
      tl = (tl1 ++ tl2)%list /\
      parseBinaryOpRHS n floor lhs p = Ret (Some t) p' /\
      pending p' = (tail_tokens tl2 ++ z :: rest)%list /\
      errorContext p' = errorContext p /\
      inorder t = (inorder lhs ++ tail_atoms tl1)%list /\
      well_grouped t = true /\
      binaryOpPrecedence (tokenTypeToBinaryOpcode (currentType p')) < floor /\
      (t = lhs \/ binds_at_least floor t = true).
Proof.
  intros Hz. induction n as [|n IH];
    intros tl floor lhs p Htl Hfl Hpend Hwg Hb Hn; [lia|].
  rewrite parseBinaryOpRHS_S. cbv zeta.
  destruct (_ <? floor) eqn:Hprec.
  { apply Z.ltb_lt in Hprec. exists [], tl, lhs, p.
    rewrite app_nil_r. repeat (split; auto). }
  apply Z.ltb_ge in Hprec.
  destruct tl as [|[o a] tl'].
  { apply pending_inv in Hpend. rewrite Hpend in Hprec.
    unfold currentType in Hprec. simpl in Hprec.
    rewrite Hz, binaryOpPrecedence_NONE in Hprec. lia. }
  inversion Htl as [|? ? [Ho Ha] Htl']; subst. simpl in Ho, Ha.
  simpl in Hn.
  destruct (tail_then_nonempty tl' z rest) as (t1 & ts1 & Hnext).
  assert (Hp1 : forall d, pending (mkParser t1 ts1 d)
                          = (tail_tokens tl' ++ z :: rest)%list)
    by (intros d; symmetry; exact Hnext).
  simpl in Hpend. rewrite Hnext in Hpend. apply pending_inv in Hpend.
  set (d := errorContext p) in *. clearbody d. subst p.
  rewrite consumeToken_onto.
  change (currentType (mkParser o (a :: t1 :: ts1) d)) with (type o) in *.
  change (currentStart (mkParser o (a :: t1 :: ts1) d)) with (columnStart o).
  change (currentEnd (mkParser o (a :: t1 :: ts1) d)) with (columnEnd o).
  change (errorContext (mkParser o (a :: t1 :: ts1) d)) with d.
  destruct n as [|[|n']]; [lia|lia|].
  rewrite parseUnaryOpExpr_integer by exact Ha.
  rewrite consumeToken_onto.
  change (currentToken (mkParser a (t1 :: ts1) d)) with a.
  specialize (Hp1 d).
  set (po := binaryOpPrecedence (tokenTypeToBinaryOpcode (type o))) in *.
  set (node := BinaryOp (columnStart o) (columnEnd o)
                 (tokenTypeToBinaryOpcode (type o)) lhs).
  destruct (po <? _) eqn:Hnp.
  - apply Z.ltb_lt in Hnp.
    destruct (IH tl' (po + 1) (integer_of a) (mkParser t1 ts1 d) Htl'
                ltac:(lia) Hp1 eq_refl eq_refl ltac:(lia))
      as (tl1 & tl2 & rhs & p2 & -> & -> & Hp2 & Hd2 & Hin2 & Hwg2 & Hlt2
          & Hroot2).
    apply Forall_app in Htl' as (Htl1 & Htl2).
    rewrite length_app in Hn.
    destruct (IH tl2 floor (node rhs) p2 Htl2 Hfl Hp2) as
      (tl3 & tl4 & t & p3 & -> & -> & Hp3 & Hd3 & Hin3 & Hwg3 & Hlt3 & Hroot3).
    + simpl. fold po. rewrite Hb, Hwg, Hwg2.
      destruct Hroot2 as [-> | ->]; reflexivity.
    + simpl. fold po. apply Z.leb_le. lia.
    + lia.
    + exists ((o, a) :: tl1 ++ tl3)%list, tl4, t, p3.
      split; [simpl; rewrite <- app_assoc; reflexivity|].
      split; [reflexivity|]. split; [exact Hp3|].
      split; [rewrite Hd3, Hd2; reflexivity|].
      split.
      { rewrite Hin3. simpl. rewrite Hin2, tail_atoms_app. simpl.
        rewrite <- !app_assoc. reflexivity. }
      split; [exact Hwg3|]. split; [exact Hlt3|].
      right. destruct Hroot3 as [->|H3]; [|exact H3].
      simpl. fold po. apply Z.leb_le. lia.
  - apply Z.ltb_ge in Hnp.
    destruct (IH tl' floor (node (integer_of a)) (mkParser t1 ts1 d) Htl' Hfl
                Hp1) as
      (tl3 & tl4 & t & p3 & -> & -> & Hp3 & Hd3 & Hin3 & Hwg3 & Hlt3 & Hroot3).
    + simpl. fold po. rewrite Hb, Hwg. reflexivity.
    + simpl. fold po. apply Z.leb_le. exact Hnp.
    + lia.
    + exists ((o, a) :: tl3)%list, tl4, t, p3.
      split; [reflexivity|].
      split; [reflexivity|]. split; [exact Hp3|].
      split; [exact Hd3|].
      split.
      { rewrite Hin3. simpl. rewrite <- !app_assoc. reflexivity. }
      split; [exact Hwg3|]. split; [exact Hlt3|].
      right. destruct Hroot3 as [->|H3]; [|exact H3].
      simpl. fold po. apply Z.leb_le. lia.
Qed.

Lemma tail_tokens_length tl :
  length (tail_tokens tl) = (2 * length tl)%nat.
Proof. induction tl as [|[o a] tl IH]; simpl; lia. Qed.

Lemma chain_budget a0 tl z rest d k :
  (length tl + 3 <=
   budget (mkParser a0 (tail_tokens tl ++ z :: rest) d) + k)%nat.
Proof.
  unfold budget. simpl. rewrite length_app, tail_tokens_length. simpl. lia.
Qed.

(** [parseExpression] on a whole chain. *)
Lemma parseExpression_chain a0 tl z rest d n :
  type a0 = TokenType.INTEGER -> well_formed_tail tl ->
  tokenTypeToBinaryOpcode (type z) = BinaryOpcode.NONE ->
  (length tl + 3 <= n)%nat ->
  exists t,
    parseExpression n (mkParser a0 (tail_tokens tl ++ z :: rest) d)
      = Ret (Some t) (mkParser z rest d) /\
    inorder t = Operand (integer_of a0) :: tail_atoms tl /\
    well_grouped t = true.
Proof.
  intros Ha Htl Hz Hn.
  destruct n as [|[|[|n]]]; try lia.
  rewrite parseExpression_S, parseUnaryOpExpr_integer by exact Ha.
  destruct (tail_then_nonempty tl z rest) as (t1 & ts1 & Hnext).
  rewrite Hnext, consumeToken_onto.
  change (currentToken (mkParser a0 (t1 :: ts1) d)) with a0.
  destruct (parseBinaryOpRHS_chain z rest Hz (S (S n)) tl 0 (integer_of a0)
              (mkParser t1 ts1 d) Htl ltac:(lia)
              ltac:(symmetry; exact Hnext) eq_refl eq_refl ltac:(lia))
    as (tl1 & tl2 & t & p' & -> & Hrun & Hp' & Hd' & Hin & Hwg & Hlt & _).
  destruct tl2 as [|[o a] tl2].
  - simpl in Hp'. apply pending_inv in Hp'. rewrite Hd' in Hp'.
    simpl in Hp'. subst p'. exists t. rewrite app_nil_r.
    split; [exact Hrun|]. split; [exact Hin|exact Hwg].
  - exfalso. apply Forall_app in Htl as (_ & Htl2).
    inversion Htl2 as [|? ? [Ho _] _]; subst. simpl in Ho, Hp'.
    apply pending_inv in Hp'. rewrite Hp' in Hlt.
    unfold currentType in Hlt. simpl in Hlt.
    pose proof (binaryOpPrecedence_real _ Ho). lia.
Qed.

Lemma parseBinaryOpRHS_same_precedence z rest q floor :
  tokenTypeToBinaryOpcode (type z) = BinaryOpcode.NONE ->
  0 <= floor <= q ->
  forall tl n lhs p,
    same_precedence q tl ->
    pending p = (tail_tokens tl ++ z :: rest)%list ->
    (length tl + 2 <= n)%nat ->
    parseBinaryOpRHS n floor lhs p =
      Ret (Some (left_nested lhs tl)) (mkParser z rest (errorContext p)).
Proof.
  intros Hz Hfl. induction tl as [|[o a] tl IH]; intros n lhs p Htl Hp Hn.
  - simpl in Hp. apply pending_inv in Hp. rewrite Hp.
    destruct n as [|n]; [simpl in Hn; lia|].
    rewrite parseBinaryOpRHS_S. cbv zeta.
    change (currentType (mkParser z rest _)) with (type z).
    rewrite Hz, binaryOpPrecedence_NONE.
    replace (-1 <? floor) with true by (symmetry; apply Z.ltb_lt; lia).
    reflexivity.
  - pose proof (Forall_inv Htl) as [Ho Ha].
    pose proof (Forall_inv_tail Htl) as Htl'. simpl in Ho, Ha, Hn.
    destruct (tail_then_nonempty tl z rest) as (t1 & ts1 & Hnext).
    assert (Ht1 : binaryOpPrecedence (tokenTypeToBinaryOpcode (type t1))
                  <= binaryOpPrecedence (tokenTypeToBinaryOpcode (type o))).
    { destruct tl as [|[o' a'] tl]; simpl in Hnext;
        injection Hnext as <- _.
      - rewrite Hz, binaryOpPrecedence_NONE. lia.
      - pose proof (Forall_inv Htl') as [Ho' _]. simpl in Ho'. lia. }
    simpl in Hp. rewrite Hnext in Hp. apply pending_inv in Hp.
    set (d := errorContext p) in *. clearbody d. subst p.
    destruct n as [|[|[|n]]]; try lia.
    rewrite parseBinaryOpRHS_S. cbv zeta.
    change (currentType (mkParser o (a :: t1 :: ts1) d)) with (type o).
    replace (_ <? floor) with false by (symmetry; apply Z.ltb_ge; lia).
    rewrite consumeToken_onto, parseUnaryOpExpr_integer by exact Ha.
    rewrite consumeToken_onto.
    change (currentType (mkParser t1 ts1 d)) with (type t1).
    replace (_ <? _) with false by (symmetry; apply Z.ltb_ge; lia).
    rewrite (IH (S (S n)) _ (mkParser t1 ts1 d) Htl'
               ltac:(symmetry; exact Hnext) ltac:(lia)).
    reflexivity.
Qed.

Lemma parseExpression_same_precedence a0 tl z rest d q n :
  type a0 = TokenType.INTEGER -> same_precedence q tl ->
  tokenTypeToBinaryOpcode (type z) = BinaryOpcode.NONE ->
  0 <= q -> (length tl + 3 <= n)%nat ->
  parseExpression n (mkParser a0 (tail_tokens tl ++ z :: rest) d)
    = Ret (Some (left_nested (integer_of a0) tl)) (mkParser z rest d).
Proof.
  intros Ha Htl Hz Hq Hn.
  destruct n as [|[|[|n]]]; try lia.
  rewrite parseExpression_S, parseUnaryOpExpr_integer by exact Ha.
  destruct (tail_then_nonempty tl z rest) as (t1 & ts1 & Hnext).
  rewrite Hnext, consumeToken_onto.
  rewrite (parseBinaryOpRHS_same_precedence z rest q 0 Hz ltac:(lia) tl
             (S (S n)) _ (mkParser t1 ts1 d) Htl
             ltac:(symmetry; exact Hnext) ltac:(lia)).
  reflexivity.
Qed.

(** *** The grouping is determined by the precedences *)

Lemma operators_at_least_weaken q q' l :
  q' <= q -> operators_at_least q l -> operators_at_least q' l.
Proof.
  intros Hq H. induction H as [|x l Hx _ IH]; constructor; [|exact IH].
  destruct x; [exact I|lia].
Qed.

(** In a well-grouped tree no operator binds less tightly than the root. *)
Lemma well_grouped_operators e :
  well_grouped e = true ->
  forall q, binds_at_least q e = true -> operators_at_least q (inorder e).
Proof.
  induction e as [| | | | | |s e' op lhs IHl rhs IHr]; intros Hwg q Hq;
    try (repeat constructor).
  simpl in Hwg, Hq. apply Z.leb_le in Hq.
  apply andb_prop in Hwg as (Hwg & Hwr).
  apply andb_prop in Hwg as (Hwg & Hwl).
  apply andb_prop in Hwg as (Hbl & Hbr).
  simpl. apply Forall_app. split; [|constructor].
  - apply (operators_at_least_weaken (binaryOpPrecedence op)); [lia|].
    apply IHl; assumption.
  - exact Hq.
  - apply (operators_at_least_weaken (binaryOpPrecedence op + 1)); [lia|].
    apply IHr; assumption.
Qed.

Lemma split_at_two_points {A} (l1 r1 l2 r2 : list A) (x y : A) :
  (l1 ++ x :: r1 = l2 ++ y :: r2)%list ->
  (l1 = l2 /\ x = y /\ r1 = r2) \/
  (exists m, l2 = (l1 ++ x :: m)%list /\ r1 = (m ++ y :: r2)%list) \/
  (exists m, l1 = (l2 ++ y :: m)%list /\ r2 = (m ++ x :: r1)%list).
Proof.
  revert l2. induction l1 as [|a l1 IH]; intros [|b l2] H; simpl in H.
  - injection H as -> ->. left. auto.
  - injection H as -> ->. right. left. exists l2. auto.
  - injection H as -> <-. right. right. exists l1. auto.
  - injection H as -> H.
    destruct (IH l2 H) as [(-> & -> & ->)|[(m & -> & ->)|(m & -> & ->)]].
    + left. auto.
    + right. left. exists m. auto.
    + right. right. exists m. auto.
Qed.

Lemma inorder_nonempty e : (1 <= length (inorder e))%nat.
Proof.
  destruct e; simpl; try lia. rewrite length_app. simpl. lia.
Qed.

Lemma inorder_singleton e x :
  inorder e = [x] ->
  match e with BinaryOp _ _ _ _ _ => False | _ => True end.
Proof.
  destruct e; simpl; auto. intros H.
  assert (Hlen : length (inorder e1 ++ Operator start end_ op :: inorder e2)
                 = 1%nat) by (rewrite H; reflexivity).
  rewrite length_app in Hlen. simpl in Hlen.
  pose proof (inorder_nonempty e1). lia.
Qed.

Lemma operators_at_least_middle q l x r :
  operators_at_least q (l ++ x :: r) ->
  match x with
  | Operator _ _ op => q <= binaryOpPrecedence op
  | Operand _ => True
  end.
Proof.
  intros H. apply Forall_app in H as (_ & H). exact (Forall_inv H).
Qed.

(** Two well-grouped trees that read the same from left to right are the
    same tree. *)
Lemma well_grouped_unique e1 :
  forall e2,
    well_grouped e1 = true -> well_grouped e2 = true ->
    inorder e1 = inorder e2 -> e1 = e2.
Proof.
  induction e1 as [| | | | | |s1 f1 op1 l1 IHl r1 IHr]; intros e2 H1 H2 Hin;
    try (simpl in Hin; symmetry in Hin;
         pose proof (inorder_singleton _ _ Hin) as Hleaf;
         destruct e2; try contradiction; simpl in Hin; congruence).
  destruct e2 as [| | | | | |s2 f2 op2 l2 r2];
    try (pose proof (inorder_singleton _ _ Hin) as Hleaf; contradiction).
  simpl in H1, H2.
  apply andb_prop in H1 as (H1 & Hwr1). apply andb_prop in H1 as (H1 & Hwl1).
  apply andb_prop in H1 as (Hbl1 & Hbr1).
  apply andb_prop in H2 as (H2 & Hwr2). apply andb_prop in H2 as (H2 & Hwl2).
  apply andb_prop in H2 as (Hbl2 & Hbr2).
  pose proof (well_grouped_operators _ Hwl1 _ Hbl1) as Ol1.
  pose proof (well_grouped_operators _ Hwr1 _ Hbr1) as Or1.
  pose proof (well_grouped_operators _ Hwl2 _ Hbl2) as Ol2.
  pose proof (well_grouped_operators _ Hwr2 _ Hbr2) as Or2.
  simpl in Hin.
  destruct (split_at_two_points _ _ _ _ _ _ Hin)
    as [(Hl & Hop & Hr)|[(m & Hl & Hr)|(m & Hl & Hr)]].
  - injection Hop as -> -> ->.
    rewrite (IHl l2 Hwl1 Hwl2 Hl), (IHr r2 Hwr1 Hwr2 Hr). reflexivity.
  - exfalso. rewrite Hl in Ol2. rewrite Hr in Or1.
    apply operators_at_least_middle in Ol2, Or1. lia.
  - exfalso. rewrite Hl in Ol1. rewrite Hr in Or2.
    apply operators_at_least_middle in Ol1, Or2. lia.
Qed.

(** Three integer literals and two operators: the tighter operator is
    grouped first, and the left one on equal precedence. *)
Lemma parseExpression_three a o1 b o2 c z rest d n :
  type a = TokenType.INTEGER -> type b = TokenType.INTEGER ->
  type c = TokenType.INTEGER ->
  tokenTypeToBinaryOpcode (type o1) <> BinaryOpcode.NONE ->
  tokenTypeToBinaryOpcode (type o2) <> BinaryOpcode.NONE ->
  tokenTypeToBinaryOpcode (type z) = BinaryOpcode.NONE ->
  (5 <= n)%nat ->
  parseExpression n (mkParser a (o1 :: b :: o2 :: c :: z :: rest) d) =
  Ret (Some
         (if binaryOpPrecedence (tokenTypeToBinaryOpcode (type o1))
             <? binaryOpPrecedence (tokenTypeToBinaryOpcode (type o2))
          then binary_of o1 (integer_of a)
                 (binary_of o2 (integer_of b) (integer_of c))
          else binary_of o2
                 (binary_of o1 (integer_of a) (integer_of b))
                 (integer_of c)))
      (mkParser z rest d).
Proof.
  intros Ha Hb Hc Ho1 Ho2 Hz Hn.
  destruct (parseExpression_chain a [(o1, b); (o2, c)] z rest d n Ha)
    as (t & Hrun & Hin & Hwg); auto.
  { repeat constructor; assumption. }
  simpl in Hrun. rewrite Hrun. do 2 f_equal.
  apply well_grouped_unique; [exact Hwg| |].
  - destruct (_ <? _) eqn:Hlt; simpl; rewrite ?andb_true_r.
    + apply Z.leb_le. apply Z.ltb_lt in Hlt. lia.
    + apply Z.leb_le. apply Z.ltb_ge in Hlt. lia.
  - rewrite Hin. destruct (_ <? _); reflexivity.
Qed.

(** C1.  The tokens of [2 + 3 * 4] parse to
    ADD(Integer(2), MULTIPLY(Integer(3), Integer(4))) and those of
    [1 - 2 - 3] to SUBTRACT(SUBTRACT(Integer(1), Integer(2)), Integer(3)).
    For every sequence of integer literals joined by binary operators (and
    ended by a token that is no binary operator, such as end-of-input) the
    expression parser returns a tree that reads, from left to right, as the
    sequence itself, in which an operator under the right of another binds
    strictly tighter and one under the left binds at least as tightly; it is
    the only such tree.  In particular, of two operators the tighter one is
    grouped first and the left one when they bind alike, and a chain of
    operators of one precedence is nested to the left. *)
Theorem precedence_climbing_groups :
  (forall t0 k,
     let p := primed t0 Samples.two_plus_three_times_four in
     parseExpression (budget p + k) p =
       Ret (Some (BinaryOp 2 2 BinaryOpcode.ADD (IntegerExpr 0 0 2)
                    (BinaryOp 6 6 BinaryOpcode.MULTIPLY
                       (IntegerExpr 4 4 3) (IntegerExpr 8 8 4))))
           (mkParser (mkToken TokenType.EOFT "" 9 9) [] [])) /\
  (forall t0 k,
     let p := primed t0 Samples.one_minus_two_minus_three in
     parseExpression (budget p + k) p =
       Ret (Some (BinaryOp 6 6 BinaryOpcode.SUBTRACT
                    (BinaryOp 2 2 BinaryOpcode.SUBTRACT
                       (IntegerExpr 0 0 1) (IntegerExpr 4 4 2))
                    (IntegerExpr 8 8 3)))
           (mkParser (mkToken TokenType.EOFT "" 9 9) [] [])) /\
  (forall a0 tl z rest d k,
     type a0 = TokenType.INTEGER -> well_formed_tail tl ->
     tokenTypeToBinaryOpcode (type z) = BinaryOpcode.NONE ->
     let p := mkParser a0 (tail_tokens tl ++ z :: rest) d in
     exists t,
       parseExpression (budget p + k) p = Ret (Some t) (mkParser z rest d) /\
       inorder t = Operand (integer_of a0) :: tail_atoms tl /\
       well_grouped t = true /\
       (forall t', well_grouped t' = true -> inorder t' = inorder t ->
                   t' = t)) /\
  (forall a o1 b o2 c z rest d k,
     type a = TokenType.INTEGER -> type b = TokenType.INTEGER ->
     type c = TokenType.INTEGER ->
     tokenTypeToBinaryOpcode (type o1) <> BinaryOpcode.NONE ->
     tokenTypeToBinaryOpcode (type o2) <> BinaryOpcode.NONE ->
     tokenTypeToBinaryOpcode (type z) = BinaryOpcode.NONE ->
     let p := mkParser a (o1 :: b :: o2 :: c :: z :: rest) d in
     parseExpression (budget p + k) p =
     Ret (Some
            (if binaryOpPrecedence (tokenTypeToBinaryOpcode (type o1))
                <? binaryOpPrecedence (tokenTypeToBinaryOpcode (type o2))
             then binary_of o1 (integer_of a)
                    (binary_of o2 (integer_of b) (integer_of c))
             else binary_of o2
                    (binary_of o1 (integer_of a) (integer_of b))
                    (integer_of c)))
         (mkParser z rest d)) /\
  (forall a0 tl z rest d q k,
     type a0 = TokenType.INTEGER -> same_precedence q tl -> 0 <= q ->
     tokenTypeToBinaryOpcode (type z) = BinaryOpcode.NONE ->
     let p := mkParser a0 (tail_tokens tl ++ z :: rest) d in
     parseExpression (budget p + k) p =
       Ret (Some (left_nested (integer_of a0) tl)) (mkParser z rest d)).
Proof.
  split; [|split; [|split; [|split]]].
  - intros t0 k p. apply (parseExpression_mono (budget p));
      [vm_compute; reflexivity|apply budget_le_plus].
  - intros t0 k p. apply (parseExpression_mono (budget p));
      [vm_compute; reflexivity|apply budget_le_plus].
  - intros a0 tl z rest d k Ha Htl Hz p.
    destruct (parseExpression_chain a0 tl z rest d (budget p + k) Ha Htl Hz
                (chain_budget a0 tl z rest d k)) as (t & Hrun & Hin & Hwg).
    exists t. repeat (split; [assumption|]).
    intros t' Hwg' Hin'. apply well_grouped_unique; assumption.
  - intros a o1 b o2 c z rest d k Ha Hb Hc Ho1 Ho2 Hz p.
    apply parseExpression_three; try assumption.
    unfold p, budget. simpl. lia.
  - intros a0 tl z rest d q k Ha Htl Hq Hz p.
    apply (parseExpression_same_precedence a0 tl z rest d q); try assumption.
    apply chain_budget.
Qed.

Lemma precedence_climbing_groups_witness :
  (exists t,
     parseExpression
       (budget
          (mkParser Samples.first_2
             (tail_tokens [(Samples.times_at_2, Samples.then_3);
                           (Samples.plus_at_6, Samples.then_4)]
              ++ [Samples.eof_at 9]) []) + 0)
       (mkParser Samples.first_2
          (tail_tokens [(Samples.times_at_2, Samples.then_3);
                        (Samples.plus_at_6, Samples.then_4)]
           ++ [Samples.eof_at 9]) [])
     = Ret (Some t) (Samples.at_end 9) /\
     inorder t =
       Operand (integer_of Samples.first_2)
       :: tail_atoms [(Samples.times_at_2, Samples.then_3);
                      (Samples.plus_at_6, Samples.then_4)] /\
     well_grouped t = true /\
     (forall t', well_grouped t' = true -> inorder t' = inorder t ->
                 t' = t)) /\
  parseExpression
    (budget
       (mkParser Samples.first_2
          [Samples.times_at_2; Samples.then_3; Samples.plus_at_6;
           Samples.then_4; Samples.eof_at 9] []) + 0)
    (mkParser Samples.first_2
       [Samples.times_at_2; Samples.then_3; Samples.plus_at_6;
        Samples.then_4; Samples.eof_at 9] [])
  = Ret (Some
           (if binaryOpPrecedence
                 (tokenTypeToBinaryOpcode (type Samples.times_at_2))
               <? binaryOpPrecedence
                    (tokenTypeToBinaryOpcode (type Samples.plus_at_6))
            then binary_of Samples.times_at_2 (integer_of Samples.first_2)
                   (binary_of Samples.plus_at_6 (integer_of Samples.then_3)
                      (integer_of Samples.then_4))
            else binary_of Samples.plus_at_6
                   (binary_of Samples.times_at_2 (integer_of Samples.first_2)
                      (integer_of Samples.then_3))
                   (integer_of Samples.then_4)))
      (Samples.at_end 9) /\
  parseExpression
    (budget
       (mkParser Samples.first_2
          (tail_tokens [(Samples.plus_at_2, Samples.then_3);
                        (Samples.plus_at_6, Samples.then_4)]
           ++ [Samples.eof_at 9]) []) + 0)
    (mkParser Samples.first_2
       (tail_tokens [(Samples.plus_at_2, Samples.then_3);
                     (Samples.plus_at_6, Samples.then_4)]
        ++ [Samples.eof_at 9]) [])
  = Ret (Some (left_nested (integer_of Samples.first_2)
                 [(Samples.plus_at_2, Samples.then_3);
                  (Samples.plus_at_6, Samples.then_4)]))
      (Samples.at_end 9).
Proof.
  destruct precedence_climbing_groups as (_ & _ & Hgen & Hthree & Hsame).
  split; [|split].
  - apply (Hgen Samples.first_2
             [(Samples.times_at_2, Samples.then_3);
              (Samples.plus_at_6, Samples.then_4)]
             (Samples.eof_at 9) [] [] 0%nat).
    + reflexivity.
    + repeat constructor; vm_compute; discriminate.
    + vm_compute. reflexivity.
  - apply (Hthree Samples.first_2 Samples.times_at_2 Samples.then_3
             Samples.plus_at_6 Samples.then_4 (Samples.eof_at 9) [] [] 0%nat);
      try reflexivity; vm_compute; discriminate.
  - apply (Hsame Samples.first_2
             [(Samples.plus_at_2, Samples.then_3);
              (Samples.plus_at_6, Samples.then_4)]
             (Samples.eof_at 9) [] [] 600 0%nat).
    + reflexivity.
    + repeat constructor; vm_compute; reflexivity.
    + lia.
    + vm_compute. reflexivity.
Defined.

(** * Further properties of the parser *)

(** ** One failure, one diagnostic *)

(** X1.  A call of any of the five expression-parsing functions that yields
    a tree adds nothing to the error context, and a call that fails adds
    exactly one message: the first failure is reported where it is
    detected and no enclosing call reports it again. *)
Theorem one_diagnostic_per_failure (n : nat) :
  (forall p r p', parseExpression n p = Ret r p' -> reports p r p') /\
  (forall p r p', parsePrimaryExpr n p = Ret r p' -> reports p r p') /\
  (forall p r p', parseParenExpr n p = Ret r p' -> reports p r p') /\
  (forall p r p', parseUnaryOpExpr n p = Ret r p' -> reports p r p') /\
  (forall floor lhs p r p',
     parseBinaryOpRHS n floor lhs p = Ret r p' -> reports p r p').
Proof. exact (reports_all n). Qed.

Lemma one_diagnostic_per_failure_witness :
  reports (primed (Samples.eof_at 0) Samples.open_one_plus_two)
    (@None ExprAST)
    (mkParser (Samples.eof_at 8) [] [("unmatched parentheses", 2)]) /\
  reports (primed (Samples.eof_at 0) Samples.one_plus_two)
    (Some (BinaryOp 2 2 BinaryOpcode.ADD
             (IntegerExpr 0 0 1) (IntegerExpr 4 4 2)))
    (Samples.at_end 5).
Proof.
  destruct (one_diagnostic_per_failure 28) as (He & _).
  split.
  - apply (He (primed (Samples.eof_at 0) Samples.open_one_plus_two)).
    vm_compute. reflexivity.
  - apply (He (primed (Samples.eof_at 0) Samples.one_plus_two)).
    vm_compute. reflexivity.
Defined.

(** ** The cursor only moves forward *)

Lemma moves_forward_refl p : moves_forward p p.
Proof. exists []. reflexivity. Qed.

Lemma moves_forward_consume p : moves_forward p (consumeToken p).
Proof.
  destruct p as [c [|t ts] d].
  - exists []. reflexivity.
  - exists [c]. reflexivity.
Qed.

Lemma moves_forward_trans p p1 p2 :
  moves_forward p p1 -> moves_forward p1 p2 -> moves_forward p p2.
Proof.
  intros (c1 & H1) (c2 & H2). exists (c1 ++ c2)%list.
  rewrite H1, H2, app_assoc. reflexivity.
Qed.

Lemma forward_all (n : nat) :
  (forall p r p', parseExpression n p = Ret r p' -> moves_forward p p') /\
  (forall p r p', parsePrimaryExpr n p = Ret r p' -> moves_forward p p') /\
  (forall p r p', parseParenExpr n p = Ret r p' -> moves_forward p p') /\
  (forall p r p', parseUnaryOpExpr n p = Ret r p' -> moves_forward p p') /\
  (forall floor lhs p r p',
     parseBinaryOpRHS n floor lhs p = Ret r p' -> moves_forward p p').
Proof.
  induction n as [|n (IHe & IHp & IHpa & IHu & IHb)].
  - repeat split; intros; discriminate.
  - split; [|split; [|split; [|split]]].
    + intros p r p' H. rewrite parseExpression_S in H. split_call.
      * eapply moves_forward_trans;
          [exact (IHu _ _ _ E)|exact (IHb _ _ _ _ _ H)].
      * injection H as <- <-. exact (IHu _ _ _ E).
    + intros p r p' H. rewrite parsePrimaryExpr_S in H.
      destruct (currentType p);
        try (injection H as <- <-;
             solve [apply moves_forward_consume
                   |apply (moves_forward_refl p)]).
      exact (IHpa _ _ _ H).
    + intros p r p' H. rewrite parseParenExpr_S in H.
      pose proof (moves_forward_consume p) as Hc.
      split_call.
      * pose proof (moves_forward_trans _ _ _ Hc (IHe _ _ _ E)) as H1.
        destruct (decide _); injection H as <- <-.
        -- eapply moves_forward_trans;
             [exact H1|apply moves_forward_consume].
        -- exact H1.
      * injection H as <- <-.
        eapply moves_forward_trans; [exact Hc|exact (IHe _ _ _ E)].
    + intros p r p' H. rewrite parseUnaryOpExpr_S in H.
      destruct (decide _); [exact (IHp _ _ _ H)|].
      pose proof (moves_forward_consume p) as Hc.
      split_call; injection H as <- <-;
        (eapply moves_forward_trans; [exact Hc|exact (IHu _ _ _ E)]).
    + intros floor lhs p r p' H.
      rewrite parseBinaryOpRHS_S in H. cbv zeta in H.
      destruct (_ <? floor); [injection H as <- <-; apply moves_forward_refl|].
      pose proof (moves_forward_consume p) as Hc.
      split_call.
      2:{ injection H as <- <-.
          eapply moves_forward_trans; [exact Hc|exact (IHu _ _ _ E)]. }
      pose proof (moves_forward_trans _ _ _ Hc (IHu _ _ _ E)) as H1.
      destruct (_ <? _).
      * split_call.
        -- pose proof (moves_forward_trans _ _ _ H1 (IHb _ _ _ _ _ E0)) as H2.
           eapply moves_forward_trans; [exact H2|exact (IHb _ _ _ _ _ H)].
        -- injection H as <- <-.
           eapply moves_forward_trans; [exact H1|exact (IHb _ _ _ _ _ E0)].
      * eapply moves_forward_trans; [exact H1|exact (IHb _ _ _ _ _ H)].
Qed.

Lemma parseCommand_args_forward n :
  forall args p r p',
    parseCommand_args n args p = Ret r p' -> moves_forward p p'.
Proof.
  induction n as [|n IH]; intros args p r p' H; [discriminate H|].
  rewrite parseCommand_args_S in H.
  destruct (decide _); [injection H as <- <-; apply moves_forward_refl|].
  destruct (forward_all n) as (_ & _ & _ & Hu & _).
  split_call.
  - eapply moves_forward_trans; [exact (Hu _ _ _ E)|exact (IH _ _ _ _ H)].
  - eapply moves_forward_trans; [exact (Hu _ _ _ E)|].
    eapply moves_forward_trans;
      [apply moves_forward_consume|exact (IH _ _ _ _ H)].
Qed.

(** X2.  The parser reads its tokens once and in order: whatever any
    parsing function or [parseCommand] returns, the tokens still in front of
    the parser afterwards are a suffix of those that were in front of it
    before; no token is put back, skipped over and revisited, or read
    twice. *)
Theorem cursor_moves_forward (n : nat) :
  (forall p r p', parseExpression n p = Ret r p' ->
     exists consumed, pending p = (consumed ++ pending p')%list) /\
  (forall p r p', parseUnaryOpExpr n p = Ret r p' ->
     exists consumed, pending p = (consumed ++ pending p')%list) /\
  (forall floor lhs p r p', parseBinaryOpRHS n floor lhs p = Ret r p' ->
     exists consumed, pending p = (consumed ++ pending p')%list) /\
  (forall p r p', parseCommand n p = Ret r p' ->
     exists consumed, pending p = (consumed ++ pending p')%list).
Proof.
  destruct (forward_all n) as (He & _ & _ & Hu & Hb).
  split; [exact He|split; [exact Hu|split; [exact Hb|]]].
  intros p r p' H. unfold parseCommand in H.
  pose proof (moves_forward_consume p) as H1.
  destruct (decide _).
  - pose proof (moves_forward_trans _ _ _ H1
                  (moves_forward_consume (consumeToken p))) as H2.
    destruct (parseCommand_args n _ _) as [|[a|] p1] eqn:E;
      try discriminate H; injection H as <- <-;
      exact (moves_forward_trans _ _ _ H2
               (parseCommand_args_forward _ _ _ _ _ E)).
  - injection H as <- <-. exact H1.
Qed.

Lemma cursor_moves_forward_witness :
  exists consumed,
    pending (unprimed (Samples.eof_at 0) Samples.cmd_one_at_two)
    = (consumed ++ pending (mkParser (Samples.eof_at 9) []
                              [("invalid character in input", 6)]))%list.
Proof.
  destruct (cursor_moves_forward 28) as (_ & _ & _ & Hc).
  apply (Hc (unprimed (Samples.eof_at 0) Samples.cmd_one_at_two)
           (Some (mkCommandAST "cmd" 0 2
                    [IntegerExpr 4 4 1; IntegerExpr 8 8 2]))).
  vm_compute. reflexivity.
Defined.

(** ** Where the climbing loop stops *)

Lemma negative_precedence_NONE op :
  binaryOpPrecedence op < 0 -> op = BinaryOpcode.NONE.
Proof.
  intros H. destruct (decide (op = BinaryOpcode.NONE)) as [|Hop]; [assumption|].
  pose proof (binaryOpPrecedence_real op Hop). lia.
Qed.

Lemma parseBinaryOpRHS_stops n :
  forall floor lhs p t p',
    0 <= floor ->
    parseBinaryOpRHS n floor lhs p = Ret (Some t) p' ->
    binaryOpPrecedence (tokenTypeToBinaryOpcode (currentType p')) < floor /\
    (t = lhs /\ p' = p \/ root_at_least floor t).
Proof.
  induction n as [|n IH]; intros floor lhs p t p' Hfl H; [discriminate H|].
  rewrite parseBinaryOpRHS_S in H. cbv zeta in H.
  destruct (_ <? floor) eqn:Hprec.
  { injection H as <- <-. apply Z.ltb_lt in Hprec. auto. }
  apply Z.ltb_ge in Hprec.
  assert (Hop : tokenTypeToBinaryOpcode (currentType p) <> BinaryOpcode.NONE)
    by (apply binaryOpPrecedence_nonneg; lia).
  assert (Hroot : forall rhs t' q,
            (t' = BinaryOp (currentStart p) (currentEnd p)
                    (tokenTypeToBinaryOpcode (currentType p)) lhs rhs /\ q
             \/ root_at_least floor t') -> root_at_least floor t').
  { intros rhs t' q [(-> & _)|Hr]; [|exact Hr]. split; assumption. }
  split_call.
  destruct (_ <? _).
  - split_call.
    destruct (IH _ _ _ _ _ Hfl H) as (Hlt & Hr).
    split; [exact Hlt|right; exact (Hroot _ _ _ Hr)].
  - destruct (IH _ _ _ _ _ Hfl H) as (Hlt & Hr).
    split; [exact Hlt|right; exact (Hroot _ _ _ Hr)].
Qed.

(** X3.  The climbing loop takes every operator it may: when
    [parseBinaryOpRHS] returns a tree, the token it stops at has a
    precedence below the floor, and the tree is either the left operand it
    was given, nothing having been consumed, or a binary node of a real
    operator whose precedence is at least the floor.  Hence, when
    [parseExpression] returns a tree, the current token is not a binary
    operator. *)
Theorem expression_stops_at_non_operator :
  (forall n p t p',
     parseExpression n p = Ret (Some t) p' ->
     tokenTypeToBinaryOpcode (currentType p') = BinaryOpcode.NONE) /\
  (forall n floor lhs p t p',
     0 <= floor ->
     parseBinaryOpRHS n floor lhs p = Ret (Some t) p' ->
     binaryOpPrecedence (tokenTypeToBinaryOpcode (currentType p')) < floor /\
     (t = lhs /\ p' = p \/ root_at_least floor t)).
Proof.
  split; [|exact parseBinaryOpRHS_stops].
  intros [|n] p t p' H; [discriminate H|].
  rewrite parseExpression_S in H. split_call.
  apply negative_precedence_NONE.
  exact (proj1 (parseBinaryOpRHS_stops n 0 _ _ _ _ ltac:(lia) H)).
Qed.

Lemma expression_stops_at_non_operator_witness :
  tokenTypeToBinaryOpcode (currentType (Samples.at_end 9))
    = BinaryOpcode.NONE /\
  binaryOpPrecedence
    (tokenTypeToBinaryOpcode
       (currentType
          (mkParser Samples.plus_at_6 [Samples.then_4; Samples.eof_at 9] [])))
    < 601 /\
  (BinaryOp 2 2 BinaryOpcode.MULTIPLY (IntegerExpr 0 0 2) (IntegerExpr 4 4 3)
   = IntegerExpr 0 0 2 /\
   mkParser Samples.plus_at_6 [Samples.then_4; Samples.eof_at 9] []
   = mkParser Samples.times_at_2
       [Samples.then_3; Samples.plus_at_6; Samples.then_4; Samples.eof_at 9] []
   \/ root_at_least 601
        (BinaryOp 2 2 BinaryOpcode.MULTIPLY
           (IntegerExpr 0 0 2) (IntegerExpr 4 4 3))).
Proof.
  destruct expression_stops_at_non_operator as (He & Hb).
  split.
  - apply (He 28%nat
             (primed (Samples.eof_at 0) Samples.two_plus_three_times_four)
             (BinaryOp 2 2 BinaryOpcode.ADD (IntegerExpr 0 0 2)
                (BinaryOp 6 6 BinaryOpcode.MULTIPLY
                   (IntegerExpr 4 4 3) (IntegerExpr 8 8 4)))).
    vm_compute. reflexivity.
  - apply (Hb 6%nat 601 (IntegerExpr 0 0 2)
             (mkParser Samples.times_at_2
                [Samples.then_3; Samples.plus_at_6; Samples.then_4;
                 Samples.eof_at 9] [])).
    + lia.
    + vm_compute. reflexivity.
Defined.

(** ** Unary operators bind tighter than binary ones *)

Lemma paren_free_forward p p' :
  moves_forward p p' -> paren_free (pending p) -> paren_free (pending p').
Proof.
  intros (c & H) Hp. unfold paren_free in *. rewrite H in Hp.
  apply Forall_app in Hp. tauto.
Qed.

Lemma binary_free_tighter e :
  binary_free e = true -> unary_binds_tighter e = true.
Proof. destruct e; simpl; auto. discriminate. Qed.

Lemma unary_binary_free n :
  (forall p t p', paren_free (pending p) ->
     parseUnaryOpExpr n p = Ret (Some t) p' -> binary_free t = true) /\
  (forall p t p', paren_free (pending p) ->
     parsePrimaryExpr n p = Ret (Some t) p' -> binary_free t = true).
Proof.
  induction n as [|n (IHu & IHp)].
  - split; intros; discriminate.
  - split; intros p t p' Hpf H.
    + rewrite parseUnaryOpExpr_S in H.
      destruct (decide _); [exact (IHp _ _ _ Hpf H)|].
      split_call. injection H as <- <-. simpl.
      refine (IHu _ _ _ _ E).
      exact (paren_free_forward _ _ (moves_forward_consume p) Hpf).
    + rewrite parsePrimaryExpr_S in H.
      destruct (currentType p) eqn:Hc; try discriminate H;
        try (injection H as <- <-; reflexivity).
      exfalso. exact (Forall_inv Hpf Hc).
Qed.

Lemma parseBinaryOpRHS_tighter n :
  forall floor lhs p t p',
    paren_free (pending p) -> unary_binds_tighter lhs = true ->
    parseBinaryOpRHS n floor lhs p = Ret (Some t) p' ->
    unary_binds_tighter t = true.
Proof.
  induction n as [|n IH]; intros floor lhs p t p' Hpf Hl H; [discriminate H|].
  rewrite parseBinaryOpRHS_S in H. cbv zeta in H.
  destruct (_ <? floor); [injection H as <- <-; exact Hl|].
  pose proof (paren_free_forward _ _ (moves_forward_consume p) Hpf) as Hpf0.
  destruct (forward_all n) as (_ & _ & _ & Hfu & Hfb).
  split_call.
  pose proof (paren_free_forward _ _ (Hfu _ _ _ E) Hpf0) as Hpf1.
  pose proof (binary_free_tighter _
                (proj1 (unary_binary_free n) _ _ _ Hpf0 E)) as Hr.
  destruct (_ <? _).
  - split_call.
    pose proof (paren_free_forward _ _ (Hfb _ _ _ _ _ E0) Hpf1) as Hpf2.
    pose proof (IH _ _ _ _ _ Hpf1 Hr E0) as Hr'.
    refine (IH _ _ _ _ _ Hpf2 _ H). simpl. rewrite Hl, Hr'. reflexivity.
  - refine (IH _ _ _ _ _ Hpf1 _ H). simpl. rewrite Hl, Hr. reflexivity.
Qed.

(** X4.  Unary operators bind tighter than every binary operator: on tokens
    without an opening delimiter, [parseUnaryOpExpr] never yields a tree
    with a binary node in it, and in a tree that [parseExpression] yields no
    binary node lies under a unary node. *)
Theorem unary_binds_tighter_than_binary :
  (forall n p t p', paren_free (pending p) ->
     parseUnaryOpExpr n p = Ret (Some t) p' -> binary_free t = true) /\
  (forall n p t p', paren_free (pending p) ->
     parseExpression n p = Ret (Some t) p' -> unary_binds_tighter t = true).
Proof.
  split.
  - intros n. exact (proj1 (unary_binary_free n)).
  - intros [|n] p t p' Hpf H; [discriminate H|].
    rewrite parseExpression_S in H. split_call.
    refine (parseBinaryOpRHS_tighter _ _ _ _ _ _ _ _ H).
    + exact (paren_free_forward _ _
               (proj1 (proj2 (proj2 (proj2 (forward_all n)))) _ _ _ E) Hpf).
    + exact (binary_free_tighter _ (proj1 (unary_binary_free n) _ _ _ Hpf E)).
Qed.

Lemma unary_binds_tighter_than_binary_witness :
  binary_free
    (UnaryOp 0 0 UnaryOpcode.MINUS
       (UnaryOp 2 2 UnaryOpcode.LOGIC_NEGATE (IntegerExpr 4 4 7))) = true /\
  unary_binds_tighter
    (BinaryOp 3 3 BinaryOpcode.ADD
       (UnaryOp 0 0 UnaryOpcode.MINUS (IntegerExpr 1 1 1))
       (IntegerExpr 5 5 2)) = true.
Proof.
  destruct unary_binds_tighter_than_binary as (Hu & He).
  split.
  - apply (Hu 28%nat (primed (Samples.eof_at 0) Samples.minus_not_seven) _
             (Samples.at_end 5)).
    + repeat constructor; discriminate.
    + vm_compute. reflexivity.
  - apply (He 28%nat (primed (Samples.eof_at 0) sample_minus_one_plus_two) _
             (Samples.at_end 6)).
    + repeat constructor; discriminate.
    + vm_compute. reflexivity.
Defined.

(** ** The tree keeps the tokens in their order *)

Lemma consume_cons p :
  ends_in_EOFT (pending p) = true -> currentType p <> TokenType.EOFT ->
  pending p = currentToken p :: pending (consumeToken p).
Proof.
  unfold pending, consumeToken, currentType.
  destruct p as [c [|t ts] d]; simpl; intros He Hc; [|reflexivity].
  apply bool_decide_eq_true in He. contradiction.
Qed.

#[global] Arguments node_tokens : simpl never.

Lemma node_tokens_app l1 l2 :
  node_tokens (l1 ++ l2) = (node_tokens l1 ++ node_tokens l2)%list.
Proof. apply List.filter_app. Qed.

Lemma node_tokens_keep t l :
  is_paren t = false -> node_tokens (t :: l) = t :: node_tokens l.
Proof. intros H. unfold node_tokens. simpl. rewrite H. reflexivity. Qed.

Lemma node_tokens_drop t l :
  is_paren t = true -> node_tokens (t :: l) = node_tokens l.
Proof. intros H. unfold node_tokens. simpl. rewrite H. reflexivity. Qed.

Lemma unary_operator_not_paren t :
  tokenTypeToUnaryOpcode (type t) <> UnaryOpcode.NONE -> is_paren t = false.
Proof.
  unfold is_paren. rewrite tokenTypeToUnaryOpcode_eq.
  destruct (type t); simpl; intros H; solve [reflexivity|exfalso; auto].
Qed.

Lemma binary_operator_not_paren t :
  tokenTypeToBinaryOpcode (type t) <> BinaryOpcode.NONE -> is_paren t = false.
Proof.
  unfold is_paren. rewrite tokenTypeToBinaryOpcode_eq.
  destruct (type t); simpl; intros H; solve [reflexivity|exfalso; auto].
Qed.

Lemma reads_leaf p t :
  ends_in_EOFT (pending p) = true -> currentType p <> TokenType.EOFT ->
  is_paren (currentToken p) = false ->
  yield t = [token_span (currentToken p)] ->
  reads_in_order p [] t (consumeToken p).
Proof.
  intros He Hc Hp Hy. exists [currentToken p]. split.
  - apply consume_cons; assumption.
  - rewrite node_tokens_keep by exact Hp. exact Hy.
Qed.

Lemma order_all (n : nat) :
  (forall p t p', ends_in_EOFT (pending p) = true ->
     parseExpression n p = Ret (Some t) p' -> reads_in_order p [] t p') /\
  (forall p t p', ends_in_EOFT (pending p) = true ->
     parsePrimaryExpr n p = Ret (Some t) p' -> reads_in_order p [] t p') /\
  (forall p t p', ends_in_EOFT (pending p) = true ->
     currentType p = TokenType.OPEN_PAREN ->
     parseParenExpr n p = Ret (Some t) p' -> reads_in_order p [] t p') /\
  (forall p t p', ends_in_EOFT (pending p) = true ->
     parseUnaryOpExpr n p = Ret (Some t) p' -> reads_in_order p [] t p') /\
  (forall floor lhs p t p', 0 <= floor ->
     ends_in_EOFT (pending p) = true ->
     parseBinaryOpRHS n floor lhs p = Ret (Some t) p' ->
     reads_in_order p (yield lhs) t p').
Proof.
  induction n as [|n (IHe & IHp & IHpa & IHu & IHb)].
  - repeat split; intros; discriminate.
  - split; [|split; [|split; [|split]]].
    + intros p t p' He H. rewrite parseExpression_S in H. split_call.
      destruct (IHu _ _ _ He E) as (c1 & Hc1 & Hy1).
      destruct (parseUnaryOpExpr_advances _ _ _ _ He E) as (He1 & _).
      destruct (IHb 0 _ _ _ _ ltac:(lia) He1 H) as (c2 & Hc2 & Hy2).
      exists (c1 ++ c2)%list. split.
      * rewrite Hc1, Hc2, app_assoc. reflexivity.
      * rewrite Hy2, Hy1, node_tokens_app, map_app. reflexivity.
    + intros p t p' He H. rewrite parsePrimaryExpr_S in H.
      destruct (currentType p) eqn:Hc; try discriminate H;
        try (injection H as <- <-; apply reads_leaf;
             [exact He|congruence|unfold is_paren;
              unfold currentType in Hc; rewrite Hc; reflexivity|reflexivity]).
      exact (IHpa _ _ _ He Hc H).
    + intros p t p' He Hc H. rewrite parseParenExpr_S in H.
      assert (Hne : currentType p <> TokenType.EOFT) by congruence.
      pose proof (consume_cons p He Hne) as Hp0.
      pose proof (consumeToken_ends p He) as He0.
      split_call.
      destruct (IHe _ _ _ He0 E) as (c1 & Hc1 & Hy1).
      destruct (parseExpression_advances _ _ _ _ He0 E) as (He1 & _).
      destruct (decide _) as [Hcl|]; [|discriminate H].
      injection H as <- <-.
      assert (Hne1 : currentType p0 <> TokenType.EOFT) by congruence.
      exists (currentToken p :: c1 ++ [currentToken p0])%list. split.
      * rewrite Hp0, Hc1, (consume_cons p0 He1 Hne1). simpl.
        rewrite <- app_assoc. reflexivity.
      * rewrite node_tokens_drop
          by (unfold is_paren; unfold currentType in Hc; rewrite Hc;
              reflexivity).
        rewrite node_tokens_app, (node_tokens_drop (currentToken p0))
          by (unfold is_paren; unfold currentType in Hcl; rewrite Hcl;
              reflexivity).
        change (node_tokens []) with (@nil Token).
        rewrite app_nil_r. exact Hy1.
    + intros p t p' He H. rewrite parseUnaryOpExpr_S in H.
      destruct (decide _) as [|Hop]; [exact (IHp _ _ _ He H)|].
      pose proof (consume_cons p He (unary_operator_not_EOFT _ Hop)) as Hp0.
      split_call. injection H as <- <-.
      destruct (IHu _ _ _ (consumeToken_ends p He) E) as (c1 & Hc1 & Hy1).
      exists (currentToken p :: c1). split.
      * rewrite Hp0, Hc1. reflexivity.
      * rewrite node_tokens_keep by (apply unary_operator_not_paren; exact Hop).
        simpl. rewrite Hy1. reflexivity.
    + intros floor lhs p t p' Hfl He H.
      rewrite parseBinaryOpRHS_S in H. cbv zeta in H.
      destruct (_ <? floor) eqn:Hprec.
      { injection H as <- <-. exists []. simpl. rewrite app_nil_r. auto. }
      apply Z.ltb_ge in Hprec.
      assert (Hop : tokenTypeToBinaryOpcode (currentType p)
                    <> BinaryOpcode.NONE)
        by (apply binaryOpPrecedence_nonneg; lia).
      pose proof (consume_cons p He (binary_operator_not_EOFT _ Hop)) as Hp0.
      pose proof (consumeToken_ends p He) as He0.
      split_call.
      destruct (IHu _ _ _ He0 E) as (c1 & Hc1 & Hy1).
      destruct (parseUnaryOpExpr_advances _ _ _ _ He0 E) as (He1 & _).
      assert (Hfl1 : 0 <= binaryOpPrecedence
                           (tokenTypeToBinaryOpcode (currentType p)) + 1)
        by lia.
      assert (Hfin : forall rhs c2 c3 p2,
                pending p0 = (c2 ++ pending p2)%list ->
                yield rhs = (yield e ++ map token_span (node_tokens c2))%list ->
                pending p2 = (c3 ++ pending p')%list ->
                yield t =
                  (yield (BinaryOp (currentStart p) (currentEnd p)
                            (tokenTypeToBinaryOpcode (currentType p)) lhs rhs)
                   ++ map token_span (node_tokens c3))%list ->
                reads_in_order p (yield lhs) t p').
      { intros rhs c2 c3 p2 Hc2 Hy2 Hc3 Hy3.
        exists (currentToken p :: c1 ++ c2 ++ c3)%list. split.
        - rewrite Hp0, Hc1, Hc2, Hc3. simpl.
          rewrite <- !app_assoc. reflexivity.
        - rewrite Hy3. simpl. rewrite Hy2, Hy1.
          rewrite node_tokens_keep
            by (apply binary_operator_not_paren; exact Hop).
          rewrite !node_tokens_app. simpl. rewrite !map_app.
          rewrite <- !app_assoc. simpl. rewrite <- !app_assoc.
          reflexivity. }
      destruct (_ <? _).
      * split_call.
        destruct (IHb _ _ _ _ _ Hfl1 He1 E0) as (c2 & Hc2 & Hy2).
        destruct (parseBinaryOpRHS_advances _ _ _ _ _ _ Hfl1 He1 E0)
          as (He2 & _).
        destruct (IHb _ _ _ _ _ Hfl He2 H) as (c3 & Hc3 & Hy3).
        exact (Hfin _ _ _ _ Hc2 Hy2 Hc3 Hy3).
      * destruct (IHb _ _ _ _ _ Hfl He1 H) as (c3 & Hc3 & Hy3).
        refine (Hfin e [] c3 p0 eq_refl _ Hc3 Hy3).
        simpl. rewrite app_nil_r. reflexivity.
Qed.

Lemma node_count_yield e : node_count e = length (yield e).
Proof.
  induction e; simpl; try reflexivity.
  - rewrite IHe. reflexivity.
  - rewrite length_app. simpl. rewrite IHe1, IHe2. lia.
Qed.

Lemma node_tokens_length l : (length (node_tokens l) <= length l)%nat.
Proof.
  unfold node_tokens. induction l as [|a l IH]; simpl; [lia|].
  destruct (negb _); simpl; lia.
Qed.

(** X5.  A tree keeps the tokens it was parsed from, in their order: on a
    line that ends in end-of-input, the spans of the nodes of a tree that
    [parseExpression] or [parseUnaryOpExpr] yields, read in source order,
    are exactly the spans of the tokens the call consumed, the grouping
    delimiters left out; so the tree has one node for each consumed token
    that is not a delimiter, and never more nodes than tokens consumed. *)
Theorem tree_reads_as_consumed_tokens :
  (forall n p t p', ends_in_EOFT (pending p) = true ->
     parseExpression n p = Ret (Some t) p' ->
     exists consumed,
       pending p = (consumed ++ pending p')%list /\
       yield t = map token_span (node_tokens consumed) /\
       node_count t = length (node_tokens consumed) /\
       (node_count t <= length consumed)%nat) /\
  (forall n p t p', ends_in_EOFT (pending p) = true ->
     parseUnaryOpExpr n p = Ret (Some t) p' ->
     exists consumed,
       pending p = (consumed ++ pending p')%list /\
       yield t = map token_span (node_tokens consumed) /\
       node_count t = length (node_tokens consumed) /\
       (node_count t <= length consumed)%nat).
Proof.
  assert (Hgen : forall p t p', reads_in_order p [] t p' ->
            exists consumed,
              pending p = (consumed ++ pending p')%list /\
              yield t = map token_span (node_tokens consumed) /\
              node_count t = length (node_tokens consumed) /\
              (node_count t <= length consumed)%nat).
  { intros p t p' (c & Hc & Hy). exists c. simpl in Hy.
    split; [exact Hc|split; [exact Hy|]].
    rewrite node_count_yield, Hy, length_map.
    split; [reflexivity|apply node_tokens_length]. }
  split; intros n p t p' He H; apply Hgen.
  - exact (proj1 (order_all n) _ _ _ He H).
  - exact (proj1 (proj2 (proj2 (proj2 (order_all n)))) _ _ _ He H).
Qed.

Lemma tree_reads_as_consumed_tokens_witness :
  exists consumed,
    pending (primed (Samples.eof_at 0) Samples.minus_paren_one_plus_two)
    = (consumed ++ pending (Samples.at_end 8))%list /\
    yield (UnaryOp 0 0 UnaryOpcode.MINUS
             (BinaryOp 4 4 BinaryOpcode.ADD
                (IntegerExpr 2 2 1) (IntegerExpr 6 6 2)))
    = map token_span (node_tokens consumed) /\
    node_count (UnaryOp 0 0 UnaryOpcode.MINUS
                  (BinaryOp 4 4 BinaryOpcode.ADD
                     (IntegerExpr 2 2 1) (IntegerExpr 6 6 2)))
    = length (node_tokens consumed) /\
    (node_count (UnaryOp 0 0 UnaryOpcode.MINUS
                   (BinaryOp 4 4 BinaryOpcode.ADD
                      (IntegerExpr 2 2 1) (IntegerExpr 6 6 2)))
     <= length consumed)%nat.
Proof.
  destruct tree_reads_as_consumed_tokens as (He & _).
  apply (He 36%nat
           (primed (Samples.eof_at 0) Samples.minus_paren_one_plus_two)).
  - reflexivity.
  - vm_compute. reflexivity.
Defined.

(** ** Every node is built from its own token *)

Lemma built_leaf p t :
  ends_in_EOFT (pending p) = true -> currentType p <> TokenType.EOFT ->
  is_paren (currentToken p) = false ->
  nodes t = [t] -> built_from (currentToken p) t ->
  built_in_order p [] t (consumeToken p).
Proof.
  intros He Hc Hp Hn Hb. exists [currentToken p], [t]. split; [|split].
  - apply consume_cons; assumption.
  - exact Hn.
  - rewrite node_tokens_keep by exact Hp.
    change (node_tokens []) with (@nil Token).
    constructor; [exact Hb|constructor].
Qed.

Lemma built_all (n : nat) :
  (forall p t p', ends_in_EOFT (pending p) = true ->
     parseExpression n p = Ret (Some t) p' -> built_in_order p [] t p') /\
  (forall p t p', ends_in_EOFT (pending p) = true ->
     parsePrimaryExpr n p = Ret (Some t) p' -> built_in_order p [] t p') /\
  (forall p t p', ends_in_EOFT (pending p) = true ->
     currentType p = TokenType.OPEN_PAREN ->
     parseParenExpr n p = Ret (Some t) p' -> built_in_order p [] t p') /\
  (forall p t p', ends_in_EOFT (pending p) = true ->
     parseUnaryOpExpr n p = Ret (Some t) p' -> built_in_order p [] t p') /\
  (forall floor lhs p t p', 0 <= floor ->
     ends_in_EOFT (pending p) = true ->
     parseBinaryOpRHS n floor lhs p = Ret (Some t) p' ->
     built_in_order p (nodes lhs) t p').
Proof.
  induction n as [|n (IHe & IHp & IHpa & IHu & IHb)].
  - repeat split; intros; discriminate.
  - split; [|split; [|split; [|split]]].
    + intros p t p' He H. rewrite parseExpression_S in H. split_call.
      destruct (IHu _ _ _ He E) as (c1 & b1 & Hc1 & Hn1 & Hb1).
      destruct (parseUnaryOpExpr_advances _ _ _ _ He E) as (He1 & _).
      destruct (IHb 0 _ _ _ _ ltac:(lia) He1 H) as (c2 & b2 & Hc2 & Hn2 & Hb2).
      exists (c1 ++ c2)%list, (b1 ++ b2)%list. split; [|split].
      * rewrite Hc1, Hc2, app_assoc. reflexivity.
      * rewrite Hn2, Hn1. reflexivity.
      * rewrite node_tokens_app. apply Forall2_app; assumption.
    + intros p t p' He H. rewrite parsePrimaryExpr_S in H.
      destruct (currentType p) eqn:Hc; try discriminate H;
        try (injection H as <- <-; apply built_leaf;
             [exact He|congruence|unfold is_paren;
              unfold currentType in Hc; rewrite Hc; reflexivity|reflexivity
             |repeat split; exact Hc]).
      exact (IHpa _ _ _ He Hc H).
    + intros p t p' He Hc H. rewrite parseParenExpr_S in H.
      assert (Hne : currentType p <> TokenType.EOFT) by congruence.
      pose proof (consume_cons p He Hne) as Hp0.
      pose proof (consumeToken_ends p He) as He0.
      split_call.
      destruct (IHe _ _ _ He0 E) as (c1 & b1 & Hc1 & Hn1 & Hb1).
      destruct (parseExpression_advances _ _ _ _ He0 E) as (He1 & _).
      destruct (decide _) as [Hcl|]; [|discriminate H].
      injection H as <- <-.
      assert (Hne1 : currentType p0 <> TokenType.EOFT) by congruence.
      exists (currentToken p :: c1 ++ [currentToken p0])%list, b1.
      split; [|split].
      * rewrite Hp0, Hc1, (consume_cons p0 He1 Hne1). simpl.
        rewrite <- app_assoc. reflexivity.
      * exact Hn1.
      * rewrite node_tokens_drop
          by (unfold is_paren; unfold currentType in Hc; rewrite Hc;
              reflexivity).
        rewrite node_tokens_app, (node_tokens_drop (currentToken p0))
          by (unfold is_paren; unfold currentType in Hcl; rewrite Hcl;
              reflexivity).
        change (node_tokens []) with (@nil Token).
        rewrite app_nil_r. exact Hb1.
    + intros p t p' He H. rewrite parseUnaryOpExpr_S in H.
      destruct (decide _) as [|Hop]; [exact (IHp _ _ _ He H)|].
      pose proof (consume_cons p He (unary_operator_not_EOFT _ Hop)) as Hp0.
      split_call. injection H as <- <-.
      destruct (IHu _ _ _ (consumeToken_ends p He) E)
        as (c1 & b1 & Hc1 & Hn1 & Hb1).
      exists (currentToken p :: c1),
        (UnaryOp (currentStart p) (currentEnd p)
           (tokenTypeToUnaryOpcode (currentType p)) e :: b1).
      split; [|split].
      * rewrite Hp0, Hc1. reflexivity.
      * simpl. rewrite Hn1. reflexivity.
      * rewrite node_tokens_keep by (apply unary_operator_not_paren; exact Hop).
        constructor; [|exact Hb1]. repeat split. exact Hop.
    + intros floor lhs p t p' Hfl He H.
      rewrite parseBinaryOpRHS_S in H. cbv zeta in H.
      destruct (_ <? floor) eqn:Hprec.
      { injection H as <- <-. exists [], []. simpl. rewrite app_nil_r.
        repeat split. constructor. }
      apply Z.ltb_ge in Hprec.
      assert (Hop : tokenTypeToBinaryOpcode (currentType p)
                    <> BinaryOpcode.NONE)
        by (apply binaryOpPrecedence_nonneg; lia).
      pose proof (consume_cons p He (binary_operator_not_EOFT _ Hop)) as Hp0.
      pose proof (consumeToken_ends p He) as He0.
      split_call.
      destruct (IHu _ _ _ He0 E) as (c1 & b1 & Hc1 & Hn1 & Hb1).
      destruct (parseUnaryOpExpr_advances _ _ _ _ He0 E) as (He1 & _).
      assert (Hfl1 : 0 <= binaryOpPrecedence
                           (tokenTypeToBinaryOpcode (currentType p)) + 1)
        by lia.
      assert (Hfin : forall rhs c2 b2 c3 b3 p2,
                pending p0 = (c2 ++ pending p2)%list ->
                nodes rhs = (nodes e ++ b2)%list ->
                Forall2 built_from (node_tokens c2) b2 ->
                pending p2 = (c3 ++ pending p')%list ->
                nodes t =
                  (nodes (BinaryOp (currentStart p) (currentEnd p)
                            (tokenTypeToBinaryOpcode (currentType p)) lhs rhs)
                   ++ b3)%list ->
                Forall2 built_from (node_tokens c3) b3 ->
                built_in_order p (nodes lhs) t p').
      { intros rhs c2 b2 c3 b3 p2 Hc2 Hn2 Hb2 Hc3 Hn3 Hb3.
        exists (currentToken p :: c1 ++ c2 ++ c3)%list,
          (BinaryOp (currentStart p) (currentEnd p)
             (tokenTypeToBinaryOpcode (currentType p)) lhs rhs
           :: b1 ++ b2 ++ b3)%list.
        split; [|split].
        - rewrite Hp0, Hc1, Hc2, Hc3. simpl.
          rewrite <- !app_assoc. reflexivity.
        - rewrite Hn3. simpl. rewrite Hn2, Hn1. simpl.
          rewrite <- !app_assoc. simpl. rewrite <- !app_assoc.
          reflexivity.
        - rewrite node_tokens_keep
            by (apply binary_operator_not_paren; exact Hop).
          rewrite !node_tokens_app.
          constructor; [repeat split; exact Hop|].
          repeat apply Forall2_app; assumption. }
      destruct (_ <? _).
      * split_call.
        destruct (IHb _ _ _ _ _ Hfl1 He1 E0) as (c2 & b2 & Hc2 & Hn2 & Hb2).
        destruct (parseBinaryOpRHS_advances _ _ _ _ _ _ Hfl1 He1 E0)
          as (He2 & _).
        destruct (IHb _ _ _ _ _ Hfl He2 H) as (c3 & b3 & Hc3 & Hn3 & Hb3).
        exact (Hfin _ _ _ _ _ _ Hc2 Hn2 Hb2 Hc3 Hn3 Hb3).
      * destruct (IHb _ _ _ _ _ Hfl He1 H) as (c3 & b3 & Hc3 & Hn3 & Hb3).
        refine (Hfin e [] [] c3 b3 p0 eq_refl _ _ Hc3 Hn3 Hb3).
        -- rewrite app_nil_r. reflexivity.
        -- constructor.
Qed.

Lemma blocks_in_skip pre ts blocks :
  blocks_in ts blocks -> blocks_in (pre ++ ts) blocks.
Proof.
  destruct blocks as [|b bs]; [exact (fun H => H)|].
  intros (skipped & rest & -> & Hr).
  exists (pre ++ skipped)%list, rest. split; [|exact Hr].
  rewrite <- app_assoc. reflexivity.
Qed.

Lemma parseCommand_args_built n :
  forall args p args' p',
    ends_in_EOFT (pending p) = true ->
    parseCommand_args n args p = Ret (Some args') p' ->
    exists blocks new,
      args' = (args ++ new)%list /\
      blocks_in (pending p) blocks /\ arguments_built_from blocks new.
Proof.
  induction n as [|n IH]; intros args p args' p' He H; [discriminate H|].
  rewrite parseCommand_args_S in H.
  destruct (decide _) as [Hc|Hc].
  { injection H as <- <-. exists [], []. rewrite app_nil_r.
    repeat split. constructor. }
  split_call.
  - destruct (parseUnaryOpExpr_advances _ _ _ _ He E) as (He1 & _).
    destruct (proj1 (proj2 (proj2 (proj2 (built_all n)))) _ _ _ He E)
      as (c & b & Hpc & Hn & Hb).
    destruct (IH _ _ _ _ He1 H) as (blocks & new & -> & Hin & Hnew).
    exists (c :: blocks), (e :: new). split; [|split].
    + rewrite <- app_assoc. reflexivity.
    + exists [], (pending p0). split; [exact Hpc|exact Hin].
    + constructor; [|exact Hnew]. unfold built_from_tokens.
      rewrite Hn. exact Hb.
  - destruct (parseUnaryOpExpr_advances _ _ _ _ He E) as (He1 & _).
    destruct (IH _ _ _ _ (consumeToken_ends _ He1) H)
      as (blocks & new & -> & Hin & Hnew).
    exists blocks, new. split; [reflexivity|split; [|exact Hnew]].
    destruct (proj1 (proj2 (proj2 (proj2 (forward_all n)))) _ _ _ E)
      as (c1 & Hc1).
    destruct (moves_forward_consume p0) as (c2 & Hc2).
    rewrite Hc1, Hc2, app_assoc. apply blocks_in_skip. exact Hin.
Qed.

(** *** Where the columns of the tokens ascend *)

Lemma ascending_cons a l :
  ascending (a :: l) = true <->
  Forall (fun b => snd a < fst b) l /\ ascending l = true.
Proof.
  simpl. rewrite andb_true_iff, List.forallb_forall, List.Forall_forall.
  split; intros (H1 & H2); (split; [|exact H2]); intros x Hx;
    specialize (H1 x Hx); lia.
Qed.

Lemma ascending_app l1 l2 :
  ascending (l1 ++ l2) = true ->
  ascending l1 = true /\ ascending l2 = true /\
  Forall (fun a => Forall (fun b => snd a < fst b) l2) l1.
Proof.
  induction l1 as [|a l1 IH]; [intros H; repeat split; [exact H|constructor]|].
  rewrite <- app_comm_cons. intros H.
  apply ascending_cons in H. destruct H as (Ha & H).
  destruct (IH H) as (H1 & H2 & H12).
  apply Forall_app in Ha. destruct Ha as (Ha1 & Ha2).
  split; [|split; [exact H2|constructor; assumption]].
  apply ascending_cons. split; assumption.
Qed.

Lemma Forall_node_tokens (Q : Z * Z -> Prop) ts :
  Forall Q (map token_span ts) -> Forall Q (map token_span (node_tokens ts)).
Proof.
  unfold node_tokens. induction ts as [|t ts IH]; simpl; [auto|].
  intros H. pose proof (Forall_inv H) as Ht.
  pose proof (IH (Forall_inv_tail H)) as Hts.
  destruct (negb _); simpl; [constructor; assumption|exact Hts].
Qed.

Lemma columns_ascend_node_tokens ts :
  columns_ascend ts = true -> columns_ascend (node_tokens ts) = true.
Proof.
  unfold columns_ascend. induction ts as [|t ts IH]; [auto|].
  intros H. change (map token_span (t :: ts))
    with (token_span t :: map token_span ts) in H.
  apply ascending_cons in H. destruct H as (Ht & Hts).
  destruct (is_paren t) eqn:Hp.
  - rewrite node_tokens_drop by exact Hp. exact (IH Hts).
  - rewrite node_tokens_keep by exact Hp.
    change (map token_span (t :: node_tokens ts))
      with (token_span t :: map token_span (node_tokens ts)).
    apply ascending_cons. split; [|exact (IH Hts)].
    apply Forall_node_tokens. exact Ht.
Qed.

Lemma yield_nodes e :
  yield e = map (fun node => (getStart node, getEnd node)) (nodes e).
Proof.
  induction e; simpl; try reflexivity.
  - rewrite IHe. reflexivity.
  - rewrite map_app. simpl. rewrite IHe1, IHe2. reflexivity.
Qed.

Lemma built_from_tokens_yield consumed e :
  built_from_tokens consumed e ->
  yield e = map token_span (node_tokens consumed).
Proof.
  unfold built_from_tokens. rewrite yield_nodes.
  induction 1 as [|tok node toks nds (Hs & He & _) _ IH]; [reflexivity|].
  simpl. rewrite IH. unfold token_span at 2. rewrite Hs, He. reflexivity.
Qed.

Lemma ascending_apart e : ascending (yield e) = true -> operators_apart e.
Proof.
  induction e as [| | | | |s e' op operand IH|s e' op lhs IHl rhs IHr];
    simpl; try exact (fun _ => I).
  - intros H. apply (ascending_cons (s, e')) in H.
    destruct H as (Ha & H). split; [exact Ha|exact (IH H)].
  - intros H. apply ascending_app in H. destruct H as (Hl & Hr & Hlr).
    apply (ascending_cons (s, e')) in Hr. destruct Hr as (Ha & Hr).
    split; [|split; [exact Ha|split; [exact (IHl Hl)|exact (IHr Hr)]]].
    eapply List.Forall_impl; [|exact Hlr].
    intros a Hb. exact (Forall_inv Hb).
Qed.

Lemma built_apart consumed e :
  columns_ascend consumed = true -> built_from_tokens consumed e ->
  operators_apart e.
Proof.
  intros Ha Hb. apply ascending_apart.
  rewrite (built_from_tokens_yield _ _ Hb).
  exact (columns_ascend_node_tokens _ Ha).
Qed.

Lemma columns_ascend_app l1 l2 :
  columns_ascend (l1 ++ l2) = true ->
  columns_ascend l1 = true /\ columns_ascend l2 = true.
Proof.
  unfold columns_ascend. rewrite map_app. intros H.
  destruct (ascending_app _ _ H) as (H1 & H2 & _). split; assumption.
Qed.

Lemma blocks_in_ascend ts blocks :
  columns_ascend ts = true -> blocks_in ts blocks ->
  Forall (fun block => columns_ascend block = true) blocks.
Proof.
  revert ts. induction blocks as [|b bs IH]; intros ts Ha; [constructor|].
  intros (skipped & rest & -> & Hr).
  apply columns_ascend_app in Ha. destruct Ha as (_ & Ha).
  apply columns_ascend_app in Ha. destruct Ha as (Hb & Ha).
  constructor; [exact Hb|exact (IH _ Ha Hr)].
Qed.

Lemma arguments_apart blocks args :
  Forall (fun block => columns_ascend block = true) blocks ->
  arguments_built_from blocks args -> Forall operators_apart args.
Proof.
  intros Ha Hb. revert Ha.
  induction Hb as [|b a bs args' Hba _ IH]; intros Ha; [constructor|].
  constructor.
  - exact (built_apart _ _ (Forall_inv Ha) Hba).
  - exact (IH (Forall_inv_tail Ha)).
Qed.

Lemma parseCommand_built n p c p' :
  ends_in_EOFT (scanner p) = true ->
  parseCommand n p = Ret (Some c) p' ->
  exists blocks,
    blocks_in (tl (scanner p)) blocks /\
    arguments_built_from blocks (args c).
Proof.
  intros He H. unfold parseCommand in H.
  destruct (decide _) as [Hid|]; [|discriminate H].
  destruct (parseCommand_args n _ _) as [|[a|] p1] eqn:E;
    try discriminate H.
  injection H as <- <-. simpl.
  destruct p as [t0 [|name [|first rest]] d]; try discriminate He.
  { simpl in He. apply bool_decide_eq_true in He.
    unfold currentType in Hid. simpl in Hid. congruence. }
  assert (He1 : ends_in_EOFT (pending (mkParser first rest d)) = true)
    by exact He.
  destruct (parseCommand_args_built n [] (mkParser first rest d) _ _ He1 E)
    as (blocks & new & -> & Hin & Hnew).
  exists blocks. split; [exact Hin|exact Hnew].
Qed.

(** C7, as the code has it.  Every node of every tree that
    [parseExpression] returns, and of every argument of a command that
    [parseCommand] returns, has exactly the columns of one token of the
    input: a leaf those of the token it was built from, a unary or binary
    node those of its operator token, which it therefore covers.  On a line
    that ends in end-of-input the nodes of the tree, in the order of the
    source, are built one each from the tokens the call consumed, the
    grouping delimiters left out, in their order, and each argument of a
    command from a block of tokens of its own, the blocks lying one after
    the other.  Where the columns of the tokens ascend, the span of an
    operator node lies apart from every node of its operands: it does not
    extend over them. *)
Theorem node_spans_are_token_spans :
  (forall n p e p',
     parseExpression n p = Ret (Some e) p' -> spans_tokens (pending p) e) /\
  (forall n p c p',
     parseCommand n p = Ret (Some c) p' ->
     Forall (spans_tokens (pending p)) (args c)) /\
  (forall tok e,
     built_from tok e ->
     getStart e <= columnStart tok /\ columnEnd tok <= getEnd e) /\
  (forall n p e p',
     ends_in_EOFT (pending p) = true ->
     parseExpression n p = Ret (Some e) p' ->
     exists consumed,
       pending p = (consumed ++ pending p')%list /\
       built_from_tokens consumed e) /\
  (forall n p c p',
     ends_in_EOFT (scanner p) = true ->
     parseCommand n p = Ret (Some c) p' ->
     exists blocks,
       blocks_in (tl (scanner p)) blocks /\
       arguments_built_from blocks (args c)) /\
  (forall n p e p',
     ends_in_EOFT (pending p) = true ->
     columns_ascend (pending p) = true ->
     parseExpression n p = Ret (Some e) p' -> operators_apart e) /\
  (forall n p c p',
     ends_in_EOFT (scanner p) = true ->
     columns_ascend (scanner p) = true ->
     parseCommand n p = Ret (Some c) p' -> Forall operators_apart (args c)).
Proof.
  assert (Hbuilt : forall n p e p',
            ends_in_EOFT (pending p) = true ->
            parseExpression n p = Ret (Some e) p' ->
            exists consumed,
              pending p = (consumed ++ pending p')%list /\
              built_from_tokens consumed e).
  { intros n p e p' He H.
    destruct (proj1 (built_all n) _ _ _ He H) as (c & b & Hc & Hn & Hb).
    exists c. split; [exact Hc|]. unfold built_from_tokens.
    rewrite Hn. exact Hb. }
  split; [|split; [|split; [|split; [|split; [|split]]]]].
  - intros n p e p' H.
    destruct (spans_all (pending p) n) as (He & _).
    destruct (He p _ _ (incl_refl _) H) as (_ & Hs). apply Hs. reflexivity.
  - intros n p c p' H. unfold parseCommand in H.
    destruct (decide _); [|discriminate H].
    destruct (parseCommand_args n _ _) as [|[a|] p1] eqn:E;
      try discriminate H.
    injection H as <- <-. simpl.
    refine (parseCommand_args_spans (pending p) n [] _ _ _ _ _ E a eq_refl);
      [|constructor].
    eapply incl_tran; [apply consumeToken_incl|]. apply consumeToken_incl.
  - intros tok e (Hs & He & _). lia.
  - exact Hbuilt.
  - exact parseCommand_built.
  - intros n p e p' He Ha H.
    destruct (Hbuilt n p e p' He H) as (c & Hc & Hb).
    rewrite Hc in Ha. apply columns_ascend_app in Ha.
    exact (built_apart _ _ (proj1 Ha) Hb).
  - intros n p c p' He Ha H.
    destruct (parseCommand_built n p c p' He H) as (blocks & Hin & Hb).
    refine (arguments_apart _ _ (blocks_in_ascend _ _ _ Hin) Hb).
    destruct (scanner p) as [|name rest]; [discriminate He|].
    exact (proj2 (columns_ascend_app [name] rest Ha)).
Qed.

Lemma node_spans_are_token_spans_witness :
  spans_tokens (pending (primed (Samples.eof_at 0) Samples.one_plus_two))
    (BinaryOp 2 2 BinaryOpcode.ADD (IntegerExpr 0 0 1) (IntegerExpr 4 4 2)) /\
  Forall
    (spans_tokens
       (pending (unprimed (Samples.eof_at 0) Samples.cmd_one_plus_two)))
    [IntegerExpr 4 4 1; UnaryOp 6 6 UnaryOpcode.PLUS (IntegerExpr 8 8 2)] /\
  (getStart (IntegerExpr 4 4 1) <= 4 /\ 4 <= getEnd (IntegerExpr 4 4 1)) /\
  (exists consumed,
     pending (primed (Samples.eof_at 0) Samples.one_minus_two_minus_three)
     = (consumed ++ pending (Samples.at_end 9))%list /\
     built_from_tokens consumed
       (BinaryOp 6 6 BinaryOpcode.SUBTRACT
          (BinaryOp 2 2 BinaryOpcode.SUBTRACT
             (IntegerExpr 0 0 1) (IntegerExpr 4 4 2))
          (IntegerExpr 8 8 3))) /\
  (exists blocks,
     blocks_in
       (tl (scanner (unprimed (Samples.eof_at 0) Samples.cmd_one_plus_two)))
       blocks /\
     arguments_built_from blocks
       [IntegerExpr 4 4 1; UnaryOp 6 6 UnaryOpcode.PLUS (IntegerExpr 8 8 2)]) /\
  operators_apart
    (BinaryOp 6 6 BinaryOpcode.SUBTRACT
       (BinaryOp 2 2 BinaryOpcode.SUBTRACT
          (IntegerExpr 0 0 1) (IntegerExpr 4 4 2))
       (IntegerExpr 8 8 3)) /\
  Forall operators_apart
    [IntegerExpr 4 4 1; UnaryOp 6 6 UnaryOpcode.PLUS (IntegerExpr 8 8 2)].
Proof.
  destruct node_spans_are_token_spans as (He & Hc & Hb & Hbe & Hbc & Hae & Hac).
  split; [|split; [|split; [|split; [|split; [|split]]]]].
  - apply (He 20%nat _ _ (Samples.at_end 5)).
    vm_compute. reflexivity.
  - apply (Hc 28%nat
             (unprimed (Samples.eof_at 0) Samples.cmd_one_plus_two)
             (mkCommandAST "cmd" 0 2
                [IntegerExpr 4 4 1;
                 UnaryOp 6 6 UnaryOpcode.PLUS (IntegerExpr 8 8 2)])
             (Samples.at_end 9)).
    vm_compute. reflexivity.
  - apply (Hb (Samples.token_at TokenType.INTEGER "1" 4) (IntegerExpr 4 4 1)).
    repeat split.
  - apply (Hbe 28%nat
             (primed (Samples.eof_at 0) Samples.one_minus_two_minus_three)).
    + reflexivity.
    + vm_compute. reflexivity.
  - apply (Hbc 28%nat
             (unprimed (Samples.eof_at 0) Samples.cmd_one_plus_two)
             (mkCommandAST "cmd" 0 2
                [IntegerExpr 4 4 1;
                 UnaryOp 6 6 UnaryOpcode.PLUS (IntegerExpr 8 8 2)])
             (Samples.at_end 9)).
    + reflexivity.
    + vm_compute. reflexivity.
  - apply (Hae 28%nat
             (primed (Samples.eof_at 0) Samples.one_minus_two_minus_three)
             _ (Samples.at_end 9)).
    + reflexivity.
    + reflexivity.
    + vm_compute. reflexivity.
  - apply (Hac 28%nat
             (unprimed (Samples.eof_at 0) Samples.cmd_one_plus_two)
             (mkCommandAST "cmd" 0 2
                [IntegerExpr 4 4 1;
                 UnaryOp 6 6 UnaryOpcode.PLUS (IntegerExpr 8 8 2)])
             (Samples.at_end 9)).
    + reflexivity.
    + reflexivity.
    + vm_compute. reflexivity.
Defined.

(** Node for token, in order, tells the operators of [1 - 2 - 3] apart: the
    tree with the spans of its two operator nodes exchanged has every span
    from a token of the line, yet is not built from the tokens consumed. *)
Lemma exchanged_spans_not_built :
  spans_tokens Samples.one_minus_two_minus_three
    (BinaryOp 2 2 BinaryOpcode.SUBTRACT
       (BinaryOp 6 6 BinaryOpcode.SUBTRACT
          (IntegerExpr 0 0 1) (IntegerExpr 4 4 2))
       (IntegerExpr 8 8 3)) /\
  ~ built_from_tokens (removelast Samples.one_minus_two_minus_three)
      (BinaryOp 2 2 BinaryOpcode.SUBTRACT
         (BinaryOp 6 6 BinaryOpcode.SUBTRACT
            (IntegerExpr 0 0 1) (IntegerExpr 4 4 2))
         (IntegerExpr 8 8 3)).
Proof.
  split.
  - simpl. repeat split;
      match goal with
      | |- exists tok, _ /\ built_from tok (BinaryOp 2 2 _ _ _) =>
          exists (mkToken TokenType.MINUS "-" 2 2)
      | |- exists tok, _ /\ built_from tok (BinaryOp 6 6 _ _ _) =>
          exists (mkToken TokenType.MINUS "-" 6 6)
      | |- exists tok, _ /\ built_from tok (IntegerExpr ?c _ _) =>
          exists (mkToken TokenType.INTEGER
                    (match c with 0 => "1" | 4 => "2" | _ => "3" end) c c)
      end;
      (split; [simpl; tauto|repeat split; discriminate]).
  - intros H. unfold built_from_tokens in H.
    apply Forall2_cons_1 in H. destruct H as (_ & H).
    apply Forall2_cons_1 in H. destruct H as ((Hs & _) & _).
    simpl in Hs. discriminate Hs.
Qed.

(** ** The operator tables are one-to-one *)

(** X6.  No two token kinds denote the same binary operator and every
    binary opcode but NONE has a token kind; likewise for the unary
    opcodes; the only token kinds that are both a unary and a binary
    operator are [+] and [-]; and no operator token can start a primary
    expression. *)
Theorem operator_tokens_one_to_one :
  (forall k1 k2,
     tokenTypeToBinaryOpcode k1 <> BinaryOpcode.NONE ->
     tokenTypeToBinaryOpcode k1 = tokenTypeToBinaryOpcode k2 -> k1 = k2) /\
  (forall op, op <> BinaryOpcode.NONE ->
     exists k, tokenTypeToBinaryOpcode k = op) /\
  (forall k1 k2,
     tokenTypeToUnaryOpcode k1 <> UnaryOpcode.NONE ->
     tokenTypeToUnaryOpcode k1 = tokenTypeToUnaryOpcode k2 -> k1 = k2) /\
  (forall op, op <> UnaryOpcode.NONE ->
     exists k, tokenTypeToUnaryOpcode k = op) /\
  (forall k,
     tokenTypeToUnaryOpcode k <> UnaryOpcode.NONE /\
     tokenTypeToBinaryOpcode k <> BinaryOpcode.NONE <->
     k = TokenType.PLUS \/ k = TokenType.MINUS) /\
  (forall k,
     tokenTypeToUnaryOpcode k <> UnaryOpcode.NONE \/
     tokenTypeToBinaryOpcode k <> BinaryOpcode.NONE ->
     unexpected_kind k = true).
Proof.
  split; [|split; [|split; [|split; [|split]]]].
  - intros k1 k2. rewrite !tokenTypeToBinaryOpcode_eq.
    destruct k1; simpl; intros H1 H; try (exfalso; apply H1; reflexivity);
      destruct k2; simpl in H; solve [reflexivity|discriminate H].
  - intros op Hop.
    destruct op;
      try (eexists; rewrite tokenTypeToBinaryOpcode_eq;
           match goal with
           | |- _ = BinaryOpcode.ADD => instantiate (1 := TokenType.PLUS)
           | |- _ = BinaryOpcode.SUBTRACT => instantiate (1 := TokenType.MINUS)
           | |- _ = BinaryOpcode.MULTIPLY => instantiate (1 := TokenType.STAR)
           | |- _ = BinaryOpcode.DIVIDE => instantiate (1 := TokenType.SLASH)
           | |- _ = BinaryOpcode.MOD => instantiate (1 := TokenType.PERCENT)
           | |- _ = BinaryOpcode.EQUALS =>
               instantiate (1 := TokenType.DOUBLE_EQUAL)
           | |- _ = BinaryOpcode.NOT_EQUALS =>
               instantiate (1 := TokenType.EXCLAMATION_EQUAL)
           | |- _ = BinaryOpcode.GREATER_THAN =>
               instantiate (1 := TokenType.GREATER)
           | |- _ = BinaryOpcode.LESS_THAN => instantiate (1 := TokenType.LESS)
           | |- _ = BinaryOpcode.GREATER_THAN_OR_EQUALS =>
               instantiate (1 := TokenType.GREATER_EQUAL)
           | |- _ = BinaryOpcode.LESS_THAN_OR_EQUALS =>
               instantiate (1 := TokenType.LESS_EQUAL)
           | |- _ = BinaryOpcode.LOGIC_AND =>
               instantiate (1 := TokenType.DOUBLE_AMPERSAND)
           | |- _ = BinaryOpcode.LOGIC_OR =>
               instantiate (1 := TokenType.DOUBLE_PIPE)
           | |- _ = BinaryOpcode.BIT_AND =>
               instantiate (1 := TokenType.AMPERSAND)
           | |- _ = BinaryOpcode.BIT_OR => instantiate (1 := TokenType.PIPE)
           | |- _ = BinaryOpcode.BIT_XOR => instantiate (1 := TokenType.CARET)
           | |- _ = BinaryOpcode.LEFT_SHIFT =>
               instantiate (1 := TokenType.DOUBLE_LESS)
           | |- _ = BinaryOpcode.RIGHT_SHIFT =>
               instantiate (1 := TokenType.DOUBLE_GREATER)
           end; reflexivity).
    contradiction.
  - intros k1 k2. rewrite !tokenTypeToUnaryOpcode_eq.
    destruct k1; simpl; intros H1 H; try (exfalso; apply H1; reflexivity);
      destruct k2; simpl in H; solve [reflexivity|discriminate H].
  - intros op Hop. destruct op.
    + exists TokenType.PLUS. rewrite tokenTypeToUnaryOpcode_eq. reflexivity.
    + exists TokenType.MINUS. rewrite tokenTypeToUnaryOpcode_eq. reflexivity.
    + exists TokenType.EXCLAMATION. rewrite tokenTypeToUnaryOpcode_eq.
      reflexivity.
    + exists TokenType.TILDE. rewrite tokenTypeToUnaryOpcode_eq. reflexivity.
    + contradiction.
  - intros k. rewrite tokenTypeToUnaryOpcode_eq, tokenTypeToBinaryOpcode_eq.
    destruct k; simpl; split;
      solve [intros [Hu Hb]; exfalso; auto
            |intros [H|H]; discriminate H
            |intros _; auto
            |intros _; split; discriminate].
  - intros k. rewrite tokenTypeToUnaryOpcode_eq, tokenTypeToBinaryOpcode_eq.
    destruct k; simpl; intros [H|H];
      solve [reflexivity|exfalso; apply H; reflexivity].
Qed.

Lemma operator_tokens_one_to_one_witness :
  TokenType.STAR = TokenType.STAR /\
  (exists k, tokenTypeToBinaryOpcode k = BinaryOpcode.LEFT_SHIFT) /\
  TokenType.TILDE = TokenType.TILDE /\
  (exists k, tokenTypeToUnaryOpcode k = UnaryOpcode.LOGIC_NEGATE) /\
  unexpected_kind TokenType.CARET = true.
Proof.
  destruct operator_tokens_one_to_one as (Hb & Hbs & Hu & Hus & _ & Hx).
  split; [|split; [|split; [|split]]].
  - apply (Hb TokenType.STAR TokenType.STAR);
      [vm_compute; discriminate|reflexivity].
  - apply (Hbs BinaryOpcode.LEFT_SHIFT). discriminate.
  - apply (Hu TokenType.TILDE TokenType.TILDE);
      [vm_compute; discriminate|reflexivity].
  - apply (Hus UnaryOpcode.LOGIC_NEGATE). discriminate.
  - apply (Hx TokenType.CARET). right. vm_compute. discriminate.
Defined.

(** ** What [parseCommand] returns *)

(** X7.  On a line that ends in end-of-input, [parseCommand] returns a
    command exactly when the first token is an identifier: then the command
    has that token's text and columns, whatever happens to the arguments,
    and the parser is left at end-of-input; otherwise, an empty line
    included, it returns absent with the one diagnostic "expected command"
    at the first token's column and consumes nothing further. *)
Theorem parseCommand_outcome (t0 first : Token) (rest : list Token)
    (d : list (string * Z)) (n : nat) :
  ends_in_EOFT (first :: rest) = true ->
  (budget (mkParser t0 (first :: rest) d) <= n)%nat ->
  (type first = TokenType.IDENTIFIER ->
   exists args p',
     parseCommand n (mkParser t0 (first :: rest) d) =
       Ret (Some (mkCommandAST (text first) (columnStart first)
                    (columnEnd first) args)) p' /\
     currentType p' = TokenType.EOFT) /\
  (type first <> TokenType.IDENTIFIER ->
   parseCommand n (mkParser t0 (first :: rest) d) =
     Ret None
       (mkParser first rest (d ++ [("expected command", columnStart first)]))).
Proof.
  intros He Hn. unfold parseCommand.
  change (consumeToken (mkParser t0 (first :: rest) d))
    with (mkParser first rest d).
  split; intros Hf; (destruct (decide _) as [Hd|Hd];
    [|try reflexivity; exfalso; apply Hd; exact Hf]);
    [|exfalso; apply Hf; exact Hd].
  assert (Hne : type first <> TokenType.EOFT) by congruence.
  pose proof (ends_in_EOFT_tail _ _ He Hne) as He'.
  destruct rest as [|a ts]; [discriminate|].
  change (consumeToken (mkParser first (a :: ts) d)) with (mkParser a ts d).
  destruct (parseCommand_args_returns n [] (mkParser a ts d) He')
    as (args' & p' & -> & Hc).
  - unfold budget, remaining in *. simpl in *. lia.
  - exists args', p'. split; [reflexivity|exact Hc].
Qed.

Lemma parseCommand_outcome_witness :
  (exists args p',
     parseCommand 28 (unprimed (Samples.eof_at 0) Samples.cmd_minus) =
       Ret (Some (mkCommandAST "cmd" 0 2 args)) p' /\
     currentType p' = TokenType.EOFT) /\
  parseCommand 12 (mkParser (Samples.eof_at 0) [Samples.eof_at 0] []) =
    Ret None
      (mkParser (Samples.eof_at 0) [] [("expected command", 0)]).
Proof.
  split.
  - apply (parseCommand_outcome (Samples.eof_at 0)
             (mkToken TokenType.IDENTIFIER "cmd" 0 2)
             [mkToken TokenType.MINUS "-" 4 4; mkToken TokenType.EOFT "" 5 5]
             [] 28);
      [reflexivity|vm_compute; lia|reflexivity].
  - apply (parseCommand_outcome (Samples.eof_at 0) (Samples.eof_at 0) [] [] 12);
      [reflexivity|vm_compute; lia|discriminate].
Defined.

(** ** Arguments and diagnostics are paid for in tokens *)

Lemma reports_length {A} p (r : option A) p' :
  reports p r p' ->
  length (errorContext p') =
  (length (errorContext p) + match r with Some _ => 0 | None => 1 end)%nat.
Proof.
  destruct r; simpl.
  - intros ->. lia.
  - intros (msg & col & ->). rewrite length_app. reflexivity.
Qed.

Lemma parseCommand_args_accounting n :
  forall args p args' p',
    ends_in_EOFT (pending p) = true ->
    parseCommand_args n args p = Ret (Some args') p' ->
    (length (errorContext p) <= length (errorContext p'))%nat /\
    (length args' + length (errorContext p') + remaining p'
     <= length args + length (errorContext p) + remaining p)%nat.
Proof.
  induction n as [|n IH]; intros args p args' p' He H; [discriminate H|].
  rewrite parseCommand_args_S in H.
  destruct (decide _) as [Hc|Hc]; [injection H as <- <-; lia|].
  pose proof (consumeToken_remaining p He Hc) as Hrem.
  split_call.
  - destruct (parseUnaryOpExpr_advances _ _ _ _ He E) as (He1 & _ & Hlt).
    specialize (Hlt ltac:(discriminate)).
    pose proof (reports_length _ _ _ (parseUnaryOpExpr_reports _ _ _ _ E))
      as Hd. simpl in Hd.
    destruct (IH _ _ _ _ He1 H) as (IH1 & IH2).
    rewrite length_app in IH2. simpl in IH2. lia.
  - destruct (parseUnaryOpExpr_advances _ _ _ _ He E) as (He1 & Hle & _).
    pose proof (reports_length _ _ _ (parseUnaryOpExpr_reports _ _ _ _ E))
      as Hd. simpl in Hd.
    destruct (IH _ _ _ _ (consumeToken_ends _ He1) H) as (IH1 & IH2).
    rewrite consumeToken_errorContext in IH1, IH2.
    assert (Hskip : (remaining (consumeToken p0) < remaining p)%nat).
    { destruct (decide (currentType p0 = TokenType.EOFT)) as [Hc1|Hc1].
      - destruct p0 as [c [|t ts] d0]; unfold remaining in *; simpl in *; lia.
      - pose proof (consumeToken_remaining p0 He1 Hc1). lia. }
    lia.
Qed.

(** X8.  Every argument and every diagnostic of a command is paid for with
    a token of its own: on a line that ends in end-of-input, the number of
    arguments of the command that [parseCommand] returns, plus the number of
    diagnostics reported on the way, is at most the number of tokens between
    the command name and the end-of-input token. *)
Theorem parseCommand_arguments_bounded (t0 first : Token) (rest : list Token)
    (d : list (string * Z)) (n : nat) (c : CommandAST) (p' : Parser) :
  ends_in_EOFT (first :: rest) = true ->
  parseCommand n (mkParser t0 (first :: rest) d) = Ret (Some c) p' ->
  (length (args c) + (length (errorContext p') - length d) + 1
   <= length rest)%nat.
Proof.
  intros He H. unfold parseCommand in H.
  change (consumeToken (mkParser t0 (first :: rest) d))
    with (mkParser first rest d) in H.
  destruct (decide _) as [Hd|]; [|discriminate H].
  assert (Hne : type first <> TokenType.EOFT)
    by (unfold currentType in Hd; simpl in Hd; congruence).
  pose proof (ends_in_EOFT_tail _ _ He Hne) as He'.
  destruct rest as [|a ts]; [discriminate|].
  change (consumeToken (mkParser first (a :: ts) d)) with (mkParser a ts d)
    in H.
  destruct (parseCommand_args n _ _) as [|[args'|] p1] eqn:E;
    try discriminate H.
  injection H as <- <-. simpl.
  destruct (parseCommand_args_accounting n [] (mkParser a ts d) _ _ He' E)
    as (Hgrow & Hacc).
  unfold remaining in Hacc. simpl in Hacc, Hgrow. lia.
Qed.

Lemma parseCommand_arguments_bounded_witness :
  (length [IntegerExpr 4 4 1; IntegerExpr 8 8 2]
   + (length [("invalid character in input", 6)] - length (@nil (string * Z)))
   + 1 <= length [mkToken TokenType.INTEGER "1" 4 4;
                  mkToken TokenType.UNKNOWN "@" 6 6;
                  mkToken TokenType.INTEGER "2" 8 8;
                  mkToken TokenType.EOFT "" 9 9])%nat.
Proof.
  apply (parseCommand_arguments_bounded (Samples.eof_at 0)
           (mkToken TokenType.IDENTIFIER "cmd" 0 2)
           [mkToken TokenType.INTEGER "1" 4 4;
            mkToken TokenType.UNKNOWN "@" 6 6;
            mkToken TokenType.INTEGER "2" 8 8;
            mkToken TokenType.EOFT "" 9 9]
           [] 28
           (mkCommandAST "cmd" 0 2 [IntegerExpr 4 4 1; IntegerExpr 8 8 2])
           (mkParser (Samples.eof_at 9) []
              [("invalid character in input", 6)])).
  - reflexivity.
  - vm_compute. reflexivity.
Defined.

(** * Properties of the input stack *)

(** ** Bounds *)

Lemma geb_false a b : a < b -> (a >=? b) = false.
Proof. intros H. rewrite Z.geb_leb. apply Z.leb_gt. exact H. Qed.

Lemma geb_true a b : b <= a -> (a >=? b) = true.
Proof. intros H. rewrite Z.geb_leb. apply Z.leb_le. exact H. Qed.

Lemma read_input_line_retry_shrinks stack :
  forall st r st',
    read_input_line_retry stack st = (r, st') ->
    (length (input_stack st') <= length stack)%nat /\
    input_stack_capacity st' = input_stack_capacity st.
Proof.
  induction stack as [|f below IH]; intros st r st' H; simpl in H.
  - destruct (terminal st); injection H as <- <-; simpl; auto.
  - destruct (getline (unread f)) as [[line rest]|].
    + injection H as <- <-. simpl. auto.
    + apply IH in H. simpl. destruct H. split; [lia|assumption].
Qed.

(** From a capacity of the series that the stack has filled, one doubling
    makes room, and without wrapping around. *)
Lemma grow_once fuel realloc_ok size capacity :
  In capacity capacities -> Z.of_nat size <= capacity ->
  (size < MAX_INPUT_STACK_SIZE)%nat ->
  grow (S (S fuel)) realloc_ok size capacity =
  if Z.of_nat size <? capacity then Some (Some capacity)
  else if realloc_ok (capacity * 2 * sizeof_pointer)
       then Some (Some (capacity * 2))
       else Some None.
Proof.
  unfold MAX_INPUT_STACK_SIZE, capacities. intros Hc Hle Hlt.
  assert (Hz : Z.of_nat size < 128) by lia.
  cbn [grow].
  destruct (Z.of_nat size <? capacity) eqn:Hcmp.
  - apply Z.ltb_lt in Hcmp.
    rewrite geb_false by lia.
    reflexivity.
  - apply Z.ltb_ge in Hcmp.
    rewrite geb_true by lia.
    assert (Hsmall : 0 < capacity <= 64) by (simpl in Hc; lia).
    unfold SIZE_MODULUS, sizeof_pointer.
    rewrite (Z.mod_small (capacity * 2)) by lia.
    rewrite (Z.mod_small (capacity * 2 * 8)) by lia.
    destruct (realloc_ok _); [|reflexivity].
    rewrite geb_false by lia.
    reflexivity.
Qed.

Lemma capacities_double capacity :
  In capacity capacities -> capacity <= 64 -> In (capacity * 2) capacities.
Proof.
  unfold capacities. simpl.
  intros [<-|[<-|[<-|[<-|[<-|[<-|[]]]]]]] H; simpl; try lia; auto 10.
Qed.

Lemma within_bounds_reachable st : reachable st -> within_bounds st.
Proof.
  unfold within_bounds, MAX_INPUT_STACK_SIZE.
  induction 1 as [typed|st fuel fopen ok path code st' _ IH H
                 |st prompt r st' _ IH H].
  - unfold input_stack_size, init_input, startup, capacities. simpl.
    split; [lia|]. split; [lia|auto].
  - destruct IH as (Hs & Hle & Hc). unfold redirect_input in H.
    destruct (Nat.eqb _ _) eqn:Hfull;
      [injection H as <- <-; auto|].
    apply Nat.eqb_neq in Hfull. unfold MAX_INPUT_STACK_SIZE in Hfull.
    destruct (fopen path) as [file|]; [|injection H as <- <-; auto].
    destruct fuel as [|[|fuel]].
    + discriminate H.
    + simpl in H.
      destruct (Z.of_nat (input_stack_size st) >=? input_stack_capacity st)
        eqn:Hcmp.
      * destruct (ok _); discriminate H.
      * injection H as <- <-. unfold input_stack_size in *. simpl.
        rewrite Z.geb_leb in Hcmp. apply Z.leb_gt in Hcmp.
        repeat split; [lia|lia|exact Hc].
    + rewrite grow_once in H by (assumption || unfold MAX_INPUT_STACK_SIZE; lia).
      destruct (_ <? _) eqn:Hcmp.
      * injection H as <- <-. unfold input_stack_size in *. simpl.
        apply Z.ltb_lt in Hcmp. repeat split; [lia|lia|exact Hc].
      * apply Z.ltb_ge in Hcmp.
        destruct (ok _); [|discriminate H].
        injection H as <- <-. unfold input_stack_size in *.
        cbn [input_stack input_stack_capacity length].
        assert (4 <= input_stack_capacity st <= 64)
          by (unfold capacities in Hc; simpl in Hc; lia).
        split; [lia|]. split; [lia|]. apply capacities_double; [exact Hc|lia].
  - destruct IH as (Hs & Hle & Hc). unfold read_input_line in H.
    apply read_input_line_retry_shrinks in H as (Hlen & Hcap).
    unfold input_stack_size in *. rewrite Hcap.
    repeat split; [lia|lia|exact Hc].
Qed.

(** X9.  The input stack stays within its bounds: in every state the
    program can reach after [init_input], however [redirect_input] and
    [read_input_line] are called, at most 128 files are open, the capacity
    of the array is one of 4, 8, 16, 32, 64, 128 and is never below the
    number of files on it. *)
Theorem input_stack_within_bounds (st : Input) :
  reachable st ->
  (input_stack_size st <= MAX_INPUT_STACK_SIZE)%nat /\
  Z.of_nat (input_stack_size st) <= input_stack_capacity st /\
  In (input_stack_capacity st) capacities.
Proof. exact (within_bounds_reachable st). Qed.

Lemma input_stack_within_bounds_witness :
  (input_stack_size sample_redirected <= MAX_INPUT_STACK_SIZE)%nat /\
  Z.of_nat (input_stack_size sample_redirected)
    <= input_stack_capacity sample_redirected /\
  In (input_stack_capacity sample_redirected) capacities.
Proof.
  apply (input_stack_within_bounds sample_redirected).
  apply (reach_redirect (init_input (startup ["typed"%string])) 2
           sample_fopen (fun _ => true) "script" 0).
  - apply reach_init.
  - vm_compute. reflexivity.
Defined.

(** ** What [redirect_input] does *)

(** X10.  In a state the program can reach, [redirect_input] behaves as
    follows, its loop turning at most once and no [size_t] wrapping around.
    With 128 files open it returns 1 and opens nothing; when the file cannot
    be opened it returns 1; in both cases only a message is written.
    Otherwise the file goes on top of the stack, at an index below the
    capacity: the capacity is kept while there is room and doubled, with one
    call of [realloc], when the array is full; the call returns 0, or leaves
    through [exit(1)] when that [realloc] fails. *)
Theorem redirect_input_outcome (fuel : nat) (fopen : string -> option FILE)
    (realloc_ok : Z -> bool) (path : string) (st : Input) :
  reachable st ->
  redirect_input (S (S fuel)) fopen realloc_ok path st =
  if Nat.eqb (input_stack_size st) 128 then
    Returned 1
      (complain
         (Message ("Input redirection stack too deep"
                   ++ String newline EmptyString)) st)
  else
    match fopen path with
    | None =>
        Returned 1
          (complain
             (Message ("Could not open file `" ++ path ++ "'"
                       ++ String newline EmptyString)) st)
    | Some file =>
        if Z.of_nat (input_stack_size st) <? input_stack_capacity st then
          Returned 0
            (mkInput (file :: input_stack st) (input_stack_capacity st)
               (terminal st) (history st) (stderr st))
        else if realloc_ok (input_stack_capacity st * 2 * 8) then
          Returned 0
            (mkInput (file :: input_stack st) (input_stack_capacity st * 2)
               (terminal st) (history st) (stderr st))
        else Exited 1 (complain (Perror "realloc") st)
    end.
Proof.
  intros Hr. destruct (within_bounds_reachable st Hr) as (Hs & Hle & Hc).
  unfold redirect_input.
  change MAX_INPUT_STACK_SIZE with 128%nat in *.
  destruct (Nat.eqb _ _) eqn:Hfull; [reflexivity|].
  apply Nat.eqb_neq in Hfull.
  destruct (fopen path) as [file|]; [|reflexivity].
  rewrite grow_once by (assumption || unfold MAX_INPUT_STACK_SIZE; lia).
  destruct (_ <? _); [reflexivity|].
  unfold sizeof_pointer. destruct (realloc_ok _); reflexivity.
Qed.

Lemma redirect_input_outcome_witness :
  redirect_input 2 sample_fopen (fun _ => true) "script" sample_redirected =
  if Nat.eqb (input_stack_size sample_redirected) 128 then
    Returned 1
      (complain
         (Message ("Input redirection stack too deep"
                   ++ String newline EmptyString)) sample_redirected)
  else
    match sample_fopen "script" with
    | None =>
        Returned 1
          (complain
             (Message ("Could not open file `" ++ "script" ++ "'"
                       ++ String newline EmptyString)) sample_redirected)
    | Some file =>
        if Z.of_nat (input_stack_size sample_redirected)
           <? input_stack_capacity sample_redirected then
          Returned 0
            (mkInput (file :: input_stack sample_redirected)
               (input_stack_capacity sample_redirected)
               (terminal sample_redirected) (history sample_redirected)
               (stderr sample_redirected))
        else if (fun _ : Z => true)
                  (input_stack_capacity sample_redirected * 2 * 8) then
          Returned 0
            (mkInput (file :: input_stack sample_redirected)
               (input_stack_capacity sample_redirected * 2)
               (terminal sample_redirected) (history sample_redirected)
               (stderr sample_redirected))
        else Exited 1 (complain (Perror "realloc") sample_redirected)
    end.
Proof.
  apply (redirect_input_outcome 0 sample_fopen (fun _ => true) "script"
           sample_redirected).
  apply (reach_redirect (init_input (startup ["typed"%string])) 2
           sample_fopen (fun _ => true) "script" 0).
  - apply reach_init.
  - vm_compute. reflexivity.
Defined.

(** ** Reading falls through the files that are exhausted *)

Lemma read_input_line_retry_stack stack :
  forall st1 st2,
    input_stack_capacity st1 = input_stack_capacity st2 ->
    terminal st1 = terminal st2 -> history st1 = history st2 ->
    stderr st1 = stderr st2 ->
    read_input_line_retry stack st1 = read_input_line_retry stack st2.
Proof.
  induction stack as [|f below IH]; intros st1 st2 Hc Ht Hh He; simpl.
  - rewrite Ht, Hh, He, Hc. unfold with_stack. rewrite Hc, Ht, Hh, He.
    reflexivity.
  - destruct (getline (unread f)) as [[line rest]|].
    + unfold with_stack. rewrite Hc, Ht, Hh, He. reflexivity.
    + apply IH; assumption.
Qed.

Lemma read_input_line_retry_exhausted files :
  forall below st,
    Forall exhausted files ->
    read_input_line_retry (files ++ below) st =
    read_input_line_retry below st.
Proof.
  induction files as [|f files IH]; intros below st Hex; [reflexivity|].
  pose proof (Forall_inv Hex) as Hf. unfold exhausted in Hf.
  simpl. rewrite Hf. simpl. apply IH. exact (Forall_inv_tail Hex).
Qed.

Lemma read_input_line_retry_none stack :
  forall st st',
    read_input_line_retry stack st = (None, st') ->
    Forall exhausted stack /\ terminal st = [] /\ input_stack st' = [].
Proof.
  induction stack as [|f below IH]; intros st st' H; simpl in H.
  - destruct (terminal st); [|discriminate H].
    injection H as <-. auto.
  - destruct (getline (unread f)) as [[line rest]|] eqn:Hg;
      [discriminate H|].
    destruct (IH _ _ H) as (Hex & Ht & Hs).
    split; [|auto]. constructor; [|exact Hex].
    unfold exhausted. destruct (unread f) as [|c s]; [reflexivity|].
    simpl in Hg. destruct (Ascii.eqb c newline); [discriminate Hg|].
    destruct (getline s) as [[? ?]|]; discriminate Hg.
Qed.

(** X11.  [read_input_line] closes and pops every file that has nothing
    left and reads on below: with exhausted files on top of the stack it
    returns the line, and leaves the state, that it would without them.  It
    returns no line only when every file on the stack is exhausted and the
    terminal is at its end, and then no file is left on the stack. *)
Theorem read_input_line_falls_through :
  (forall files below prompt st,
     Forall exhausted files ->
     read_input_line prompt (with_stack (files ++ below) st) =
     read_input_line prompt (with_stack below st)) /\
  (forall prompt st st',
     read_input_line prompt st = (None, st') ->
     Forall exhausted (input_stack st) /\ terminal st = [] /\
     input_stack st' = []).
Proof.
  split.
  - intros files below prompt st Hex. unfold read_input_line. simpl.
    rewrite (read_input_line_retry_exhausted files below _ Hex).
    apply read_input_line_retry_stack; reflexivity.
  - intros prompt st st' H. exact (read_input_line_retry_none _ _ _ H).
Qed.

Lemma read_input_line_falls_through_witness :
  read_input_line ">"
    (with_stack ([mkFILE ""; mkFILE ""]
                 ++ [file_of_lines ["first"%string; "second"%string]])
       sample_redirected)
  = read_input_line ">"
      (with_stack [file_of_lines ["first"%string; "second"%string]]
         sample_redirected) /\
  (Forall exhausted (input_stack (startup [])) /\
   terminal (startup []) = [] /\
   input_stack (with_stack [] (startup [])) = []).
Proof.
  destruct read_input_line_falls_through as (Hskip & Hnone).
  split.
  - apply (Hskip [mkFILE ""; mkFILE ""]). repeat constructor.
  - apply (Hnone ">" (startup []) (with_stack [] (startup []))).
    reflexivity.
Defined.

(** ** A file is read back line by line *)

Lemma plain_cons c line :
  plain (String c line) = true ->
  Ascii.eqb c newline = false /\ Ascii.eqb c NUL = false /\ plain line = true.
Proof.
  simpl. intros H. apply andb_prop in H as (Hc & Hl).
  apply negb_true_iff, orb_false_iff in Hc. tauto.
Qed.

Lemma getline_line line rest :
  plain line = true ->
  getline (line ++ String newline rest) =
  Some ((line ++ String newline EmptyString)%string, rest).
Proof.
  induction line as [|c line IH]; intros Hp; simpl.
  - reflexivity.
  - apply plain_cons in Hp as (Hn & _ & Hl). rewrite Hn, (IH Hl). reflexivity.
Qed.

Lemma chop_line line tail :
  plain line = true -> chop (line ++ String newline tail) = line.
Proof.
  induction line as [|c line IH]; intros Hp; simpl.
  - reflexivity.
  - apply plain_cons in Hp as (Hn & Hz & Hl).
    rewrite Hn, Hz, (IH Hl). reflexivity.
Qed.

Lemma chop_plain line : plain (chop line) = true.
Proof.
  induction line as [|c line IH]; simpl; [reflexivity|].
  destruct (Ascii.eqb c newline || Ascii.eqb c NUL) eqn:Hc; [reflexivity|].
  simpl. rewrite Hc, IH. reflexivity.
Qed.

Lemma read_lines_file lines :
  forall prompts below st,
    Forall (fun l => plain l = true) lines ->
    length prompts = length lines ->
    read_lines prompts (with_stack (file_of_lines lines :: below) st) =
    (map Some lines, with_stack (file_of_lines [] :: below) st).
Proof.
  induction lines as [|l lines IH]; intros [|prompt prompts] below st Hp Hlen;
    try discriminate Hlen; [reflexivity|].
  pose proof (Forall_inv Hp) as Hl.
  cbn [read_lines]. unfold read_input_line.
  cbn [input_stack with_stack read_input_line_retry].
  unfold file_of_lines at 1. cbn [unread fold_right].
  rewrite (getline_line l _ Hl), (chop_line l _ Hl).
  change (mkFILE (fold_right _ EmptyString lines))
    with (file_of_lines lines).
  change (with_stack (file_of_lines lines :: below)
            (with_stack (file_of_lines (l :: lines) :: below) st))
    with (with_stack (file_of_lines lines :: below) st).
  rewrite (IH prompts below st (Forall_inv_tail Hp)) by (simpl in Hlen; lia).
  reflexivity.
Qed.

(** X12.  What [redirect_input] opens is read back line by line: after a
    call that returns 0 on a file of whole lines without NUL, as many calls
    of [read_input_line] as the file has lines return these lines, in order
    and without their newlines, the terminal and the history untouched; the
    call after those closes the file and reads as if it had never been
    opened. *)
Theorem redirected_file_is_read_back (fuel : nat)
    (fopen : string -> option FILE) (realloc_ok : Z -> bool) (path : string)
    (st st1 : Input) (lines prompts : list string) :
  redirect_input fuel fopen realloc_ok path st = Returned 0 st1 ->
  fopen path = Some (file_of_lines lines) ->
  Forall (fun l => plain l = true) lines ->
  length prompts = length lines ->
  read_lines prompts st1 =
    (map Some lines, with_stack (file_of_lines [] :: input_stack st) st1) /\
  terminal st1 = terminal st /\ history st1 = history st /\
  forall prompt,
    read_input_line prompt
      (with_stack (file_of_lines [] :: input_stack st) st1)
    = read_input_line prompt (with_stack (input_stack st) st1).
Proof.
  intros H Hf Hp Hlen. unfold redirect_input in H.
  destruct (Nat.eqb _ _); [discriminate H|]. rewrite Hf in H.
  destruct (grow _ _ _ _) as [[capacity|]|]; try discriminate H.
  injection H as <-.
  split; [|split; [reflexivity|split; [reflexivity|]]].
  - exact (read_lines_file lines prompts (input_stack st)
             (mkInput (file_of_lines lines :: input_stack st) capacity
                (terminal st) (history st) (stderr st)) Hp Hlen).
  - intros prompt. unfold read_input_line. simpl.
    apply read_input_line_retry_stack; reflexivity.
Qed.

Lemma redirected_file_is_read_back_witness :
  read_lines [">"%string; ">"%string] sample_redirected =
    (map Some ["first"%string; "second"%string],
     with_stack (file_of_lines [] :: input_stack
                   (init_input (startup ["typed"%string])))
       sample_redirected).
Proof.
  apply (redirected_file_is_read_back 2 sample_fopen (fun _ => true) "script"
           (init_input (startup ["typed"%string])) sample_redirected
           ["first"%string; "second"%string] [">"%string; ">"%string]).
  - vm_compute. reflexivity.
  - vm_compute. reflexivity.
  - repeat constructor.
  - reflexivity.
Defined.

(** ** Where a line comes from *)

Lemma read_input_line_retry_source stack :
  forall st r st',
    read_input_line_retry stack st = (r, st') ->
    Forall exhausted stack \/
    exists line,
      r = Some line /\ plain line = true /\
      terminal st' = terminal st /\ history st' = history st.
Proof.
  induction stack as [|f below IH]; intros st r st' H.
  - left. constructor.
  - simpl in H. destruct (getline (unread f)) as [[line rest]|] eqn:Hg.
    + injection H as <- <-. right. exists (chop line).
      split; [reflexivity|]. split; [apply chop_plain|]. auto.
    + destruct (IH _ _ _ H) as [Hex|Hline]; [left|right; exact Hline].
      constructor; [|exact Hex].
      unfold exhausted. destruct (unread f) as [|c s]; [reflexivity|].
      simpl in Hg. destruct (Ascii.eqb c newline); [discriminate Hg|].
      destruct (getline s) as [[? ?]|]; discriminate Hg.
Qed.

(** X13.  While a file on the stack has something left, the line that
    [read_input_line] returns comes from a file: it holds no newline and no
    NUL, and neither the terminal nor the history is touched.  When every
    file is exhausted, or none is open, the line is the next one typed at the
    terminal, returned as it is, and it is added to the history unless it is
    empty; at the end of the terminal no line is returned. *)
Theorem read_input_line_source :
  (forall prompt st r st',
     read_input_line prompt st = (r, st') ->
     ~ Forall exhausted (input_stack st) ->
     exists line,
       r = Some line /\ plain line = true /\
       terminal st' = terminal st /\ history st' = history st) /\
  (forall prompt st,
     Forall exhausted (input_stack st) ->
     read_input_line prompt st =
     match terminal st with
     | [] => (None, with_stack [] st)
     | line :: typed =>
         (Some line,
          mkInput [] (input_stack_capacity st) typed
            (if String.eqb line EmptyString then history st
             else history st ++ [line])
            (stderr st))
     end).
Proof.
  split.
  - intros prompt st r st' H Hne.
    destruct (read_input_line_retry_source _ _ _ _ H) as [Hex|Hline];
      [contradiction|exact Hline].
  - intros prompt st Hex. unfold read_input_line.
    rewrite <- (app_nil_r (input_stack st)).
    rewrite (read_input_line_retry_exhausted _ [] st Hex). simpl.
    destruct (terminal st) as [|line typed]; [reflexivity|].
    destruct line; reflexivity.
Qed.

Lemma read_input_line_source_witness :
  (exists line,
     Some "first"%string = Some line /\ plain line = true /\
     terminal
       (with_stack [file_of_lines ["second"%string]] sample_redirected)
     = terminal sample_redirected /\
     history
       (with_stack [file_of_lines ["second"%string]] sample_redirected)
     = history sample_redirected) /\
  read_input_line ">" (with_stack [mkFILE ""] sample_redirected) =
  match terminal (with_stack [mkFILE ""] sample_redirected) with
  | [] => (None, with_stack [] (with_stack [mkFILE ""] sample_redirected))
  | line :: typed =>
      (Some line,
       mkInput []
         (input_stack_capacity (with_stack [mkFILE ""] sample_redirected))
         typed
         (if String.eqb line EmptyString
          then history (with_stack [mkFILE ""] sample_redirected)
          else history (with_stack [mkFILE ""] sample_redirected) ++ [line])
         (stderr (with_stack [mkFILE ""] sample_redirected)))
  end.
Proof.
  destruct read_input_line_source as (Hfile & Hterm).
  split.
  - apply (Hfile ">" sample_redirected (Some "first"%string)).
    + vm_compute. reflexivity.
    + intros H. apply Forall_inv in H. discriminate H.
  - apply (Hterm ">" (with_stack [mkFILE ""] sample_redirected)).
    repeat constructor.
Defined.

(** * Properties of the assembler's output *)

Lemma getTextSection_passed_over (before rest : list Section)
    (result : list Byte.byte) :
  Forall passed_over before ->
  getTextSection (before ++ rest) result = getTextSection rest result.
Proof.
  induction 1 as [|s before [He [Hv Hi]] _ IH]; [reflexivity|].
  simpl. rewrite He, Hv, Hi. simpl. exact IH.
Qed.

(** X14.  [getTextSection] looks at the sections in order and stops at the
    first one that is text or raises an error: past sections that are
    neither, an [isText] error is returned with [result] as it was, a text
    section gives what [getContents] gives, and an error of the iterator's
    increment is returned; with no such section at all it succeeds and
    leaves [result] as it was. *)
Theorem getTextSection_first_text (before after : list Section) (s : Section)
    (result : list Byte.byte) :
  Forall passed_over before ->
  getTextSection before result = (0, result) /\
  (isText_error s <> 0 ->
   getTextSection (before ++ s :: after) result = (isText_error s, result)) /\
  (isText_error s = 0 -> isText_value s = true ->
   getTextSection (before ++ s :: after) result
   = (getContents_error s,
      if getContents_error s =? 0 then getContents_value s else result)) /\
  (isText_error s = 0 -> isText_value s = false -> increment_error s <> 0 ->
   getTextSection (before ++ s :: after) result = (increment_error s, result)).
Proof.
  intros Hb. split; [|split; [|split]].
  - rewrite <- (app_nil_r before) at 1.
    rewrite getTextSection_passed_over by exact Hb. reflexivity.
  - intros He. rewrite getTextSection_passed_over by exact Hb. simpl.
    apply Z.eqb_neq in He. rewrite He. reflexivity.
  - intros He Hv. rewrite getTextSection_passed_over by exact Hb. simpl.
    rewrite He, Hv. reflexivity.
  - intros He Hv Hi. rewrite getTextSection_passed_over by exact Hb. simpl.
    apply Z.eqb_neq in Hi. rewrite He, Hv, Hi. reflexivity.
Qed.

Lemma getTextSection_first_text_witness :
  getTextSection (firstn 1 sample_sections) [] = (0, []) /\
  getTextSection sample_sections [] = (0, [Byte.x90; Byte.xc3]).
Proof.
  assert (Hb : Forall passed_over (firstn 1 sample_sections)).
  { repeat constructor. }
  destruct (getTextSection_first_text (firstn 1 sample_sections)
              (skipn 2 sample_sections) (mkSection 0 true 0 [Byte.x90; Byte.xc3] 0)
              [] Hb) as [H0 [_ [Ht _]]].
  split; [exact H0|]. exact (Ht eq_refl eq_refl).
Defined.

(** X15.  From the parser run on, [assemble_instruction] returns -1 exactly
    when the run or [getTextSection] failed, and then the buffer and its
    recorded size are as they were; otherwise it returns the length of the
    text section, the buffer begins with the text section, and its size is
    the larger of the old size and that length, so the buffer never
    shrinks and the bytes past the copy are kept when it is not
    reallocated.  The assertion fails only when the buffer had to grow and
    [realloc] failed. *)
Theorem assemble_instruction_buffer (run : Z) (sections : list Section)
    (realloc_ok : Z -> bool) (out : list Byte.byte) (out_size : Z) :
  Z.of_nat (length out) = out_size ->
  Z.of_nat (length (snd (getTextSection sections []))) < 2 ^ 63 ->
  match assemble_instruction run sections realloc_ok out out_size with
  | AssertionFailed =>
      run = 0 /\ fst (getTextSection sections []) = 0 /\
      out_size < Z.of_nat (length (snd (getTextSection sections []))) /\
      realloc_ok (Z.of_nat (length (snd (getTextSection sections [])))) = false
  | Assembled count out' out_size' =>
      Z.of_nat (length out') = out_size' /\
      ((count = -1 /\ (run <> 0 \/ fst (getTextSection sections []) <> 0) /\
        out' = out /\ out_size' = out_size)
       \/
       (run = 0 /\ fst (getTextSection sections []) = 0 /\
        count = Z.of_nat (length (snd (getTextSection sections []))) /\
        out_size' = Z.max out_size count /\
        firstn (Z.to_nat count) out' = snd (getTextSection sections []) /\
        (count <= out_size ->
         skipn (Z.to_nat count) out' = skipn (Z.to_nat count) out)))
  end.
Proof.
  intros Hlen Hsmall. unfold assemble_instruction.
  destruct (getTextSection sections []) as [err text] eqn:Hg.
  cbn [fst snd] in *.
  destruct (Z.eqb_spec run 0) as [Hr|Hr].
  2:{ split; [exact Hlen|]. left. repeat split; auto. }
  destruct (Z.eqb_spec err 0) as [He|He].
  2:{ split; [exact Hlen|]. left. repeat split; auto. }
  assert (Hs : to_ssize_t (Z.of_nat (length text)) = Z.of_nat (length text)).
  { unfold to_ssize_t. destruct (Z.ltb_spec (Z.of_nat (length text)) (2 ^ 63));
      [reflexivity|lia]. }
  rewrite Hs.
  destruct (Z.of_nat (length text) >? out_size) eqn:Hgt.
  - assert (Hlt : out_size < Z.of_nat (length text))
      by (apply Z.gt_lt, Z.gtb_gt; exact Hgt).
    destruct (realloc_ok (Z.of_nat (length text))) eqn:Hre.
    + split; [reflexivity|]. right.
      rewrite Nat2Z.id, firstn_all.
      repeat split; auto; lia.
    + repeat split; auto.
  - assert (Hle : Z.of_nat (length text) <= out_size).
    { destruct (Z.gtb_spec (Z.of_nat (length text)) out_size);
        [discriminate|lia]. }
    assert (Hn : (length text <= length out)%nat) by lia.
    split.
    + rewrite length_app, length_skipn. lia.
    + right. rewrite Nat2Z.id.
      split; [exact Hr|]. split; [exact He|]. split; [reflexivity|].
      split; [lia|]. split.
      * rewrite firstn_app, firstn_all, Nat.sub_diag. simpl.
        apply app_nil_r.
      * intros _. rewrite skipn_app, skipn_all, Nat.sub_diag. reflexivity.
Qed.

Lemma assemble_instruction_buffer_witness :
  match assemble_instruction 0 sample_sections (fun _ => true) [Byte.xff] 1 with
  | AssertionFailed =>
      0 = 0 /\ fst (getTextSection sample_sections []) = 0 /\
      1 < Z.of_nat (length (snd (getTextSection sample_sections []))) /\
      true = false
  | Assembled count out' out_size' =>
      Z.of_nat (length out') = out_size' /\
      ((count = -1 /\ (0 <> 0 \/ fst (getTextSection sample_sections []) <> 0) /\
        out' = [Byte.xff] /\ out_size' = 1)
       \/
       (0 = 0 /\ fst (getTextSection sample_sections []) = 0 /\
        count = Z.of_nat (length (snd (getTextSection sample_sections []))) /\
        out_size' = Z.max 1 count /\
        firstn (Z.to_nat count) out' = snd (getTextSection sample_sections []) /\
        (count <= 1 ->
         skipn (Z.to_nat count) out' = skipn (Z.to_nat count) [Byte.xff])))
  end.
Proof.
  apply (assemble_instruction_buffer 0 sample_sections (fun _ => true)
           [Byte.xff] 1).
  - reflexivity.
  - vm_compute. reflexivity.
Defined.

(** X16.  An object file in which no section is text and no call fails is
    no failure: [assemble_instruction] returns 0, not -1, and leaves the
    buffer and its recorded size as they were, whatever [realloc] would
    do. *)
Theorem assemble_instruction_no_text (sections : list Section)
    (realloc_ok : Z -> bool) (out : list Byte.byte) (out_size : Z) :
  Forall passed_over sections ->
  0 <= out_size ->
  assemble_instruction 0 sections realloc_ok out out_size
  = Assembled 0 out out_size.
Proof.
  intros Hs Hpos. unfold assemble_instruction.
  rewrite <- (app_nil_r sections).
  rewrite getTextSection_passed_over by exact Hs. simpl.
  change (Z.of_nat 0) with 0.
  destruct (Z.gtb_spec 0 out_size); [lia|reflexivity].
Qed.

Lemma assemble_instruction_no_text_witness :
  assemble_instruction 0 (firstn 1 sample_sections) (fun _ => false)
    [Byte.xff] 1
  = Assembled 0 [Byte.xff] 1.
Proof.
  apply (assemble_instruction_no_text (firstn 1 sample_sections)
           (fun _ => false) [Byte.xff] 1).
  - repeat constructor.
  - lia.
Defined.
